(** * StreamlinedCMS client SDK: credential store, popup handshakes and
      the in-page editing session.

    A shallow embedding of [src/auth.ts] (class [Auth]) and of the lazy
    editor module (class [EditorController]), followed by the properties
    proved about them.

    Conventions of the embedding.
    - [localStorage] is a finite map from storage names to the documents
      held under them; [JSON.stringify] followed by [JSON.parse] is the
      identity on the two records the SDK writes, so a slot holds the
      parsed record, or [Unparseable] for text on which the [try] block of
      the reader throws.  Storage writes do not fail.
    - [Date.now()] is an integer number of milliseconds ([Z]).
    - A JavaScript [Map] that the code iterates is an insertion-ordered
      association list (module [JsMap]); a [Map] that is only read and
      written by key is a [gmap].
    - [string | null] is [option string]; a JavaScript truthiness test on
      such a value is [truthy].
    - Logging, styling, the sign-in link and the custom sign-in trigger
      are presentation only and are left out, except for the two log
      calls and the [alert] that carry the outcome of a save.  The HTML
      editor modal changes the content of the edited element the way
      typing does, and is covered by the [Input] event.
    - Code that runs between two turns of the event loop is one
      transition; [async] functions are cut at their [await]s. *)

From stdpp Require Import gmap strings list fin_maps pretty.
From Stdlib Require Import Ascii ZArith Lia.

Open Scope string_scope.

(** [if (x)] on a [string | null]: [null] and the empty string are falsy. *)
Definition truthy (x : option string) : bool :=
  match x with
  | Some s => negb (bool_decide (s = ""))
  | None => false
  end.

(** ** JavaScript [Map] with string keys, in insertion order *)

Module JsMap.

Section Ops.
Context {V : Type}.

Definition t := list (string * V).

Definition empty : t := [].

Fixpoint get (k : string) (m : t) : option V :=
  match m with
  | [] => None
  | (k', v) :: rest => if decide (k' = k) then Some v else get k rest
  end.

Definition has (k : string) (m : t) : bool :=
  match get k m with Some _ => true | None => false end.

(** [set] overwrites in place when the key is present and appends
    otherwise, as [Map.prototype.set] does. *)
Fixpoint set (k : string) (v : V) (m : t) : t :=
  match m with
  | [] => [(k, v)]
  | (k', v') :: rest =>
      if decide (k' = k) then (k, v) :: rest else (k', v') :: set k v rest
  end.

Definition size (m : t) : nat := length m.

Definition keys (m : t) : list string := m.*1.

(** The object stored under [k] mutated in place by [f]; nothing happens
    when [k] is absent. *)
Fixpoint mutate (k : string) (f : V -> V) (m : t) : t :=
  match m with
  | [] => []
  | (k', v) :: rest =>
      if decide (k' = k) then (k', f v) :: rest else (k', v) :: mutate k f rest
  end.

(** [forEach] whose callback mutates the visited object. *)
Definition mutate_all (f : V -> V) (m : t) : t :=
  (fun kv => (kv.1, f kv.2)) <$> m.

End Ops.

Arguments t : clear implicits.

End JsMap.

(** ** [src/auth.ts] *)

Module Auth.

Definition STORAGE_KEY : string := "scms_auth".
Definition MODE_STORAGE_KEY : string := "scms_mode".
Definition POPUP_CHECK_INTERVAL : Z := 500.
Definition KEY_EXPIRY_MS : Z := 60 * 60 * 1000.

Record StoredAuth := mkStoredAuth {
  key : string;
  appId : string;
  expiresAt : Z
}.

Inductive EditorMode := author | viewer.

Record AuthConfig := mkAuthConfig {
  config_appId : string;
  config_appUrl : string
}.

Record MediaFile := mkMediaFile {
  fileId : string;
  filename : string;
  extension : string;
  contentType : string;
  size : Z;
  uploadedAt : string;
  uploadedBy : option string;
  publicUrl : string
}.

(** What a [localStorage] slot holds. *)
Inductive Item :=
  | AuthDoc (a : StoredAuth)
  | ModeDoc (app : string) (mode : EditorMode)
  | Unparseable.

#[global] Instance EditorMode_eq_dec : EqDecision EditorMode.
Proof. solve_decision. Defined.

Section Store.
Variable config : AuthConfig.

Definition clearStoredKey (ls : gmap string Item) : gmap string Item :=
  delete STORAGE_KEY ls.

(** [getStoredKey]: the result and the storage left behind.  A slot that
    is missing, or that does not hold a credential record, gives [null]
    and is left alone. *)
Definition getStoredKey (now : Z) (ls : gmap string Item)
  : option string * gmap string Item :=
  match ls !! STORAGE_KEY with
  | Some (AuthDoc auth) =>
      if bool_decide (appId auth ≠ config_appId config) then (None, ls)
      else if (now >? expiresAt auth)%Z then (None, clearStoredKey ls)
      else (Some (key auth), ls)
  | _ => (None, ls)
  end.

Definition storeKey (now : Z) (k : string) (ls : gmap string Item)
  : gmap string Item :=
  let auth := {| key := k;
                 appId := config_appId config;
                 expiresAt := (now + KEY_EXPIRY_MS)%Z |} in
  <[STORAGE_KEY := AuthDoc auth]> ls.

(** [refreshKeyExpiry] reads the clock twice: once inside [getStoredKey]
    and once inside [storeKey]. *)
Definition refreshKeyExpiry (now_read now_write : Z) (ls : gmap string Item)
  : gmap string Item :=
  let '(k, ls1) := getStoredKey now_read ls in
  match k with
  | Some k' => if truthy k then storeKey now_write k' ls1 else ls1
  | None => ls1
  end.

Definition getStoredMode (ls : gmap string Item) : option EditorMode :=
  match ls !! MODE_STORAGE_KEY with
  | Some (ModeDoc app mode) =>
      if bool_decide (app ≠ config_appId config) then None else Some mode
  | _ => None
  end.

Definition storeMode (mode : EditorMode) (ls : gmap string Item)
  : gmap string Item :=
  <[MODE_STORAGE_KEY := ModeDoc (config_appId config) mode]> ls.

End Store.

(** *** The popup handshakes

    [openLoginPopup] and [openMediaManager] build a promise, a poll timer
    and a call channel and then return; everything else happens in
    callbacks.  A [Handshake] is the state those callbacks share, and
    [step] runs one callback.

    The call channel belongs to the penpal library.  Of it the model keeps
    what the SDK passes in ([allowedOrigins], [timeout], the exposed
    methods) and the library's contract: a call is dispatched to an
    exposed method only while the connection is alive and only when the
    message comes from an allowed origin; when [timeout] elapses the
    library rejects its own [connection.promise], which the SDK never
    observes. *)

Inductive Result :=
  | Credential (k : string)
  | Selection (file : MediaFile)
  | Cancelled.

(** [Rejected]: the promise executor threw ([new URL] on a malformed
    [appUrl]). *)
Inductive PromiseState :=
  | Pending
  | Fulfilled (r : Result)
  | Rejected.

(** Only the first [resolve] of a promise has an effect. *)
Definition resolve (r : Result) (p : PromiseState) : PromiseState :=
  match p with
  | Pending => Fulfilled r
  | _ => p
  end.

Inductive PopupKind := LoginPopup | MediaPopup.

Inductive Method :=
  | receiveAuthResult (k : string)
  | receiveMediaSelection (file : MediaFile)
  | receiveMediaCancel.

Record Handshake := mkHandshake {
  kind : PopupKind;
  promise : PromiseState;
  checkClosed : bool;           (* the [setInterval] poll is armed *)
  connection : bool;            (* the channel has not been destroyed *)
  allowedOrigins : list string;
  timeout : Z;
  connectTimer : bool;          (* the library's timeout has not fired *)
  elapsed : Z;                  (* milliseconds since the popup opened *)
  deferredCleanups : nat        (* queued [setTimeout(cleanup, 0)] *)
}.

Record World := mkWorld {
  storage : gmap string Item;
  now : Z;
  hs : Handshake
}.

Inductive Event :=
  | Tick (popupClosed : bool)   (* [POPUP_CHECK_INTERVAL] ms go by *)
  | Call (origin : string) (m : Method)
  | RunDeferred.

Definition with_promise (p : PromiseState) (h : Handshake) : Handshake :=
  {| kind := kind h; promise := p; checkClosed := checkClosed h;
     connection := connection h; allowedOrigins := allowedOrigins h;
     timeout := timeout h; connectTimer := connectTimer h;
     elapsed := elapsed h; deferredCleanups := deferredCleanups h |}.

Definition with_deferred (n : nat) (h : Handshake) : Handshake :=
  {| kind := kind h; promise := promise h; checkClosed := checkClosed h;
     connection := connection h; allowedOrigins := allowedOrigins h;
     timeout := timeout h; connectTimer := connectTimer h;
     elapsed := elapsed h; deferredCleanups := n |}.

(** [cleanup]: [clearInterval(checkClosed); connection.destroy()]. *)
Definition cleanup (h : Handshake) : Handshake :=
  {| kind := kind h; promise := promise h; checkClosed := false;
     connection := false; allowedOrigins := allowedOrigins h;
     timeout := timeout h; connectTimer := connectTimer h;
     elapsed := elapsed h; deferredCleanups := deferredCleanups h |}.

Section Handshake.
Variable config : AuthConfig.
(** [new URL(s).origin], [None] when the constructor throws. *)
Variable url_origin : string -> option string.
(** Whether the library also tears the channel down when its timeout
    fires; the SDK does not depend on it. *)
Variable timeout_closes_channel : bool.

(** The state left by the promise executor; [popup] tells whether
    [window.open] returned a window. *)
Definition openLoginPopup (popup : bool) : Handshake :=
  if negb popup then
    mkHandshake LoginPopup (Fulfilled Cancelled) false false [] 0 false 0 0
  else
    match url_origin (config_appUrl config) with
    | None => mkHandshake LoginPopup Rejected false false [] 0 false 0 0
    | Some o => mkHandshake LoginPopup Pending true true [o] 300000 true 0 0
    end.

Definition openMediaManager (popup : bool) : Handshake :=
  if negb popup then
    mkHandshake MediaPopup (Fulfilled Cancelled) false false [] 0 false 0 0
  else
    match url_origin (config_appUrl config) with
    | None => mkHandshake MediaPopup Rejected false false [] 0 false 0 0
    | Some o => mkHandshake MediaPopup Pending true true [o] 600000 true 0 0
    end.

(** The messenger's filter on incoming calls. *)
Definition messenger_accepts (h : Handshake) (origin : string) : bool :=
  connection h && bool_decide (origin ∈ allowedOrigins h).

(** The body of an exposed method; a method the connection does not
    expose has no body to run. *)
Definition invoke (m : Method) (w : World) : World :=
  match kind (hs w), m with
  | LoginPopup, receiveAuthResult k =>
      let h := cleanup (hs w) in
      mkWorld (storeKey config (now w) k (storage w)) (now w)
              (with_promise (resolve (Credential k) (promise h)) h)
  | MediaPopup, receiveMediaSelection file =>
      let h := with_promise (resolve (Selection file) (promise (hs w))) (hs w) in
      mkWorld (storage w) (now w) (with_deferred (S (deferredCleanups h)) h)
  | MediaPopup, receiveMediaCancel =>
      let h := with_promise (resolve Cancelled (promise (hs w))) (hs w) in
      mkWorld (storage w) (now w) (with_deferred (S (deferredCleanups h)) h)
  | _, _ => w
  end.

(** The library's timer.  It was armed by [connect] and nothing in the
    SDK clears it, so it fires once [timeout] has elapsed, whether or not
    the channel has been destroyed in the meantime; it rejects
    [connection.promise], and nothing in the SDK listens. *)
Definition fireConnectTimeout (h : Handshake) : Handshake :=
  if connectTimer h && (timeout h <=? elapsed h)%Z then
    {| kind := kind h; promise := promise h; checkClosed := checkClosed h;
       connection := connection h && negb timeout_closes_channel;
       allowedOrigins := allowedOrigins h; timeout := timeout h;
       connectTimer := false; elapsed := elapsed h;
       deferredCleanups := deferredCleanups h |}
  else h.

(** The interval callback. *)
Definition pollClosed (popupClosed : bool) (h : Handshake) : Handshake :=
  if checkClosed h then
    if popupClosed then
      let h1 := cleanup h in
      with_promise (resolve Cancelled (promise h1)) h1
    else h
  else h.

Definition advance (h : Handshake) : Handshake :=
  {| kind := kind h; promise := promise h; checkClosed := checkClosed h;
     connection := connection h; allowedOrigins := allowedOrigins h;
     timeout := timeout h; connectTimer := connectTimer h;
     elapsed := (elapsed h + POPUP_CHECK_INTERVAL)%Z;
     deferredCleanups := deferredCleanups h |}.

Definition step (w : World) (e : Event) : World :=
  match e with
  | Tick popupClosed =>
      mkWorld (storage w) (now w + POPUP_CHECK_INTERVAL)%Z
              (pollClosed popupClosed (fireConnectTimeout (advance (hs w))))
  | Call origin m =>
      if messenger_accepts (hs w) origin then invoke m w else w
  | RunDeferred =>
      match deferredCleanups (hs w) with
      | O => w
      | S n => mkWorld (storage w) (now w) (cleanup (with_deferred n (hs w)))
      end
  end.

Definition run (w : World) (es : list Event) : World := foldl step w es.

End Handshake.

End Auth.

(** ** The lazy editor module: [EditorController] *)

Module Editor.

Record ViewerConfig := mkViewerConfig {
  apiUrl : string;
  appUrl : string;
  appId : string;
  logLevel : option string;
  mockAuth : option (bool * option string)   (* [enabled], [userId] *)
}.

(** What the controller reads and writes of an editable DOM node, taken
    by itself.  [innerHTML] is what the getter answers for the node.
    The record does not say where the node sits in the document: a
    registered node that lies inside another registered node is not
    part of the outer record's [innerHTML] here, as it is in the
    browser, and [el_innerHTML] below keeps the text it is given, where
    the browser's setter parses it and the getter serialises it again. *)
Record HTMLElement := mkElement {
  innerHTML : string;
  classList : list string;
  contenteditable : option string;   (* the attribute, [None] when absent *)
  scmsClickHandler : bool;           (* [dataset.scmsClickHandler] is set *)
  scmsInputHandler : bool            (* [dataset.scmsInputHandler] is set *)
}.

Record Toolbar := mkToolbar {
  toolbar_mode : Auth.EditorMode;
  activeElement : option string;
  hasChanges : bool;
  toolbar_saving : bool
}.

Record EditorController := mkController {
  apiKey : option string;
  currentMode : Auth.EditorMode;
  editableElements : JsMap.t HTMLElement;
  originalContent : gmap string string;
  editingElementId : option string;
  toolbar : option Toolbar;
  saving : bool;
  documentClick : bool   (* [handleDocumentClick] listens on the document *)
}.

(** *** Field updates *)

Definition classList_add (c : string) (l : list string) : list string :=
  if decide (c ∈ l) then l else l ++ [c].

Definition classList_remove (cs : list string) (l : list string) : list string :=
  filter (fun c => c ∉ cs) l.

Definition el_innerHTML (html : string) (e : HTMLElement) : HTMLElement :=
  mkElement html (classList e) (contenteditable e)
            (scmsClickHandler e) (scmsInputHandler e).

Definition el_classList (f : list string -> list string) (e : HTMLElement)
  : HTMLElement :=
  mkElement (innerHTML e) (f (classList e)) (contenteditable e)
            (scmsClickHandler e) (scmsInputHandler e).

Definition el_contenteditable (a : option string) (e : HTMLElement)
  : HTMLElement :=
  mkElement (innerHTML e) (classList e) a
            (scmsClickHandler e) (scmsInputHandler e).

Definition el_scmsClickHandler (e : HTMLElement) : HTMLElement :=
  mkElement (innerHTML e) (classList e) (contenteditable e)
            true (scmsInputHandler e).

Definition el_scmsInputHandler (e : HTMLElement) : HTMLElement :=
  mkElement (innerHTML e) (classList e) (contenteditable e)
            (scmsClickHandler e) true.

Definition tb_mode (m : Auth.EditorMode) (t : Toolbar) : Toolbar :=
  mkToolbar m (activeElement t) (hasChanges t) (toolbar_saving t).

Definition tb_activeElement (a : option string) (t : Toolbar) : Toolbar :=
  mkToolbar (toolbar_mode t) a (hasChanges t) (toolbar_saving t).

Definition tb_hasChanges (b : bool) (t : Toolbar) : Toolbar :=
  mkToolbar (toolbar_mode t) (activeElement t) b (toolbar_saving t).

Definition tb_saving (b : bool) (t : Toolbar) : Toolbar :=
  mkToolbar (toolbar_mode t) (activeElement t) (hasChanges t) b.

Definition set_apiKey (k : option string) (c : EditorController) :=
  mkController k (currentMode c) (editableElements c) (originalContent c)
               (editingElementId c) (toolbar c) (saving c) (documentClick c).

Definition set_currentMode (m : Auth.EditorMode) (c : EditorController) :=
  mkController (apiKey c) m (editableElements c) (originalContent c)
               (editingElementId c) (toolbar c) (saving c) (documentClick c).

Definition set_editableElements (els : JsMap.t HTMLElement)
  (c : EditorController) :=
  mkController (apiKey c) (currentMode c) els (originalContent c)
               (editingElementId c) (toolbar c) (saving c) (documentClick c).

Definition set_originalContent (oc : gmap string string)
  (c : EditorController) :=
  mkController (apiKey c) (currentMode c) (editableElements c) oc
               (editingElementId c) (toolbar c) (saving c) (documentClick c).

Definition set_editingElementId (id : option string) (c : EditorController) :=
  mkController (apiKey c) (currentMode c) (editableElements c)
               (originalContent c) id (toolbar c) (saving c) (documentClick c).

Definition set_toolbar (t : option Toolbar) (c : EditorController) :=
  mkController (apiKey c) (currentMode c) (editableElements c)
               (originalContent c) (editingElementId c) t (saving c)
               (documentClick c).

Definition set_saving (b : bool) (c : EditorController) :=
  mkController (apiKey c) (currentMode c) (editableElements c)
               (originalContent c) (editingElementId c) (toolbar c) b
               (documentClick c).

Definition set_documentClick (b : bool) (c : EditorController) :=
  mkController (apiKey c) (currentMode c) (editableElements c)
               (originalContent c) (editingElementId c) (toolbar c)
               (saving c) b.

(** [if (this.toolbar) this.toolbar.p = v]. *)
Definition on_toolbar (f : Toolbar -> Toolbar) (c : EditorController) :=
  set_toolbar (f <$> toolbar c) c.

(** *** Methods that touch the controller only *)

(** The constructor's field initialisers. *)
Definition new_controller : EditorController :=
  mkController None Auth.viewer JsMap.empty ∅ None None false false.

(** [scanEditableElements]; [doc] lists the nodes matching
    [[data-editable]] in document order, each with its attribute value. *)
Definition scanEditableElements (doc : list (string * HTMLElement))
  (c : EditorController) : EditorController :=
  set_editableElements
    (foldl (fun m '(elementId, element) =>
              if truthy (Some elementId) then JsMap.set elementId element m
              else m)
           (editableElements c) doc)
    c.

Definition stopEditing (c : EditorController) : EditorController :=
  if negb (truthy (editingElementId c)) then c
  else
    match editingElementId c with
    | None => c
    | Some id =>
        let els :=
          JsMap.mutate id
            (fun e => el_contenteditable (Some "false")
                        (el_classList (classList_remove ["streamlined-editing"]) e))
            (editableElements c) in
        on_toolbar (tb_activeElement None)
          (set_editingElementId None (set_editableElements els c))
    end.

Definition startEditing (elementId : string) (c : EditorController)
  : EditorController :=
  match JsMap.get elementId (editableElements c) with
  | None => c
  | Some element =>
      (* Stop editing previous element if any *)
      let els1 :=
        if truthy (editingElementId c) then
          match editingElementId c with
          | Some prev =>
              JsMap.mutate prev
                (fun e => el_contenteditable (Some "false")
                            (el_classList (classList_remove ["streamlined-editing"]) e))
                (editableElements c)
          | None => editableElements c
          end
        else editableElements c in
      (* Store original content for reset *)
      let oc :=
        if negb (bool_decide (is_Some (originalContent c !! elementId))) then
          <[elementId := innerHTML element]> (originalContent c)
        else originalContent c in
      let els2 :=
        JsMap.mutate elementId
          (fun e => el_contenteditable (Some "true")
                      (el_classList (classList_add "streamlined-editing")
                         (el_scmsInputHandler e)))
          els1 in
      on_toolbar (tb_activeElement (Some elementId))
        (set_editingElementId (Some elementId)
           (set_originalContent oc (set_editableElements els2 c)))
  end.

Definition getDirtyElements (c : EditorController) : JsMap.t string :=
  foldl (fun dirty '(elementId, element) =>
           let original := originalContent c !! elementId in
           let current := innerHTML element in
           match original with
           | Some o =>
               if bool_decide (current ≠ o)
               then JsMap.set elementId current dirty
               else dirty
           | None => dirty
           end)
        JsMap.empty (editableElements c).

Definition updateToolbarHasChanges (c : EditorController) : EditorController :=
  on_toolbar (tb_hasChanges (0 <? JsMap.size (getDirtyElements c))%nat) c.

Definition handleReset (c : EditorController) : EditorController :=
  if negb (truthy (editingElementId c)) then c
  else
    match editingElementId c with
    | None => c
    | Some elementId =>
        match JsMap.get elementId (editableElements c),
              originalContent c !! elementId with
        | Some _, Some original =>
            updateToolbarHasChanges
              (set_editableElements
                 (JsMap.mutate elementId (el_innerHTML original)
                    (editableElements c))
                 c)
        | _, _ => c
        end
    end.

Definition showToolbar (c : EditorController) : EditorController :=
  match toolbar c with
  | Some t =>
      set_toolbar
        (Some (tb_activeElement (editingElementId c)
                 (tb_mode (currentMode c) t)))
        c
  | None =>
      set_toolbar
        (Some (mkToolbar (currentMode c) (editingElementId c) false false)) c
  end.

Definition removeToolbar (c : EditorController) : EditorController :=
  set_toolbar None c.

Definition enableAuthorMode (c : EditorController) : EditorController :=
  let els :=
    JsMap.mutate_all
      (fun e => el_scmsClickHandler
                  (el_classList (classList_add "streamlined-editable") e))
      (editableElements c) in
  showToolbar (set_documentClick true (set_editableElements els c)).

Definition enableViewerMode (c : EditorController) : EditorController :=
  let els :=
    JsMap.mutate_all
      (fun e => el_contenteditable None
                  (el_classList
                     (classList_remove
                        ["streamlined-editable"; "streamlined-editing"]) e))
      (editableElements c) in
  showToolbar
    (stopEditing (set_documentClick false (set_editableElements els c))).

(** [handleDocumentClick] for a click whose target lies outside every
    editable element and outside the toolbar. *)
Definition handleDocumentClick (c : EditorController) : EditorController :=
  if negb (truthy (editingElementId c)) then c else stopEditing c.

(** *** The network, and a save in flight *)

(** A rejection reason as the aggregation reads it: [reason?.message]. *)
Record Reason := mkReason { message : option string }.

(** A [fetch] response; [json] is [None] when [response.json()] resolves
    and carries the reason when it rejects. *)
Record Response := mkResponse {
  ok : bool;
  status : nat;
  statusText : string;
  json : option Reason
}.

Inductive FetchOutcome :=
  | FetchFulfilled (response : Response)
  | FetchRejected (reason : Reason).

(** An entry of the array [Promise.allSettled] resolves with. *)
Inductive Settlement :=
  | fulfilled
  | rejected (reason : Reason).

(** A [fetch] call; [body] is the [content] field of the JSON body. *)
Record Request := mkRequest {
  url : string;
  method : string;
  headers : list (string * string);
  body : string
}.

(** The activation of [handleSave] suspended at [Promise.allSettled]:
    the entries of [dirtyElements], the state of the promise made for
    each ([None] while it is pending) and the local [saved]. *)
Record SaveTask := mkSaveTask {
  entries : list (string * string);
  results : list (option Settlement);
  saved : list string
}.

Inductive LogEntry :=
  | SomeElementsFailed (errors : list string)
  | AllContentSaved (count : nat).

Record World := mkWorld {
  ctl : EditorController;
  localStorage : gmap string Auth.Item;
  clock : Z;                      (* what [Date.now()] returns *)
  inflight : option SaveTask;
  fetched : list Request;         (* the [fetch] calls made so far *)
  alerts : list string;
  log : list LogEntry
}.

Definition with_ctl (c : EditorController) (w : World) : World :=
  mkWorld c (localStorage w) (clock w) (inflight w) (fetched w) (alerts w)
          (log w).

Definition with_localStorage (ls : gmap string Auth.Item) (w : World) : World :=
  mkWorld (ctl w) ls (clock w) (inflight w) (fetched w) (alerts w) (log w).

Definition LF : string := String "010"%char "".

(** [result.reason?.message || "Unknown error"]. *)
Definition errorMessage (reason : Reason) : string :=
  match message reason with
  | Some m => if truthy (Some m) then m else "Unknown error"
  | None => "Unknown error"
  end.

(** The [results.forEach] that fills [errors]. *)
Definition collectErrors (results : list (option Settlement)) : list string :=
  foldl (fun errors result =>
           match result with
           | Some (rejected reason) => (errors ++ [errorMessage reason])%list
           | _ => errors
           end)
        [] results.

(** The body of the async callback of [handleSave] from the point where
    [fetch] settles: how its promise settles, and what it does to
    [originalContent] and [saved]. *)
Definition saveElement (elementId content : string) (o : FetchOutcome)
  (c : EditorController) (saved : list string)
  : Settlement * EditorController * list string :=
  match o with
  | FetchRejected reason => (rejected reason, c, saved)
  | FetchFulfilled response =>
      if negb (ok response) then
        (rejected
           (mkReason
              (Some (elementId +:+ ": " +:+ pretty (status response)
                       +:+ " " +:+ statusText response))),
         c, saved)
      else
        match json response with
        | Some reason => (rejected reason, c, saved)
        | None =>
            (fulfilled,
             set_originalContent (<[elementId := content]> (originalContent c)) c,
             (saved ++ [elementId])%list)
        end
  end.

Section Controller.
Variable config : ViewerConfig.

Definition authConfig : Auth.AuthConfig :=
  Auth.mkAuthConfig (appId config) (appUrl config).

Definition saveRequest (hdrs : list (string * string))
  (entry : string * string) : Request :=
  mkRequest
    (apiUrl config +:+ "/apps/" +:+ appId config +:+ "/content/" +:+ entry.1)
    "PUT" hdrs entry.2.

(** [handleSave] up to its [await]: the guard, the flag, and one
    [fetch] per dirty element, all started before any can settle. *)
Definition handleSave (w : World) : World :=
  let dirtyElements := getDirtyElements (ctl w) in
  if (JsMap.size dirtyElements =? 0)%nat || saving (ctl w) then w
  else
    let c := on_toolbar (tb_saving true) (set_saving true (ctl w)) in
    let hdrs :=
      ("Content-Type", "application/json")
        :: (if truthy (apiKey c) then
              match apiKey c with
              | Some k => [("Authorization", "Bearer " +:+ k)]
              | None => []
              end
            else []) in
    mkWorld c (localStorage w) (clock w)
            (Some (mkSaveTask dirtyElements
                              (replicate (length dirtyElements) None) []))
            (fetched w ++ (saveRequest hdrs <$> dirtyElements))%list
            (alerts w) (log w).

(** [handleSave] from the point where [Promise.allSettled] resolves,
    through [finally]. *)
Definition completeSave (t : SaveTask) (w : World) : World :=
  let errors := collectErrors (results t) in
  let ls := Auth.refreshKeyExpiry authConfig (clock w) (clock w) (localStorage w) in
  let '(c1, alerts1, log1) :=
    if (0 <? length errors)%nat then
      (ctl w,
       (alerts w ++ ["Failed to save some elements:" +:+ LF +:+ String.concat LF errors])%list,
       (log w ++ [SomeElementsFailed errors])%list)
    else
      (stopEditing (ctl w), alerts w,
       (log w ++ [AllContentSaved (length (saved t))])%list) in
  let c2 := updateToolbarHasChanges c1 in
  let c3 := on_toolbar (tb_saving false) (set_saving false c2) in
  mkWorld c3 ls (clock w) None (fetched w) alerts1 log1.

(** The [i]-th request settles and its callback runs to the end.  When
    it was the last one pending, [Promise.allSettled] resolves and the
    rest of [handleSave] runs in the same turn of the event loop. *)
Definition settle (i : nat) (o : FetchOutcome) (w : World) : World :=
  match inflight w with
  | None => w
  | Some t =>
      match entries t !! i, results t !! i with
      | Some (elementId, content), Some None =>
          let '(s, c, saved') := saveElement elementId content o (ctl w) (saved t) in
          let t' := mkSaveTask (entries t) (<[i := Some s]> (results t)) saved' in
          let w' := mkWorld c (localStorage w) (clock w) (Some t') (fetched w)
                            (alerts w) (log w) in
          if forallb (fun r => bool_decide (is_Some r)) (results t')
          then completeSave t' w'
          else w'
      | _, _ => w
      end
  end.

Definition setMode (mode : Auth.EditorMode) (w : World) : World :=
  let c := set_currentMode mode (ctl w) in
  let ls := Auth.storeMode authConfig mode (localStorage w) in
  let c1 :=
    match mode with
    | Auth.author => enableAuthorMode c
    | Auth.viewer => enableViewerMode c
    end in
  with_localStorage ls (with_ctl (on_toolbar (tb_mode mode) c1) w).

Definition signOut (w : World) : World :=
  let ls := Auth.clearStoredKey (localStorage w) in
  let c := set_apiKey None (ctl w) in
  let els :=
    JsMap.mutate_all
      (fun e => el_contenteditable None
                  (el_classList
                     (classList_remove
                        ["streamlined-editable"; "streamlined-editing"]) e))
      (editableElements c) in
  let c1 := stopEditing (set_editableElements els c) in
  with_localStorage ls (with_ctl (removeToolbar c1) w).

Definition setupAuthUI (w : World) : World :=
  let '(storedKey, ls) :=
    Auth.getStoredKey authConfig (clock w) (localStorage w) in
  let w1 := with_localStorage ls w in
  if truthy storedKey then
    let storedMode := Auth.getStoredMode authConfig (localStorage w1) in
    setMode (if bool_decide (storedMode = Some Auth.author)
             then Auth.author else Auth.viewer)
            (with_ctl (set_apiKey storedKey (ctl w1)) w1)
  else with_ctl (removeToolbar (ctl w1)) w1.

Definition init (doc : list (string * HTMLElement)) (w : World) : World :=
  let w1 := with_ctl (scanEditableElements doc (ctl w)) w in
  match mockAuth config with
  | Some (true, _) =>
      setMode Auth.author (with_ctl (set_apiKey (Some "mock-api-key") (ctl w1)) w1)
  | _ => setupAuthUI w1
  end.

(** [handleSignIn] once [openLoginPopup] has settled with [result]; a
    credential was stored by the handshake before it resolved. *)
Definition handleSignIn (result : option string) (w : World) : World :=
  let w1 :=
    match result with
    | Some k => with_localStorage
                  (Auth.storeKey authConfig (clock w) k (localStorage w)) w
    | None => w
    end in
  if truthy result then
    setMode Auth.author (with_ctl (set_apiKey result (ctl w1)) w1)
  else w1.

(** The click listener installed on an editable element by
    [enableAuthorMode].  When it does not start an edit the click
    reaches [handleDocumentClick], which returns at once for a target
    inside an editable element. *)
Definition clickElement (elementId : string) (c : EditorController)
  : EditorController :=
  match JsMap.get elementId (editableElements c) with
  | Some element =>
      if scmsClickHandler element && bool_decide (currentMode c = Auth.author)
      then startEditing elementId c
      else c
  | None => c
  end.

(** The content of an element changes under the user's hands; the
    [input] listener installed by [startEditing] then runs. *)
Definition input (elementId html : string) (c : EditorController)
  : EditorController :=
  match JsMap.get elementId (editableElements c) with
  | Some element =>
      let c1 := set_editableElements
                  (JsMap.mutate elementId (el_innerHTML html) (editableElements c))
                  c in
      if scmsInputHandler element then updateToolbarHasChanges c1 else c1
  | None => c
  end.

(** What can happen to a page between two turns of the event loop. *)
Inductive Event :=
  | ToolbarSave
  | ToolbarReset
  | ToolbarModeChange (mode : Auth.EditorMode)
  | SignOut
  | SignedIn (result : option string)
  | ClickElement (elementId : string)
  | ClickOutside
  | Input (elementId html : string)
  | Settle (i : nat) (o : FetchOutcome)
  | ClockAdvance (t : Z).

Definition step (w : World) (e : Event) : World :=
  match e with
  | ToolbarSave => handleSave w
  | ToolbarReset => with_ctl (handleReset (ctl w)) w
  | ToolbarModeChange mode => setMode mode w
  | SignOut => signOut w
  | SignedIn result => handleSignIn result w
  | ClickElement elementId => with_ctl (clickElement elementId (ctl w)) w
  | ClickOutside =>
      if documentClick (ctl w) then with_ctl (handleDocumentClick (ctl w)) w
      else w
  | Input elementId html => with_ctl (input elementId html (ctl w)) w
  | Settle i o => settle i o w
  | ClockAdvance t =>
      mkWorld (ctl w) (localStorage w) t (inflight w) (fetched w) (alerts w)
              (log w)
  end.

Definition run (w : World) (es : list Event) : World := foldl step w es.

(** The world in which the module is loaded. *)
Definition initial (ls : gmap string Auth.Item) (t : Z)
  (doc : list (string * HTMLElement)) : World :=
  init doc (mkWorld new_controller ls t None [] [] []).

End Controller.

End Editor.

(** ** The HTML editor modal of the controller *)

Module HtmlEditor.

(** The modal as the controller sets it up: its two properties, and the
    element its [apply] listener closes over, named by its id. *)
Record Modal := mkModal {
  elementId : option string;
  content : string;
  target : string
}.

Record State := mkState {
  controller : Editor.EditorController;
  htmlEditorModal : option Modal
}.

Definition closeHtmlEditor (s : State) : State :=
  mkState (controller s) None.

Definition handleEditHtml (s : State) : State :=
  let c := controller s in
  if negb (truthy (Editor.editingElementId c)) then s
  else
    match htmlEditorModal s with
    | Some _ => s
    | None =>
        match Editor.editingElementId c with
        | None => s
        | Some id =>
            match JsMap.get id (Editor.editableElements c) with
            | None => s
            | Some element =>
                mkState c (Some (mkModal (Some id) (Editor.innerHTML element) id))
            end
        end
    end.

Section Apply.
(** What the [innerHTML] getter of an element answers once its setter
    has been given a text: the text parsed as HTML and serialised
    again. *)
Variable normalise : string -> string.

(** The [apply] listener of the open modal, fired with [content]. *)
Definition apply (content : string) (s : State) : State :=
  match htmlEditorModal s with
  | None => s
  | Some modal =>
      let c := controller s in
      let c1 :=
        Editor.set_editableElements
          (JsMap.mutate (target modal) (Editor.el_innerHTML (normalise content))
                        (Editor.editableElements c))
          c in
      let s1 := closeHtmlEditor (mkState c1 (htmlEditorModal s)) in
      mkState (Editor.updateToolbarHasChanges (controller s1))
              (htmlEditorModal s1)
  end.

End Apply.

(** The [cancel] listener. *)
Definition cancel (s : State) : State :=
  match htmlEditorModal s with
  | None => s
  | Some _ => closeHtmlEditor s
  end.

End HtmlEditor.

(** ** Configuration from the script tag, and the auto-initialisation *)

Module Config.

(** The [dataset] of a script tag, as far as it is read. *)
Record ScriptDataset := mkDataset {
  appId : option string;
  apiUrl : option string;
  appUrl : option string;
  logLevel : option string;
  mockAuth : option string;
  mockUserId : option string
}.

(** [a || b] for a [string | undefined] on the left. *)
Definition or_else (a : option string) (b : string) : string :=
  match a with
  | Some s => if truthy a then s else b
  | None => b
  end.

Section Build.
(** The build-time constants [__SDK_API_URL__] and [__SDK_APP_URL__]. *)
Variables SDK_API_URL SDK_APP_URL : string.

(** [scripts] lists the datasets of the script tags whose [src] contains
    ["streamlined-cms"], in document order. *)
Definition getConfigFromScriptTag (scripts : list ScriptDataset)
  : option Editor.ViewerConfig :=
  match last scripts with
  | None => None
  | Some scriptTag =>
      match appId scriptTag with
      | None => None
      | Some app =>
          if negb (truthy (Some app)) then None
          else
            Some (Editor.mkViewerConfig
                    (or_else (apiUrl scriptTag) SDK_API_URL)
                    (or_else (appUrl scriptTag) SDK_APP_URL)
                    app
                    (logLevel scriptTag)
                    (if bool_decide (mockAuth scriptTag = Some "true")
                     then Some (true, mockUserId scriptTag)
                     else None))
      end
  end.

(** The last lines of the lazy module: initialise when a configuration
    is found. *)
Definition autoInit (scripts : list ScriptDataset)
  (ls : gmap string Auth.Item) (t : Z)
  (doc : list (string * Editor.HTMLElement)) : option Editor.World :=
  match getConfigFromScriptTag scripts with
  | Some config => Some (Editor.initial config ls t doc)
  | None => None
  end.

End Build.

End Config.

(** ** The toolbar component and the padding the controller reserves *)

Module ToolbarUI.

Definition TOOLBAR_HEIGHT_DESKTOP : Z := 48.
Definition TOOLBAR_HEIGHT_MOBILE : Z := 56.

(** The [height] that [updateBodyPadding] of the controller computes
    from [window.innerWidth]; the padding is that many pixels. *)
Definition paddingHeight (innerWidth : Z) : Z :=
  let isMobile := (innerWidth <? 640)%Z in
  if isMobile then TOOLBAR_HEIGHT_MOBILE else TOOLBAR_HEIGHT_DESKTOP.

Definition updateBodyPadding (innerWidth : Z) : string :=
  pretty (paddingHeight innerWidth) +:+ "px".

(** The layout state of the [scms-toolbar] element. *)
Record Layout := mkLayout {
  expanded : bool;
  isMobile : bool
}.

Definition checkMobile (innerWidth : Z) (l : Layout) : Layout :=
  let mobile := (innerWidth <? 640)%Z in
  if negb mobile then mkLayout false mobile
  else mkLayout (expanded l) mobile.

Definition toggleExpanded (l : Layout) : Layout :=
  mkLayout (negb (expanded l)) (isMobile l).

Definition getHeight (l : Layout) : Z :=
  if isMobile l then
    (if expanded l then 14 * 4 + 120 else 14 * 4)%Z
  else (12 * 4)%Z.

(** What can happen to the layout: the window is resized (the resize
    observer runs [checkMobile]), or the menu button, which only the
    mobile rendering has, is clicked. *)
Inductive LayoutEvent :=
  | Resize (innerWidth : Z)
  | ClickMenu.

Definition layoutStep (l : Layout) (e : LayoutEvent) : Layout :=
  match e with
  | Resize innerWidth => checkMobile innerWidth l
  | ClickMenu => if isMobile l then toggleExpanded l else l
  end.

End ToolbarUI.

(** ** The sync loader script

    An optional string property of parsed content is [None] when it is
    [undefined].  [ContentResponse] is the declared shape of a response
    body and [populateContent] is the function on values of that shape;
    [Body] and [populateUnchecked] are what the loader meets and does
    when the body has another shape, the cast being unchecked. *)

Module Loader.

Inductive EditableType := text | html | image | link.

(** Which of the [instanceof] tests of [updateElement] a node passes. *)
Inductive Interface := HTMLImageElement | HTMLAnchorElement | OtherElement.

(** A property assignment made by [updateElement], with the value
    assigned.  [Src] is the assignment to the copy that replaces an
    image. *)
Inductive Write :=
  | TextContent (v : option string)
  | InnerHTML (v : option string)
  | Href (v : option string)
  | Target (v : option string)
  | Src (v : option string).

(** What the loader reads of a node of the page, and what it has
    written to it, oldest first. *)
Record Node := mkNode {
  scms_text : option string;       (* [getAttribute("data-scms-text")] *)
  scms_html : option string;
  scms_image : option string;
  scms_link : option string;
  scms_group : option string;      (* [getAttribute("data-scms-group")] *)
  parent_groups : list (option string);
    (* the same attribute of the ancestors, nearest first *)
  interface : Interface;
  writes : list Write
}.

Record EditableElementInfo := mkInfo {
  element : Node;
  groupId : option string;
  type : EditableType
}.

Definition scms (element : Node) (type : EditableType) : option string :=
  match type with
  | text => scms_text element
  | html => scms_html element
  | image => scms_image element
  | link => scms_link element
  end.

(** The [while (parent)] loop of [getGroupId]. *)
Fixpoint walkParents (parents : list (option string)) : option string :=
  match parents with
  | [] => None
  | parentGroup :: rest =>
      if truthy parentGroup then parentGroup else walkParents rest
  end.

Definition getGroupId (element : Node) : option string :=
  let selfGroup := scms_group element in
  if truthy selfGroup then selfGroup
  else walkParents (parent_groups element).

(** The [for (const type of types)] loop of [getEditableInfo]. *)
Fixpoint firstType (element : Node) (types : list EditableType)
  : option (string * EditableType) :=
  match types with
  | [] => None
  | type :: rest =>
      match scms element type with
      | Some id => if truthy (Some id) then Some (id, type)
                   else firstType element rest
      | None => firstType element rest
      end
  end.

Definition getEditableInfo (element : Node) : option (string * EditableType) :=
  firstType element [text; html; image; link].

(** [doc] lists the nodes matching the selector, in document order. *)
Definition scanEditableElements (doc : list Node)
  : JsMap.t EditableElementInfo :=
  foldl (fun elements element =>
           match getEditableInfo element with
           | Some (id, type) =>
               let groupId := getGroupId element in
               let key :=
                 match groupId with
                 | Some g => if truthy groupId then g +:+ ":" +:+ id else id
                 | None => id
                 end in
               JsMap.set key (mkInfo element groupId type) elements
           | None => elements
           end)
        JsMap.empty doc.

(** [element.p = v] for each [p = v] of [ws], in order. *)
Definition assign (ws : list Write) (info : EditableElementInfo)
  : EditableElementInfo :=
  let e := element info in
  mkInfo (mkNode (scms_text e) (scms_html e) (scms_image e) (scms_link e)
                 (scms_group e) (parent_groups e) (interface e)
                 (writes e ++ ws))
         (groupId info) (type info).

(** [a || ""]. *)
Definition or_empty (a : option string) : option string :=
  if truthy a then a else Some "".

Section Update.
(** [JSON.parse(content)] read property by property; [None] when the
    parse throws, or yields [null], whose properties cannot be read. *)
Variable parse : string -> option (string -> option string).

Definition updateElement (elements : JsMap.t EditableElementInfo)
  (key content : string) : JsMap.t EditableElementInfo :=
  match JsMap.get key elements with
  | None => elements
  | Some info =>
      match parse content with
      | None => elements
      | Some data =>
          let isImage :=
            match interface (element info) with
            | HTMLImageElement => true | _ => false end in
          let isAnchor :=
            match interface (element info) with
            | HTMLAnchorElement => true | _ => false end in
          if bool_decide (data "type" = Some "text") then
            JsMap.mutate key (assign [TextContent (data "value")]) elements
          else if bool_decide (data "type" = Some "html") then
            JsMap.mutate key (assign [InnerHTML (data "value")]) elements
          else if bool_decide (data "type" = Some "image") && isImage then
            JsMap.set key (assign [Src (data "src")] info) elements
          else if bool_decide (data "type" = Some "link") && isAnchor then
            JsMap.mutate key
              (assign [Href (data "href"); Target (data "target");
                       TextContent (data "text")])
              elements
          else if truthy (data "type") then elements
          else
            match type info with
            | link =>
                if isAnchor then
                  if bool_decide (data "href" <> None) then
                    JsMap.mutate key
                      (assign [Href (data "href");
                               Target (or_empty (data "target"));
                               TextContent (or_empty (data "text"))])
                      elements
                  else elements
                else elements
            | image =>
                if isImage then
                  if bool_decide (data "src" <> None) then
                    JsMap.set key (assign [Src (data "src")] info) elements
                  else elements
                else elements
            | text =>
                if bool_decide (data "value" <> None) then
                  JsMap.mutate key (assign [TextContent (data "value")]) elements
                else elements
            | html =>
                if bool_decide (data "value" <> None) then
                  JsMap.mutate key (assign [InnerHTML (data "value")]) elements
                else elements
            end
      end
  end.

(** The body of a content response, each object in the order of
    [Object.entries]; an entry is an id and its [content]. *)
Record ContentResponse := mkContent {
  elements : list (string * string);
  groups : list (string * list (string * string))
}.

Definition populateContent (registry : JsMap.t EditableElementInfo)
  (data : ContentResponse) : JsMap.t EditableElementInfo :=
  let registry1 :=
    foldl (fun r '(elementId, content) => updateElement r elementId content)
          registry (elements data) in
  foldl (fun r '(groupId, group) =>
           foldl (fun r' '(elementId, content) =>
                    updateElement r' (groupId +:+ ":" +:+ elementId) content)
                 r group)
        registry1 (groups data).

(** What [response.json()] resolves with, as [initialize] and
    [populateContent] look into it.  The cast to [ContentResponse] is
    not checked, so the value need not have that shape. *)

(** A property value of an [elements] object: [entry content] has the
    [content] given, [None] when it has none; the properties of [null]
    cannot be read. *)
Inductive EntryValue :=
  | entry (content : option string)
  | entry_null.

(** A property value of the [groups] object, with its [elements]:
    [None] when that is [undefined] or [null]. *)
Inductive GroupValue :=
  | group (elements : option (list (string * EntryValue)))
  | group_null.

Record Body := mkBody {
  body_elements : option (list (string * EntryValue));
  body_groups : option (list (string * GroupValue))
}.

Inductive Json :=
  | falsy_value                (* [null], [false], [0] or [""] *)
  | truthy_value (b : Body).

(** The [forEach] over the entries of one [elements] object: the
    registry it leaves and whether it threw.  [key] makes the registry
    key of an id. *)
Fixpoint populateEntries (key : string -> string)
  (registry : JsMap.t EditableElementInfo)
  (entries : list (string * EntryValue))
  : JsMap.t EditableElementInfo * bool :=
  match entries with
  | [] => (registry, false)
  | (elementId, entry content) :: rest =>
      populateEntries key
        (match content with
         | Some c => updateElement registry (key elementId) c
         | None => registry    (* [JSON.parse(undefined)] throws inside the [try] *)
         end)
        rest
  | (elementId, entry_null) :: _ => (registry, true)
  end.

Fixpoint populateGroups (registry : JsMap.t EditableElementInfo)
  (gs : list (string * GroupValue)) : JsMap.t EditableElementInfo * bool :=
  match gs with
  | [] => (registry, false)
  | (groupId, group (Some entries)) :: rest =>
      let '(registry1, threw) :=
        populateEntries (fun elementId => groupId +:+ ":" +:+ elementId)
                        registry entries in
      if threw then (registry1, true) else populateGroups registry1 rest
  | (groupId, _) :: _ => (registry, true)
  end.

(** [populateContent] on a value of any shape. *)
Definition populateUnchecked (registry : JsMap.t EditableElementInfo)
  (data : Body) : JsMap.t EditableElementInfo * bool :=
  match body_elements data with
  | None => (registry, true)
  | Some entries =>
      let '(registry1, threw) :=
        populateEntries (fun elementId => elementId) registry entries in
      if threw then (registry1, true)
      else
        match body_groups data with
        | None => (registry1, true)
        | Some gs => populateGroups registry1 gs
        end
  end.

(** How the [fetch] of [fetchContent] comes back; [json] is [None] when
    [response.json()] rejects. *)
Inductive Fetched :=
  | NetworkError
  | Responded (ok : bool) (status : nat) (json : option Json).

Inductive Warning :=
  | DomainNotWhitelisted
  | CouldNotLoadContent.

(** [fetchContent] from the point where [fetch] settles: the result and
    the warnings written to the console. *)
Definition fetchContent (o : Fetched) : option Json * list Warning :=
  match o with
  | NetworkError => (None, [CouldNotLoadContent])
  | Responded ok status json =>
      if negb ok then
        if (status =? 404)%nat then (None, [])
        else if (status =? 403)%nat then (None, [DomainNotWhitelisted])
        else (None, [CouldNotLoadContent])
      else
        match json with
        | Some data => (Some data, [])
        | None => (None, [CouldNotLoadContent])
        end
  end.

(** Where the activation of [initialize] stands. *)
Inductive Stage :=
  | AwaitDom        (* at the [await] of [DOMContentLoaded] *)
  | AwaitContent    (* at [await contentPromise] *)
  | Finished
  | Thrown.         (* an exception left [populateContent]; nothing catches it *)

Record Page := mkPage {
  stage : Stage;
  contentPromise : option (option Json);   (* [None] while pending *)
  registry : JsMap.t EditableElementInfo;
  hiding : bool;             (* the hiding style sheet is in the document *)
  moduleInjected : bool;
  warnings : list Warning
}.

(** [initialize] from [await contentPromise] on, with its value. *)
Definition finish (content : option Json) (p : Page) : Page :=
  match content with
  | Some (truthy_value data) =>
      if (0 <? JsMap.size (registry p))%nat then
        let '(registry1, threw) := populateUnchecked (registry p) data in
        if threw then
          mkPage Thrown (contentPromise p) registry1 (hiding p)
                 (moduleInjected p) (warnings p)
        else
          mkPage Finished (contentPromise p) registry1 false true (warnings p)
      else
        mkPage Finished (contentPromise p) (registry p) false true (warnings p)
  | _ =>
      mkPage Finished (contentPromise p) (registry p) false true (warnings p)
  end.

(** The page when the loader script has run to its end: the hiding
    styles are in, the fetch is under way, and [initialize] has run up
    to its first [await].  [loading] is [document.readyState ===
    "loading"]; [doc] lists the nodes the scan will find. *)
Definition start (loading : bool) (doc : list Node) : Page :=
  if loading then mkPage AwaitDom None JsMap.empty true false []
  else mkPage AwaitContent None (scanEditableElements doc) true false [].

Inductive Event :=
  | DOMContentLoaded
  | Settled (o : Fetched).

Definition step (doc : list Node) (p : Page) (e : Event) : Page :=
  match e with
  | DOMContentLoaded =>
      match stage p with
      | AwaitDom =>
          let p1 := mkPage AwaitContent (contentPromise p)
                           (scanEditableElements doc) (hiding p)
                           (moduleInjected p) (warnings p) in
          match contentPromise p with
          | Some content => finish content p1
          | None => p1
          end
      | _ => p
      end
  | Settled o =>
      match contentPromise p with
      | Some _ => p
      | None =>
          let '(content, ws) := fetchContent o in
          let p1 := mkPage (stage p) (Some content) (registry p) (hiding p)
                           (moduleInjected p) (warnings p ++ ws) in
          match stage p with
          | AwaitContent => finish content p1
          | _ => p1
          end
      end
  end.

Definition run (doc : list Node) (p : Page) (es : list Event) : Page :=
  foldl (step doc) p es.

End Update.

End Loader.

(** * Vocabulary of the statements *)

(** Sample data used by the worked examples below. *)
Definition sample_auth_config : Auth.AuthConfig :=
  Auth.mkAuthConfig "site-a" "https://app.example".

Definition sample_storage (owner : string) (expires : Z)
  : gmap string Auth.Item :=
  {[ Auth.STORAGE_KEY := Auth.AuthDoc (Auth.mkStoredAuth "k-123" owner expires) ]}.

(** Whether an incoming event may come from the popup the handshake
    opened: a call does only when its sender has the declared origin. *)
Definition from_declared_origin (declared : option string) (e : Auth.Event)
  : bool :=
  match e with
  | Auth.Call origin _ => bool_decide (declared = Some origin)
  | _ => true
  end.

Definition sample_url_origin (s : string) : option string :=
  if bool_decide (s = "https://app.example") then Some "https://app.example"
  else None.

(** What [getDirtyElements] keeps of one registry entry. *)
Definition dirty_entry (oc : gmap string string)
  (kv : string * Editor.HTMLElement) : option (string * string) :=
  match oc !! kv.1 with
  | Some o =>
      if bool_decide (Editor.innerHTML kv.2 ≠ o)
      then Some (kv.1, Editor.innerHTML kv.2)
      else None
  | None => None
  end.

(** A write succeeds when the response is [ok] and its body parses. *)
Definition succeeded (o : Editor.FetchOutcome) : bool :=
  match o with
  | Editor.FetchFulfilled r =>
      Editor.ok r && match Editor.json r with None => true | Some _ => false end
  | Editor.FetchRejected _ => false
  end.

(** How the promise made for [elementId] settles on outcome [o], read
    off [saveElement]; neither the content nor the controller has a say
    in it. *)
Definition settlement_of (elementId : string) (o : Editor.FetchOutcome)
  : Editor.Settlement :=
  (Editor.saveElement elementId "" o Editor.new_controller []).1.1.

(** The id whose write is the [i]-th request of a save over [E]. *)
Definition entry_id (E : list (string * string)) (i : nat) : string :=
  match E !! i with
  | Some e => e.1
  | None => ""
  end.

(** The requests of a save over the entries [E] settle in the order
    [order]; [net id] is the outcome of the write for element [id]. *)
Definition settle_events (net : string -> Editor.FetchOutcome)
  (E : list (string * string)) (order : list nat) : list Editor.Event :=
  (fun i => Editor.Settle i (net (entry_id E i))) <$> order.

(** What [Promise.allSettled] resolves with for the entries [E]. *)
Definition settled_results (net : string -> Editor.FetchOutcome)
  (E : list (string * string)) : list (option Editor.Settlement) :=
  (fun e => Some (settlement_of e.1 (net e.1))) <$> E.

(** The world [w], with save task [t], is what the world [w1] in which a
    save over [E] has just begun turns into once the requests [ds] have
    settled and nothing else has happened. *)
Record settling (w1 : Editor.World) (E : list (string * string))
  (net : string -> Editor.FetchOutcome) (ds : list nat)
  (w : Editor.World) (t : Editor.SaveTask) : Prop := mkSettling {
  st_inflight : Editor.inflight w = Some t;
  st_entries : Editor.entries t = E;
  st_length : length (Editor.results t) = length E;
  st_settled : forall i e,
    i ∈ ds -> E !! i = Some e ->
    Editor.results t !! i = Some (Some (settlement_of e.1 (net e.1)));
  st_pending : forall i,
    i ∉ ds -> i < length E -> Editor.results t !! i = Some None;
  st_saved :
    length (Editor.saved t) =
    length (filter (fun i => succeeded (net (entry_id E i)) = true) ds);
  st_ctl :
    Editor.ctl w =
    Editor.set_originalContent (Editor.originalContent (Editor.ctl w))
                               (Editor.ctl w1);
  st_committed : forall i e,
    i ∈ ds -> E !! i = Some e -> succeeded (net e.1) = true ->
    Editor.originalContent (Editor.ctl w) !! e.1 = Some e.2;
  st_untouched : forall id,
    (forall i e, i ∈ ds -> E !! i = Some e -> e.1 = id ->
                 succeeded (net id) = false) ->
    Editor.originalContent (Editor.ctl w) !! id
    = Editor.originalContent (Editor.ctl w1) !! id;
  st_localStorage : Editor.localStorage w = Editor.localStorage w1;
  st_clock : Editor.clock w = Editor.clock w1;
  st_fetched : Editor.fetched w = Editor.fetched w1;
  st_alerts : Editor.alerts w = Editor.alerts w1;
  st_log : Editor.log w = Editor.log w1
}.

(** The entry of the error report for the write of [e], if it failed. *)
Definition error_of (net : string -> Editor.FetchOutcome)
  (e : string * string) : option string :=
  match settlement_of e.1 (net e.1) with
  | Editor.rejected reason => Some (Editor.errorMessage reason)
  | Editor.fulfilled => None
  end.

(** The saving flag is raised exactly while a save has a request
    pending. *)
Definition consistent (w : Editor.World) : Prop :=
  match Editor.inflight w with
  | Some t =>
      Editor.saving (Editor.ctl w) = true /\
      length (Editor.results t) = length (Editor.entries t) /\
      exists i, Editor.results t !! i = Some None
  | None => Editor.saving (Editor.ctl w) = false
  end.

Definition sample_config : Editor.ViewerConfig :=
  Editor.mkViewerConfig "https://api.example" "https://app.example" "site-a"
                        None None.

Definition sample_element (html : string) : Editor.HTMLElement :=
  Editor.mkElement html [] None false false.

Definition sample_doc : list (string * Editor.HTMLElement) :=
  [("hero", sample_element "Welcome"); ("footer", sample_element "Bye")].

(** A signed-in author has clicked ["hero"] and retyped it. *)
Definition sample_editing : Editor.World :=
  Editor.run sample_config
    (Editor.initial sample_config (sample_storage "site-a" 5000000) 1000
                    sample_doc)
    [Editor.ToolbarModeChange Auth.author;
     Editor.ClickElement "hero";
     Editor.Input "hero" "Hello"].

(** As [sample_editing], with ["footer"] retyped as well. *)
Definition sample_two_dirty : Editor.World :=
  Editor.run sample_config sample_editing
    [Editor.ClickElement "footer"; Editor.Input "footer" "Ciao"].

(** Every write is answered [200 OK] with a body that parses. *)
Definition sample_net_ok (id : string) : Editor.FetchOutcome :=
  Editor.FetchFulfilled (Editor.mkResponse true 200 "OK" None).

(** The registry is a proper [Map] without an empty id, and the id
    being edited, if any, is registered. *)
Definition wf_controller (c : Editor.EditorController) : Prop :=
  NoDup (JsMap.keys (Editor.editableElements c)) /\
  ("" ∉ JsMap.keys (Editor.editableElements c)) /\
  (forall id, Editor.editingElementId c = Some id ->
              id ∈ JsMap.keys (Editor.editableElements c)).

(** [c'] has the ids of [c], and edits what [c] edits or a registered
    id or nothing. *)
Definition evolves (c c' : Editor.EditorController) : Prop :=
  JsMap.keys (Editor.editableElements c')
    = JsMap.keys (Editor.editableElements c) /\
  (forall id, Editor.editingElementId c' = Some id ->
              Editor.editingElementId c = Some id \/
              id ∈ JsMap.keys (Editor.editableElements c)).

(** The poll is disarmed and the channel destroyed. *)
Definition torn_down (h : Auth.Handshake) : Prop :=
  Auth.checkClosed h = false /\ Auth.connection h = false.

(** What holds of a login handshake opened over the storage [st0]: the
    deferred-cleanup queue is never used, a settled handshake is torn
    down, and the storage is [st0] unless the handshake resolved with a
    credential, in which case that credential was stored at some time up
    to now. *)
Definition login_inv (config : Auth.AuthConfig) (st0 : gmap string Auth.Item)
  (w : Auth.World) : Prop :=
  Auth.kind (Auth.hs w) = Auth.LoginPopup /\
  Auth.deferredCleanups (Auth.hs w) = 0 /\
  (Auth.promise (Auth.hs w) <> Auth.Pending -> torn_down (Auth.hs w)) /\
  match Auth.promise (Auth.hs w) with
  | Auth.Fulfilled (Auth.Credential k) =>
      exists t, (t <= Auth.now w)%Z /\
                Auth.storage w = Auth.storeKey config t k st0
  | Auth.Fulfilled (Auth.Selection _) => False
  | _ => Auth.storage w = st0
  end.

(** What holds of a media handshake opened over the storage [st0]. *)
Definition media_inv (st0 : gmap string Auth.Item) (w : Auth.World) : Prop :=
  Auth.kind (Auth.hs w) = Auth.MediaPopup /\
  Auth.storage w = st0 /\
  (Auth.promise (Auth.hs w) <> Auth.Pending ->
   torn_down (Auth.hs w) \/ 0 < Auth.deferredCleanups (Auth.hs w)) /\
  (forall k, Auth.promise (Auth.hs w) <> Auth.Fulfilled (Auth.Credential k)).

(** The marks [startEditing] puts on the element it selects sit on the
    element being edited and on no other. *)
Definition edit_marks (c : Editor.EditorController) : Prop :=
  forall id el,
    JsMap.get id (Editor.editableElements c) = Some el ->
    (Editor.editingElementId c = Some id ->
     Editor.contenteditable el = Some "true" /\
     ("streamlined-editing" ∈ Editor.classList el)) /\
    (Editor.editingElementId c <> Some id ->
     Editor.contenteditable el <> Some "true" /\
     ("streamlined-editing" ∉ Editor.classList el)).

(** A node of the page as its author wrote it: not made editable by the
    markup itself. *)
Definition plain_node (el : Editor.HTMLElement) : Prop :=
  Editor.contenteditable el <> Some "true" /\
  ("streamlined-editing" ∉ Editor.classList el).

(** The toolbar, when there is one, shows the controller's mode and the
    element being edited. *)
Definition toolbar_synced (c : Editor.EditorController) : Prop :=
  forall t,
    Editor.toolbar c = Some t ->
    Editor.toolbar_mode t = Editor.currentMode c /\
    Editor.activeElement t = Editor.editingElementId c.

(** The element is not [contenteditable] and carries neither of the
    classes of author mode. *)
Definition inert (el : Editor.HTMLElement) : Prop :=
  Editor.contenteditable el <> Some "true" /\
  ("streamlined-editing" ∉ Editor.classList el) /\
  ("streamlined-editable" ∉ Editor.classList el).

(** A sample of what parsing and serialising again does to a text. *)
Definition sample_normalise (text : string) : string :=
  if bool_decide (text = "<br/>") then "<br>" else text.

(** A click on an editable element or elsewhere in the document. *)
Definition is_click (e : Editor.Event) : bool :=
  match e with
  | Editor.ClickElement _ | Editor.ClickOutside => true
  | _ => false
  end.

(** The key under which the loader's scan files a node, and the entry
    it files: both read off the body of the scan's loop. *)
Definition node_key (n : Loader.Node) : option string :=
  match Loader.getEditableInfo n with
  | Some (id, _) =>
      Some (match Loader.getGroupId n with
            | Some g => g +:+ ":" +:+ id
            | None => id
            end)
  | None => None
  end.

Definition node_info (n : Loader.Node) : option Loader.EditableElementInfo :=
  match Loader.getEditableInfo n with
  | Some (_, type) => Some (Loader.mkInfo n (Loader.getGroupId n) type)
  | None => None
  end.

(** The registry keys a content response addresses. *)
Definition content_keys (data : Loader.ContentResponse) : list string :=
  ((Loader.elements data).*1 ++
   (Loader.groups data ≫=
      fun group => (fun entry => group.1 +:+ ":" +:+ entry.1) <$> group.2))%list.

(** The outcome of the fetch, once it has come back. *)
Definition first_settled (es : list Loader.Event) : option Loader.Fetched :=
  head (omap (fun e => match e with
                       | Loader.Settled o => Some o
                       | Loader.DOMContentLoaded => None
                       end) es).

(** The document is parsed: it was when the loader ran, or
    [DOMContentLoaded] has fired since. *)
Definition dom_ready (loading : bool) (es : list Loader.Event) : bool :=
  negb loading ||
  existsb (fun e => match e with
                    | Loader.DOMContentLoaded => true
                    | Loader.Settled _ => false
                    end) es.

(** A body of the declared shape. *)
Definition of_content (data : Loader.ContentResponse) : Loader.Body :=
  Loader.mkBody
    (Some ((fun e => (e.1, Loader.entry (Some e.2))) <$> Loader.elements data))
    (Some ((fun g =>
              (g.1,
               Loader.group
                 (Some ((fun e => (e.1, Loader.entry (Some e.2))) <$> g.2))))
             <$> Loader.groups data)).

(** The shapes on which [populateContent] throws: an entry that is
    [null]; a group that is [null] or has no [elements]; a body without
    an [elements] or a [groups] object. *)
Definition null_entry (entries : list (string * Loader.EntryValue)) : bool :=
  existsb (fun e => match e.2 with
                    | Loader.entry_null => true
                    | Loader.entry _ => false
                    end) entries.

Definition misshapen (data : Loader.Body) : bool :=
  match Loader.body_elements data with
  | None => true
  | Some entries =>
      null_entry entries ||
      match Loader.body_groups data with
      | None => true
      | Some gs =>
          existsb (fun g => match g.2 with
                            | Loader.group (Some entries') => null_entry entries'
                            | _ => true
                            end) gs
      end
  end.

(** Whether [initialize] throws on what [fetchContent] returned, with
    the registry [r] scanned. *)
Definition throws_on (r : JsMap.t Loader.EditableElementInfo)
  (content : option Loader.Json) : bool :=
  match content with
  | Some (Loader.truthy_value data) =>
      (0 <? JsMap.size r)%nat && misshapen data
  | _ => false
  end.

(** The registry [initialize] leaves, given what [fetchContent]
    returned. *)
Definition populated (parse : string -> option (string -> option string))
  (doc : list Loader.Node) (content : option Loader.Json)
  : JsMap.t Loader.EditableElementInfo :=
  match content with
  | Some (Loader.truthy_value data) =>
      if (0 <? JsMap.size (Loader.scanEditableElements doc))%nat
      then (Loader.populateUnchecked parse
              (Loader.scanEditableElements doc) data).1
      else Loader.scanEditableElements doc
  | _ => Loader.scanEditableElements doc
  end.

(** Where the loader stands after the events [es], in closed form. *)
Definition loaded_page (parse : string -> option (string -> option string))
  (loading : bool) (doc : list Loader.Node) (es : list Loader.Event)
  : Loader.Page :=
  match first_settled es, dom_ready loading es with
  | Some o, true =>
      let content := (Loader.fetchContent o).1 in
      let threw := throws_on (Loader.scanEditableElements doc) content in
      Loader.mkPage (if threw then Loader.Thrown else Loader.Finished)
                    (Some content) (populated parse doc content)
                    threw (negb threw) (Loader.fetchContent o).2
  | Some o, false =>
      Loader.mkPage Loader.AwaitDom (Some (Loader.fetchContent o).1)
                    JsMap.empty true false (Loader.fetchContent o).2
  | None, true =>
      Loader.mkPage Loader.AwaitContent None (Loader.scanEditableElements doc)
                    true false []
  | None, false =>
      Loader.mkPage Loader.AwaitDom None JsMap.empty true false []
  end.

(** Sample data for the loader: content that is JSON without a
    [type], carrying itself as [value]; two nodes, the first in the
    group ["hero"]; and a response addressing both. *)
Definition sample_parse (content : string) : option (string -> option string) :=
  if bool_decide (content = "oops") then None
  else Some (fun property =>
               if bool_decide (property = "value") then Some content else None).

Definition sample_nodes : list Loader.Node :=
  [Loader.mkNode (Some "title") None None None None [Some "hero"]
                 Loader.OtherElement [];
   Loader.mkNode None (Some "body") None None None []
                 Loader.OtherElement []].

Definition sample_content : Loader.ContentResponse :=
  Loader.mkContent [("body", "Hi")] [("hero", [("title", "Welcome")])].

(** * Properties *)

(** ** The credential store *)

Section CredentialStore.
Import Auth.
Variable config : AuthConfig.

Lemma KEY_EXPIRY_MS_value : KEY_EXPIRY_MS = 3600000%Z.
Proof. reflexivity. Qed.

Lemma storeKey_lookup now k (ls : gmap string Item) :
  storeKey config now k ls !! STORAGE_KEY =
  Some (AuthDoc (mkStoredAuth k (config_appId config) (now + 3600000))).
Proof. unfold storeKey. by rewrite lookup_insert_eq. Qed.

Lemma getStoredKey_returned now (ls : gmap string Item) k :
  (getStoredKey config now ls).1 = Some k ->
  exists auth,
    ls !! STORAGE_KEY = Some (AuthDoc auth) /\ k = key auth /\
    appId auth = config_appId config /\ (now <= expiresAt auth)%Z /\
    (getStoredKey config now ls).2 = ls.
Proof.
  unfold getStoredKey.
  destruct (ls !! STORAGE_KEY) as [[auth| |]|] eqn:Hslot; simpl; try done.
  case_bool_decide as Happ; simpl; [done|].
  destruct (now >? expiresAt auth)%Z eqn:Hexp; simpl; [done|].
  intros [= <-]. exists auth. repeat split; try done. lia.
Qed.

Lemma refreshKeyExpiry_spec t_read t_write (ls : gmap string Item) :
  match (getStoredKey config t_read ls).1 with
  | Some k =>
      if bool_decide (k = "")
      then refreshKeyExpiry config t_read t_write ls = ls
      else refreshKeyExpiry config t_read t_write ls = storeKey config t_write k ls
  | None =>
      refreshKeyExpiry config t_read t_write ls = (getStoredKey config t_read ls).2
  end.
Proof.
  unfold refreshKeyExpiry.
  destruct (getStoredKey config t_read ls) as [r ls1] eqn:Hread; simpl.
  destruct r as [k|]; [|done].
  assert (Hk : (getStoredKey config t_read ls).1 = Some k) by by rewrite Hread.
  apply getStoredKey_returned in Hk as (auth & _ & _ & _ & _ & Hsame).
  rewrite Hread in Hsame. simpl in Hsame. subst ls1.
  unfold truthy. by case_bool_decide.
Qed.

(** C4, as amended.  A read hands out the stored credential exactly when
    its [appId] is the active one and the clock has not passed its expiry
    ([now <= expiresAt]), and then leaves the storage alone.  A credential
    of the active application whose expiry has passed is answered with
    [null] and removed from storage by that read.  A credential of another
    application is answered with [null] and stays in storage. *)
Theorem getStoredKey_valid_or_absent now (ls : gmap string Item) auth :
  ls !! STORAGE_KEY = Some (AuthDoc auth) ->
  (forall k,
      (getStoredKey config now ls).1 = Some k <->
      k = key auth /\ appId auth = config_appId config /\
      (now <= expiresAt auth)%Z) /\
  (appId auth = config_appId config -> (now <= expiresAt auth)%Z ->
   getStoredKey config now ls = (Some (key auth), ls)) /\
  (appId auth = config_appId config -> (expiresAt auth < now)%Z ->
   getStoredKey config now ls = (None, delete STORAGE_KEY ls) /\
   (getStoredKey config now ls).2 !! STORAGE_KEY = None) /\
  (appId auth <> config_appId config ->
   getStoredKey config now ls = (None, ls) /\
   (getStoredKey config now ls).2 !! STORAGE_KEY = Some (AuthDoc auth)).
Proof.
  intros Hslot. unfold getStoredKey, clearStoredKey. rewrite Hslot.
  assert (Hgone : delete STORAGE_KEY ls !! STORAGE_KEY = None)
    by apply lookup_delete_eq.
  case_bool_decide as Happ;
    [|destruct (now >? expiresAt auth)%Z eqn:Hexp]; simpl;
    split_and!; try split; intros; destruct_and?; simplify_eq;
    split_and?; try done; lia.
Qed.

End CredentialStore.

(** A live credential of the active application, read at [now = 1000]. *)
Lemma getStoredKey_valid_or_absent_witness :
  Auth.getStoredKey sample_auth_config 1000 (sample_storage "site-a" 5000)
  = (Some "k-123", sample_storage "site-a" 5000).
Proof.
  apply (getStoredKey_valid_or_absent sample_auth_config 1000
           (sample_storage "site-a" 5000)
           (Auth.mkStoredAuth "k-123" "site-a" 5000)).
  - reflexivity.
  - reflexivity.
  - simpl. lia.
Defined.

(** C4, counterexample.  The stored credential belongs to application
    ["site-b"] while the active application is ["site-a"]: the read
    answers [null], yet the credential is still in storage afterwards.
    And a credential of the active application read at the very instant
    of its expiry, [now = expiresAt = 5000], is still handed out although
    its expiry is not in the future. *)
Lemma getStoredKey_mismatch_not_purged :
  (sample_storage "site-b" 5000 !! Auth.STORAGE_KEY
     = Some (Auth.AuthDoc (Auth.mkStoredAuth "k-123" "site-b" 5000)) /\
   "site-b" <> Auth.config_appId sample_auth_config /\
   (Auth.getStoredKey sample_auth_config 1000 (sample_storage "site-b" 5000)).1
     = None /\
   (Auth.getStoredKey sample_auth_config 1000 (sample_storage "site-b" 5000)).2
     !! Auth.STORAGE_KEY <> None) /\
  (sample_storage "site-a" 5000 !! Auth.STORAGE_KEY
     = Some (Auth.AuthDoc (Auth.mkStoredAuth "k-123" "site-a" 5000)) /\
   ~ (5000 < 5000)%Z /\
   (Auth.getStoredKey sample_auth_config 5000 (sample_storage "site-a" 5000)).1
     = Some "k-123").
Proof.
  split_and!;
    [reflexivity | discriminate | reflexivity | discriminate
    | reflexivity | lia | reflexivity].
Qed.

(** An expired credential of the active application is purged. *)
Example getStoredKey_expired_purged :
  Auth.getStoredKey sample_auth_config 5001 (sample_storage "site-a" 5000)
  = (None, ∅).
Proof. reflexivity. Qed.

(** ** The popup handshakes *)

Section HandshakeProps.
Import Auth.
Variable config : AuthConfig.
Variable url_origin : string -> option string.
Variable timeout_closes_channel : bool.

Local Abbreviation step := (Auth.step config timeout_closes_channel).
Local Abbreviation run := (Auth.run config timeout_closes_channel).

Lemma run_cons w e es : run w (e :: es) = run (step w e) es.
Proof. reflexivity. Qed.

Lemma run_snoc w es e : run w (es ++ [e]) = step (run w es) e.
Proof. unfold Auth.run. by rewrite foldl_app. Qed.

Lemma step_allowedOrigins w e :
  allowedOrigins (hs (step w e)) = allowedOrigins (hs w).
Proof.
  destruct e as [closed|origin m|]; simpl.
  - unfold pollClosed, fireConnectTimeout, advance; simpl.
    repeat (case_match; simpl; try done).
  - destruct (messenger_accepts (hs w) origin); [|done].
    unfold invoke. destruct (kind (hs w)), m; done.
  - by destruct (deferredCleanups (hs w)).
Qed.

Lemma run_allowedOrigins es : forall w,
  allowedOrigins (hs (run w es)) = allowedOrigins (hs w).
Proof.
  induction es as [|e es IH]; intros w; [done|].
  rewrite run_cons, IH. apply step_allowedOrigins.
Qed.

Lemma open_allowedOrigins popup h x :
  h = openLoginPopup config url_origin popup \/
  h = openMediaManager config url_origin popup ->
  x ∈ allowedOrigins h -> url_origin (config_appUrl config) = Some x.
Proof.
  unfold openLoginPopup, openMediaManager.
  intros [-> | ->]; destruct popup; simpl;
    destruct (url_origin (config_appUrl config)); simpl;
    intros Hx; try (by apply elem_of_nil in Hx);
    apply list_elem_of_singleton in Hx; by subst.
Qed.

(** The channel's own timeout touches neither the promise nor the poll. *)
Lemma fireConnectTimeout_frame h :
  let h' := fireConnectTimeout timeout_closes_channel h in
  promise h' = promise h /\ checkClosed h' = checkClosed h /\
  timeout h' = timeout h /\ elapsed h' = elapsed h.
Proof. unfold fireConnectTimeout. by case_match. Qed.

(** A tick that finds the popup open leaves a pending handshake pending
    and its poll armed, whether or not the channel's timeout fires. *)
Lemma tick_open_pending w :
  promise (hs w) = Pending -> checkClosed (hs w) = true ->
  promise (hs (step w (Tick false))) = Pending /\
  checkClosed (hs (step w (Tick false))) = true /\
  timeout (hs (step w (Tick false))) = timeout (hs w) /\
  elapsed (hs (step w (Tick false))) = (elapsed (hs w) + 500)%Z.
Proof.
  intros Hp Hc. simpl.
  destruct (fireConnectTimeout_frame (advance (hs w))) as (Hp' & Hc' & Ht' & He').
  unfold pollClosed. rewrite Hc'. simpl. rewrite Hc.
  by rewrite Hp', Hc', Ht', He'.
Qed.

Lemma ticks_open_pending n : forall w,
  promise (hs w) = Pending -> checkClosed (hs w) = true ->
  let w' := run w (replicate n (Tick false)) in
  promise (hs w') = Pending /\ checkClosed (hs w') = true /\
  timeout (hs w') = timeout (hs w) /\
  elapsed (hs w') = (elapsed (hs w) + 500 * Z.of_nat n)%Z.
Proof.
  induction n as [|n IH]; intros w Hp Hc w'; subst w'.
  - simpl. split_and!; try done. lia.
  - change (replicate (S n) (Tick false))
      with (Tick false :: replicate n (Tick false)).
    rewrite run_cons.
    destruct (tick_open_pending w Hp Hc) as (Hp' & Hc' & Ht' & He').
    destruct (IH (step w (Tick false)) Hp' Hc') as (? & ? & Ht & He).
    split_and!; try done.
    + by rewrite Ht.
    + rewrite He, He'. lia.
Qed.

(** The tick that finds the popup closed settles a pending handshake
    with [null] and tears the poll and the channel down. *)
Lemma tick_closed_cancels w :
  promise (hs w) = Pending -> checkClosed (hs w) = true ->
  promise (hs (step w (Tick true))) = Fulfilled Cancelled /\
  checkClosed (hs (step w (Tick true))) = false /\
  connection (hs (step w (Tick true))) = false.
Proof.
  intros Hp Hc. simpl.
  destruct (fireConnectTimeout_frame (advance (hs w))) as (Hp' & Hc' & _ & _).
  unfold pollClosed. rewrite Hc'. simpl. rewrite Hc. simpl.
  rewrite Hp'. simpl. by rewrite Hp.
Qed.

Lemma foreign_call_rejected w origin :
  (forall x, x ∈ allowedOrigins (hs w) ->
             url_origin (config_appUrl config) = Some x) ->
  url_origin (config_appUrl config) <> Some origin ->
  messenger_accepts (hs w) origin = false.
Proof.
  intros Hdecl Hforeign. unfold messenger_accepts.
  rewrite bool_decide_eq_false_2; [apply andb_false_r|].
  intros Hin. by apply Hforeign, Hdecl.
Qed.

Lemma run_without_foreign_calls es : forall w,
  (forall x, x ∈ allowedOrigins (hs w) ->
             url_origin (config_appUrl config) = Some x) ->
  run w es =
  run w (filter (fun e => from_declared_origin
                            (url_origin (config_appUrl config)) e) es).
Proof.
  induction es as [|e es IH]; intros w Hdecl; [done|].
  destruct (from_declared_origin (url_origin (config_appUrl config)) e) eqn:He.
  - rewrite filter_cons_True by (by rewrite He).
    rewrite !run_cons. apply IH.
    intros x. rewrite step_allowedOrigins. apply Hdecl.
  - rewrite filter_cons_False by (rewrite He; exact id).
    rewrite run_cons.
    destruct e as [closed|origin m|]; simpl in He; try done.
    apply bool_decide_eq_false in He.
    simpl. rewrite (foreign_call_rejected w origin Hdecl He). by apply IH.
Qed.

(** The popup poll, for the login handshake and for the media handshake
    alike.  The first poll that finds the popup closed
    resolves the handshake with [null] (Cancelled), whether that is
    before or after the 5 or 10 minutes handed to the call channel as
    its [timeout].  But as long as every
    poll finds the popup open and no result has come in, the handshake
    is still pending, however much time has gone by: nothing resolves
    it at the deadline. *)
Theorem handshake_cancelled_by_close_only o st t0 n :
  url_origin (config_appUrl config) = Some o ->
  (timeout (hs (run (mkWorld st t0 (openLoginPopup config url_origin true))
                    (replicate n (Tick false)))) = 300000%Z /\
   elapsed (hs (run (mkWorld st t0 (openLoginPopup config url_origin true))
                    (replicate n (Tick false)))) = (500 * Z.of_nat n)%Z /\
   promise (hs (run (mkWorld st t0 (openLoginPopup config url_origin true))
                    (replicate n (Tick false)))) = Pending /\
   promise (hs (run (mkWorld st t0 (openLoginPopup config url_origin true))
                    (replicate n (Tick false) ++ [Tick true])))
     = Fulfilled Cancelled) /\
  (timeout (hs (run (mkWorld st t0 (openMediaManager config url_origin true))
                    (replicate n (Tick false)))) = 600000%Z /\
   elapsed (hs (run (mkWorld st t0 (openMediaManager config url_origin true))
                    (replicate n (Tick false)))) = (500 * Z.of_nat n)%Z /\
   promise (hs (run (mkWorld st t0 (openMediaManager config url_origin true))
                    (replicate n (Tick false)))) = Pending /\
   promise (hs (run (mkWorld st t0 (openMediaManager config url_origin true))
                    (replicate n (Tick false) ++ [Tick true])))
     = Fulfilled Cancelled).
Proof.
  intros Ho. unfold openLoginPopup, openMediaManager. rewrite Ho. simpl.
  split.
  - set (w0 := mkWorld st t0 (mkHandshake LoginPopup Pending true true [o]
                                          300000 true 0 0)).
    destruct (ticks_open_pending n w0 eq_refl eq_refl) as (Hp & Hc & Ht & He).
    rewrite run_snoc.
    destruct (tick_closed_cancels _ Hp Hc) as (Hdone & _ & _).
    split_and!; try done; rewrite He; simpl; lia.
  - set (w0 := mkWorld st t0 (mkHandshake MediaPopup Pending true true [o]
                                          600000 true 0 0)).
    destruct (ticks_open_pending n w0 eq_refl eq_refl) as (Hp & Hc & Ht & He).
    rewrite run_snoc.
    destruct (tick_closed_cancels _ Hp Hc) as (Hdone & _ & _).
    split_and!; try done; rewrite He; simpl; lia.
Qed.

(** C9.  Whatever has happened to a handshake since it was opened, a
    call whose sender is not at the origin of the configured app URL is
    turned away by the messenger and changes nothing; and the state a
    handshake reaches is the one it reaches when all such calls are
    taken out of its history. *)
Theorem foreign_origin_calls_are_dropped popup h0 st t0 es :
  h0 = openLoginPopup config url_origin popup \/
  h0 = openMediaManager config url_origin popup ->
  (forall origin m,
      url_origin (config_appUrl config) <> Some origin ->
      messenger_accepts (hs (run (mkWorld st t0 h0) es)) origin = false /\
      step (run (mkWorld st t0 h0) es) (Call origin m)
        = run (mkWorld st t0 h0) es) /\
  run (mkWorld st t0 h0) es =
  run (mkWorld st t0 h0)
      (filter (fun e => from_declared_origin
                          (url_origin (config_appUrl config)) e) es).
Proof.
  intros Hopen.
  assert (Hdecl : forall x, x ∈ allowedOrigins h0 ->
                            url_origin (config_appUrl config) = Some x)
    by (intros x; by apply (open_allowedOrigins popup)).
  split.
  - intros origin m Hforeign.
    assert (Hrej : messenger_accepts (hs (run (mkWorld st t0 h0) es)) origin
                   = false).
    { apply foreign_call_rejected; [|done].
      intros x. rewrite run_allowedOrigins. apply Hdecl. }
    split; [done|]. simpl. by rewrite Hrej.
  - by apply run_without_foreign_calls.
Qed.

End HandshakeProps.

(** Four polls with the popup open, then one that finds it closed. *)
Lemma handshake_cancelled_by_close_only_witness :
  sample_url_origin (Auth.config_appUrl sample_auth_config)
    = Some "https://app.example" /\
  Auth.promise
    (Auth.hs
       (Auth.run sample_auth_config false
          (Auth.mkWorld ∅ 0
             (Auth.openLoginPopup sample_auth_config sample_url_origin true))
          (replicate 4 (Auth.Tick false) ++ [Auth.Tick true])))
  = Auth.Fulfilled Auth.Cancelled.
Proof.
  assert (Ho : sample_url_origin (Auth.config_appUrl sample_auth_config)
               = Some "https://app.example") by (vm_compute; reflexivity).
  split; [exact Ho|].
  destruct (handshake_cancelled_by_close_only sample_auth_config
              sample_url_origin false "https://app.example" ∅ 0 4 Ho)
    as ((_ & _ & _ & Hclosed) & _).
  exact Hclosed.
Defined.

(** C3.  The code at the deadline.  A login popup that stays open for
    the whole 5 minutes (600 polls of 500 ms) and a media popup that
    stays open for the whole 10 minutes (1200 polls), with no result
    coming in: the time handed to the call channel has elapsed and its
    timer has fired, and neither handshake has resolved with [null];
    both are still pending, with the poll still running.  This is so
    whether or not the library closes the channel when its timer fires;
    when it does, the channel is gone while the promise is pending. *)
Theorem deadline_does_not_cancel :
  forall timeout_closes_channel : bool,
  (let w := Auth.run sample_auth_config timeout_closes_channel
              (Auth.mkWorld ∅ 0
                 (Auth.openLoginPopup sample_auth_config sample_url_origin true))
              (replicate 600 (Auth.Tick false)) in
   Auth.elapsed (Auth.hs w) = 300000%Z /\
   Auth.timeout (Auth.hs w) = 300000%Z /\
   Auth.connectTimer (Auth.hs w) = false /\
   Auth.connection (Auth.hs w) = negb timeout_closes_channel /\
   Auth.checkClosed (Auth.hs w) = true /\
   Auth.promise (Auth.hs w) = Auth.Pending /\
   Auth.promise (Auth.hs w) <> Auth.Fulfilled Auth.Cancelled) /\
  (let w := Auth.run sample_auth_config timeout_closes_channel
              (Auth.mkWorld ∅ 0
                 (Auth.openMediaManager sample_auth_config sample_url_origin true))
              (replicate 1200 (Auth.Tick false)) in
   Auth.elapsed (Auth.hs w) = 600000%Z /\
   Auth.timeout (Auth.hs w) = 600000%Z /\
   Auth.connectTimer (Auth.hs w) = false /\
   Auth.connection (Auth.hs w) = negb timeout_closes_channel /\
   Auth.checkClosed (Auth.hs w) = true /\
   Auth.promise (Auth.hs w) = Auth.Pending /\
   Auth.promise (Auth.hs w) <> Auth.Fulfilled Auth.Cancelled).
Proof. intros []; vm_compute; split_and!; congruence. Qed.

(** A call from another origin during a login handshake. *)
Lemma foreign_origin_calls_are_dropped_witness :
  Auth.step sample_auth_config false
    (Auth.mkWorld ∅ 0
       (Auth.openLoginPopup sample_auth_config sample_url_origin true))
    (Auth.Call "https://evil.example" (Auth.receiveAuthResult "stolen"))
  = Auth.mkWorld ∅ 0
      (Auth.openLoginPopup sample_auth_config sample_url_origin true).
Proof.
  destruct (foreign_origin_calls_are_dropped sample_auth_config
              sample_url_origin false true
              (Auth.openLoginPopup sample_auth_config sample_url_origin true)
              ∅ 0 [] (or_introl eq_refl)) as (Hdropped & _).
  destruct (Hdropped "https://evil.example" (Auth.receiveAuthResult "stolen"))
    as (_ & Hsame).
  - vm_compute. discriminate.
  - exact Hsame.
Defined.

(** The same call from the declared origin is delivered: the credential
    is stored and the handshake resolves with it. *)
Example declared_origin_call_delivered :
  let w := Auth.step sample_auth_config false
             (Auth.mkWorld ∅ 1000
                (Auth.openLoginPopup sample_auth_config sample_url_origin true))
             (Auth.Call "https://app.example" (Auth.receiveAuthResult "k-9")) in
  Auth.promise (Auth.hs w) = Auth.Fulfilled (Auth.Credential "k-9") /\
  Auth.storage w !! Auth.STORAGE_KEY
    = Some (Auth.AuthDoc (Auth.mkStoredAuth "k-9" "site-a" 3601000)) /\
  Auth.checkClosed (Auth.hs w) = false /\ Auth.connection (Auth.hs w) = false.
Proof. vm_compute. done. Qed.

(** ** The lifetime of a stored credential *)

(** C10.  [KEY_EXPIRY_MS] is 3,600,000 ms.  [storeKey], the only writer
    of the credential slot, stamps the credential with the time of the
    write plus that amount.  The login handshake stores its result
    through [storeKey], so the slot then holds the key with the expiry
    [now + 3,600,000].  [refreshKeyExpiry] writes exactly when its read
    hands out a non-empty key, and then the slot holds that key with the
    expiry [t_write + 3,600,000], the time of the write and not the time
    of the read or the old expiry; when the read answers no key it
    writes nothing.  The completion of a save refreshes at the current
    clock, so after a save attempt a live key expires 3,600,000 ms after
    that moment. *)
Theorem credential_writes_expire_after_60_minutes :
  Auth.KEY_EXPIRY_MS = 3600000%Z /\
  (forall cfg now k (ls : gmap string Auth.Item),
      Auth.storeKey cfg now k ls !! Auth.STORAGE_KEY =
      Some (Auth.AuthDoc
              (Auth.mkStoredAuth k (Auth.config_appId cfg) (now + 3600000)))) /\
  (forall cfg k w,
      Auth.kind (Auth.hs w) = Auth.LoginPopup ->
      Auth.storage (Auth.invoke cfg (Auth.receiveAuthResult k) w)
        !! Auth.STORAGE_KEY =
      Some (Auth.AuthDoc
              (Auth.mkStoredAuth k (Auth.config_appId cfg)
                 (Auth.now w + 3600000)))) /\
  (forall cfg t_read t_write (ls : gmap string Auth.Item),
      (forall k,
          (Auth.getStoredKey cfg t_read ls).1 = Some k -> k <> "" ->
          Auth.refreshKeyExpiry cfg t_read t_write ls
            = Auth.storeKey cfg t_write k ls /\
          Auth.refreshKeyExpiry cfg t_read t_write ls !! Auth.STORAGE_KEY =
          Some (Auth.AuthDoc
                  (Auth.mkStoredAuth k (Auth.config_appId cfg)
                     (t_write + 3600000)))) /\
      (truthy (Auth.getStoredKey cfg t_read ls).1 = false ->
       Auth.refreshKeyExpiry cfg t_read t_write ls
         = (Auth.getStoredKey cfg t_read ls).2)) /\
  (forall config t w,
      Editor.localStorage (Editor.completeSave config t w) =
      Auth.refreshKeyExpiry (Editor.authConfig config)
        (Editor.clock w) (Editor.clock w) (Editor.localStorage w)) /\
  (forall config t w k,
      (Auth.getStoredKey (Editor.authConfig config) (Editor.clock w)
         (Editor.localStorage w)).1 = Some k ->
      k <> "" ->
      Editor.localStorage (Editor.completeSave config t w) !! Auth.STORAGE_KEY =
      Some (Auth.AuthDoc
              (Auth.mkStoredAuth k (Editor.appId config)
                 (Editor.clock w + 3600000)))).
Proof.
  assert (Hrefresh : forall cfg t_read t_write (ls : gmap string Auth.Item) k,
            (Auth.getStoredKey cfg t_read ls).1 = Some k -> k <> "" ->
            Auth.refreshKeyExpiry cfg t_read t_write ls
              = Auth.storeKey cfg t_write k ls).
  { intros cfg t_read t_write ls k Hk Hne.
    pose proof (refreshKeyExpiry_spec cfg t_read t_write ls) as Hspec.
    rewrite Hk in Hspec. by rewrite bool_decide_eq_false_2 in Hspec. }
  assert (Hsave : forall config t w,
            Editor.localStorage (Editor.completeSave config t w) =
            Auth.refreshKeyExpiry (Editor.authConfig config)
              (Editor.clock w) (Editor.clock w) (Editor.localStorage w)).
  { intros config t w. unfold Editor.completeSave.
    by destruct (0 <? length (Editor.collectErrors (Editor.results t)))%nat. }
  split_and!.
  - reflexivity.
  - intros. apply storeKey_lookup.
  - intros cfg k w Hkind. unfold Auth.invoke. rewrite Hkind. simpl.
    apply storeKey_lookup.
  - intros cfg t_read t_write ls. split.
    + intros k Hk Hne. split; [by apply Hrefresh|].
      rewrite (Hrefresh cfg t_read t_write ls k) by done.
      apply storeKey_lookup.
    + intros Hfalsy.
      pose proof (refreshKeyExpiry_spec cfg t_read t_write ls) as Hspec.
      destruct (Auth.getStoredKey cfg t_read ls).1 as [k|] eqn:Hread;
        [|done].
      apply getStoredKey_returned in Hread as Hret.
      destruct Hret as (auth & _ & _ & _ & _ & Hsame).
      unfold truthy in Hfalsy. case_bool_decide; [|done].
      by rewrite Hspec, Hsame.
  - exact Hsave.
  - intros config t w k Hk Hne.
    rewrite Hsave, (Hrefresh _ _ _ _ k) by done.
    apply storeKey_lookup.
Qed.

(** A refresh at [t_write = 4000] of a key read at [t_read = 3000],
    whose expiry was 5000. *)
Lemma credential_writes_expire_after_60_minutes_witness :
  Auth.refreshKeyExpiry sample_auth_config 3000 4000
    (sample_storage "site-a" 5000) !! Auth.STORAGE_KEY =
  Some (Auth.AuthDoc (Auth.mkStoredAuth "k-123" "site-a" 3604000)).
Proof.
  destruct credential_writes_expire_after_60_minutes
    as (_ & _ & _ & Hrefresh & _).
  destruct (Hrefresh sample_auth_config 3000%Z 4000%Z
              (sample_storage "site-a" 5000)) as (Hlive & _).
  destruct (Hlive "k-123") as (_ & Hslot).
  - vm_compute. reflexivity.
  - discriminate.
  - exact Hslot.
Defined.

(** ** Facts about [JsMap] *)

Section JsMapFacts.
Context {V : Type}.
Implicit Types (m : JsMap.t V) (k : string) (v : V).

Lemma get_None_keys k m : JsMap.get k m = None <-> k ∉ JsMap.keys m.
Proof.
  unfold JsMap.keys. induction m as [|[k' v'] m IH]; csimpl.
  - split; [intros _; apply not_elem_of_nil | done].
  - rewrite not_elem_of_cons. case_decide; subst.
    + split; [done | intros [? _]; done].
    + rewrite IH. split; [by intros ?; split | by intros [_ ?]].
Qed.

Lemma get_Some_keys k m v : JsMap.get k m = Some v -> k ∈ JsMap.keys m.
Proof.
  intros Hget. destruct (decide (k ∈ JsMap.keys m)) as [|Hnot]; [done|].
  apply get_None_keys in Hnot. congruence.
Qed.

Lemma set_absent k v m :
  k ∉ JsMap.keys m -> JsMap.set k v m = (m ++ [(k, v)])%list.
Proof.
  unfold JsMap.keys. induction m as [|[k' v'] m IH]; csimpl; [done|].
  rewrite not_elem_of_cons. intros [Hne Hnot].
  case_decide; [congruence|]. by rewrite IH.
Qed.

Lemma keys_mutate k (f : V -> V) m :
  JsMap.keys (JsMap.mutate k f m) = JsMap.keys m.
Proof.
  unfold JsMap.keys. induction m as [|[k' v'] m IH]; csimpl; [done|].
  case_decide; csimpl; [done | by rewrite IH].
Qed.

Lemma keys_mutate_all (f : V -> V) m :
  JsMap.keys (JsMap.mutate_all f m) = JsMap.keys m.
Proof.
  unfold JsMap.keys, JsMap.mutate_all. rewrite <- list_fmap_compose.
  by apply list_fmap_ext.
Qed.

Lemma get_mutate k k' (f : V -> V) m :
  JsMap.get k' (JsMap.mutate k f m) =
  if decide (k = k') then f <$> JsMap.get k m else JsMap.get k' m.
Proof.
  induction m as [|[k0 v0] m IH]; csimpl; [by case_decide|].
  repeat (case_decide; simpl; subst; try done).
Qed.

Lemma get_mutate_all k (f : V -> V) m :
  JsMap.get k (JsMap.mutate_all f m) = f <$> JsMap.get k m.
Proof.
  induction m as [|[k0 v0] m IH]; csimpl; [done|].
  case_decide; simpl; [done | apply IH].
Qed.

Lemma keys_set k v m :
  JsMap.keys (JsMap.set k v m) =
  if decide (k ∈ JsMap.keys m) then JsMap.keys m
  else (JsMap.keys m ++ [k])%list.
Proof.
  unfold JsMap.keys. induction m as [|[k' v'] m IH]; csimpl.
  - done.
  - destruct (decide (k' = k)) as [->|Hne]; csimpl.
    + by rewrite decide_True by apply list_elem_of_here.
    + rewrite IH. destruct (decide (k ∈ m.*1)) as [Hin|Hnin].
      * by rewrite decide_True by (by apply list_elem_of_further).
      * rewrite decide_False; [done|].
        rewrite elem_of_cons. intros [?|?]; congruence.
Qed.

Lemma NoDup_keys_set k v m :
  NoDup (JsMap.keys m) -> NoDup (JsMap.keys (JsMap.set k v m)).
Proof.
  intros Hnd. rewrite keys_set. case_decide as Hin; [done|].
  apply NoDup_app. split_and!; [done| |apply NoDup_singleton].
  intros x Hx Hx'. apply list_elem_of_singleton in Hx'. by subst.
Qed.

End JsMapFacts.

(** ** Dirtiness *)

Section Dirtiness.
Import Editor.
Implicit Types (c : EditorController) (id : string).

Lemma dirty_fold c (els : JsMap.t HTMLElement) (acc : JsMap.t string) :
  NoDup (JsMap.keys acc ++ JsMap.keys els) ->
  foldl (fun dirty '(elementId, element) =>
           let original := originalContent c !! elementId in
           let current := innerHTML element in
           match original with
           | Some o =>
               if bool_decide (current ≠ o)
               then JsMap.set elementId current dirty
               else dirty
           | None => dirty
           end) acc els
  = (acc ++ omap (dirty_entry (originalContent c)) els)%list.
Proof.
  revert acc. induction els as [|[k e] els IH]; intros acc Hnd; csimpl.
  - by rewrite app_nil_r.
  - assert (Hk : k ∉ JsMap.keys acc).
    { apply NoDup_app in Hnd as (_ & Hdisj & _).
      intros Hin. apply (Hdisj k Hin). apply list_elem_of_here. }
    assert (Hrest : NoDup (JsMap.keys acc ++ JsMap.keys els)).
    { unfold JsMap.keys in *. csimpl in Hnd.
      apply NoDup_app in Hnd as (Ha & Hdisj & Hels).
      apply NoDup_cons in Hels as (_ & Hels).
      apply NoDup_app. split_and!; try done.
      intros x Hx Hx'. apply (Hdisj x Hx). by apply list_elem_of_further. }
    unfold dirty_entry at 1. simpl.
    destruct (originalContent c !! k) as [o|]; [|by apply IH].
    case_bool_decide; [|by apply IH].
    rewrite set_absent by done. rewrite IH.
    + by rewrite <- app_assoc.
    + unfold JsMap.keys in *. rewrite fmap_app. csimpl.
      by rewrite <- app_assoc.
Qed.

Lemma getDirtyElements_omap c :
  NoDup (JsMap.keys (editableElements c)) ->
  getDirtyElements c =
  omap (dirty_entry (originalContent c)) (editableElements c).
Proof.
  intros Hnd. unfold getDirtyElements. by rewrite dirty_fold.
Qed.

Lemma dirty_keys_absent (oc : gmap string string) id
  (els : JsMap.t HTMLElement) :
  id ∉ JsMap.keys els -> JsMap.get id (omap (dirty_entry oc) els) = None.
Proof.
  unfold JsMap.keys. induction els as [|[k e] els IH]; csimpl; [done|].
  rewrite not_elem_of_cons. intros [Hne Hnot].
  unfold dirty_entry at 1. simpl.
  destruct (oc !! k) as [o|]; [|by apply IH].
  case_bool_decide; [|by apply IH].
  simpl. case_decide; [congruence | by apply IH].
Qed.

(** The dirty map at [id], read off the registry and the snapshots. *)
Lemma get_dirty c id :
  NoDup (JsMap.keys (editableElements c)) ->
  JsMap.get id (getDirtyElements c) =
  match JsMap.get id (editableElements c), originalContent c !! id with
  | Some el, Some o =>
      if bool_decide (innerHTML el ≠ o) then Some (innerHTML el) else None
  | _, _ => None
  end.
Proof.
  intros Hnd. rewrite getDirtyElements_omap by done.
  generalize (originalContent c). intros oc.
  induction (editableElements c) as [|[k e] els IH]; csimpl; [done|].
  unfold JsMap.keys in Hnd. csimpl in Hnd.
  apply NoDup_cons in Hnd as (Hk & Hnd).
  unfold dirty_entry at 1. simpl.
  destruct (decide (k = id)) as [->|Hne].
  - destruct (oc !! id) as [o|]; [|by apply dirty_keys_absent].
    case_bool_decide; [|by apply dirty_keys_absent].
    simpl. by rewrite decide_True.
  - destruct (oc !! k) as [o|]; [|by apply IH].
    case_bool_decide; [|by apply IH].
    simpl. rewrite decide_False by done. by apply IH.
Qed.

Lemma get_dirty_Some c id content :
  NoDup (JsMap.keys (editableElements c)) ->
  JsMap.get id (getDirtyElements c) = Some content ->
  exists el original,
    JsMap.get id (editableElements c) = Some el /\
    originalContent c !! id = Some original /\
    innerHTML el <> original /\ content = innerHTML el.
Proof.
  intros Hnd. rewrite get_dirty by done.
  destruct (JsMap.get id (editableElements c)) as [el|]; [|done].
  destruct (originalContent c !! id) as [o|]; [|done].
  case_bool_decide; [|done]. intros [= <-]. by exists el, o.
Qed.

(** C2.  In every state of the controller whose registry is a proper
    [Map], an id is in the dirty map exactly when the registry has an
    element for it, a snapshot exists for it, and the element's
    [innerHTML] is a different string from the snapshot; the dirty map
    then carries that [innerHTML].  An id without a snapshot is never in
    the dirty map. *)
Theorem dirty_iff_snapshot_differs c id :
  NoDup (JsMap.keys (editableElements c)) ->
  (forall content,
      JsMap.get id (getDirtyElements c) = Some content <->
      exists el original,
        JsMap.get id (editableElements c) = Some el /\
        originalContent c !! id = Some original /\
        innerHTML el <> original /\ content = innerHTML el) /\
  (JsMap.has id (getDirtyElements c) = true <->
   exists el original,
     JsMap.get id (editableElements c) = Some el /\
     originalContent c !! id = Some original /\
     innerHTML el <> original) /\
  (originalContent c !! id = None ->
   JsMap.has id (getDirtyElements c) = false).
Proof.
  intros Hnd. unfold JsMap.has. rewrite get_dirty by done.
  destruct (JsMap.get id (editableElements c)) as [el|];
    destruct (originalContent c !! id) as [o|]; try case_bool_decide;
    (split_and!; [intros content; split | split | ]);
    try done;
    try (intros (el' & o' & ? & ? & ? & ?); by simplify_eq);
    try (intros (el' & o' & ? & ? & ?); by simplify_eq).
  - intros [= <-]. by exists el, o.
  - intros _. by exists el, o.
Qed.

End Dirtiness.

(** The retyped ["hero"] of [sample_editing] is dirty. *)
Lemma dirty_iff_snapshot_differs_witness :
  JsMap.get "hero" (Editor.getDirtyElements (Editor.ctl sample_editing))
  = Some "Hello".
Proof.
  destruct (dirty_iff_snapshot_differs (Editor.ctl sample_editing) "hero")
    as (Hget & _ & _).
  - apply (bool_decide_unpack _). vm_compute. exact I.
  - apply Hget. eexists _, _.
    split_and!; [vm_compute; reflexivity | vm_compute; reflexivity
                | vm_compute; discriminate | vm_compute; reflexivity].
Defined.

(** ** Entering and leaving edit mode *)

Section Editing.
Import Editor.
Implicit Types (c : EditorController) (id : string).

Lemma stopEditing_clears c :
  editingElementId c <> Some "" -> editingElementId (stopEditing c) = None.
Proof.
  intros Hne. unfold stopEditing, truthy.
  destruct (editingElementId c) as [id|] eqn:Hid; simpl; [|done].
  case_bool_decide; subst; [congruence | done].
Qed.

Lemma stopEditing_frame c :
  saving (stopEditing c) = saving c /\
  currentMode (stopEditing c) = currentMode c /\
  originalContent (stopEditing c) = originalContent c /\
  apiKey (stopEditing c) = apiKey c /\
  JsMap.keys (editableElements (stopEditing c)) = JsMap.keys (editableElements c).
Proof.
  unfold stopEditing.
  destruct (truthy (editingElementId c)); simpl; [|done].
  destruct (editingElementId c); simpl; [|done].
  split_and!; try done. apply keys_mutate.
Qed.





Lemma signOut_ctl w :
  ctl (signOut w) =
  removeToolbar
    (stopEditing
       (set_editableElements
          (JsMap.mutate_all
             (fun e => el_contenteditable None
                         (el_classList
                            (classList_remove
                               ["streamlined-editable"; "streamlined-editing"])
                            e))
             (editableElements (ctl w)))
          (set_apiKey None (ctl w)))).
Proof. reflexivity. Qed.

(** C5, as amended.  After [signOut], from any state in which the
    element being edited, if any, has a non-empty id, no element is
    being edited, and the saving flag is what it was before the call. *)
Theorem signOut_clears_editing w :
  editingElementId (ctl w) <> Some "" ->
  editingElementId (ctl (signOut w)) = None /\
  saving (ctl (signOut w)) = saving (ctl w).
Proof.
  intros Hne. rewrite signOut_ctl. simpl. split.
  - by apply stopEditing_clears.
  - by destruct (stopEditing_frame
                   (set_editableElements
                      (JsMap.mutate_all
                         (fun e => el_contenteditable None
                            (el_classList
                               (classList_remove
                                  ["streamlined-editable"; "streamlined-editing"])
                               e))
                         (editableElements (ctl w)))
                      (set_apiKey None (ctl w)))) as (-> & _).
Qed.

End Editing.


Lemma signOut_clears_editing_witness :
  Editor.editingElementId (Editor.ctl (Editor.signOut sample_editing)) = None.
Proof.
  destruct (signOut_clears_editing sample_editing) as (Hcleared & _).
  - vm_compute. discriminate.
  - exact Hcleared.
Defined.

(** C5, counterexample.  [sample_editing] is in author mode, editing
    ["hero"], not saving.  After [signOut] the editing id is cleared but
    the mode is still [author], not [viewer].  And when the sign-out
    comes while the save of ["hero"] is in flight, the saving flag is
    still raised after it. *)
Lemma signOut_keeps_author_mode :
  (let before := Editor.ctl sample_editing in
   let after := Editor.ctl (Editor.signOut sample_editing) in
   (Editor.currentMode before, Editor.editingElementId before,
    Editor.saving before) = (Auth.author, Some "hero", false) /\
   (Editor.currentMode after, Editor.editingElementId after,
    Editor.saving after) = (Auth.author, None, false) /\
   (Editor.currentMode after, Editor.editingElementId after,
    Editor.saving after) <> (Auth.viewer, None, false)) /\
  (let after :=
     Editor.ctl
       (Editor.signOut (Editor.handleSave sample_config sample_editing)) in
   (Editor.currentMode after, Editor.editingElementId after,
    Editor.saving after) = (Auth.author, None, true)).
Proof. vm_compute. split_and!; congruence. Qed.

(** With the mode left at [author], the click listener of an editable
    element still starts an edit after sign-out. *)
Example click_after_signOut_starts_editing :
  let w := Editor.run sample_config sample_editing
             [Editor.SignOut; Editor.ClickElement "footer"] in
  Editor.toolbar (Editor.ctl w) = None /\
  Editor.apiKey (Editor.ctl w) = None /\
  Editor.editingElementId (Editor.ctl w) = Some "footer" /\
  Editor.contenteditable <$> JsMap.get "footer" (Editor.editableElements (Editor.ctl w))
    = Some (Some "true").
Proof. vm_compute. done. Qed.

(** ** The saving flag across the events of a page *)

Section SavingFlag.
Import Editor.
Variable config : ViewerConfig.
Implicit Types (c : EditorController) (w : World).

Local Abbreviation step := (Editor.step config).
Local Abbreviation run := (Editor.run config).

Lemma erun_cons w e es : run w (e :: es) = run (step w e) es.
Proof. reflexivity. Qed.

Lemma erun_snoc w es e : run w (es ++ [e])%list = step (run w es) e.
Proof. unfold Editor.run. by rewrite foldl_app. Qed.

Lemma erun_app w es es' : run w (es ++ es')%list = run (run w es) es'.
Proof. unfold Editor.run. by rewrite foldl_app. Qed.

Lemma startEditing_saving id c : saving (startEditing id c) = saving c.
Proof. unfold startEditing. by case_match. Qed.

Lemma updateToolbarHasChanges_saving c :
  saving (updateToolbarHasChanges c) = saving c.
Proof. reflexivity. Qed.

Lemma handleReset_saving c : saving (handleReset c) = saving c.
Proof. unfold handleReset. by repeat case_match. Qed.

Lemma stopEditing_saving c : saving (stopEditing c) = saving c.
Proof. by destruct (stopEditing_frame c) as (-> & _). Qed.

Lemma clickElement_saving id c : saving (clickElement id c) = saving c.
Proof.
  unfold clickElement. repeat case_match; try done. apply startEditing_saving.
Qed.

Lemma input_saving id html c : saving (input id html c) = saving c.
Proof. unfold input. by repeat case_match. Qed.

Lemma handleDocumentClick_saving c : saving (handleDocumentClick c) = saving c.
Proof.
  unfold handleDocumentClick. case_match; [done | apply stopEditing_saving].
Qed.

Lemma showToolbar_saving c : saving (showToolbar c) = saving c.
Proof. unfold showToolbar. by case_match. Qed.

Lemma setMode_frame mode w :
  saving (ctl (setMode config mode w)) = saving (ctl w) /\
  inflight (setMode config mode w) = inflight w.
Proof.
  unfold setMode. split; [|done]. simpl.
  destruct mode; unfold enableAuthorMode, enableViewerMode;
    rewrite showToolbar_saving; [done|].
  by rewrite stopEditing_saving.
Qed.

Lemma signOut_frame w :
  saving (ctl (signOut w)) = saving (ctl w) /\ inflight (signOut w) = inflight w.
Proof.
  split; [|done]. rewrite signOut_ctl. simpl. by rewrite stopEditing_saving.
Qed.

Lemma handleSignIn_frame result w :
  saving (ctl (handleSignIn config result w)) = saving (ctl w) /\
  inflight (handleSignIn config result w) = inflight w.
Proof.
  unfold handleSignIn. destruct (truthy result).
  - destruct (setMode_frame Auth.author
                (with_ctl
                   (set_apiKey result
                      (ctl match result with
                           | Some k =>
                               with_localStorage
                                 (Auth.storeKey (authConfig config) (clock w) k
                                    (localStorage w)) w
                           | None => w
                           end))
                   match result with
                   | Some k =>
                       with_localStorage
                         (Auth.storeKey (authConfig config) (clock w) k
                            (localStorage w)) w
                   | None => w
                   end)) as (-> & ->).
    by destruct result.
  - by destruct result.
Qed.

Lemma init_frame doc w :
  saving (ctl (init config doc w)) = saving (ctl w) /\
  inflight (init config doc w) = inflight w.
Proof.
  unfold init.
  assert (Hauth : forall w',
             saving (ctl (setupAuthUI config w')) = saving (ctl w') /\
             inflight (setupAuthUI config w') = inflight w').
  { intros w'. unfold setupAuthUI.
    destruct (Auth.getStoredKey _ _ _) as [storedKey ls].
    destruct (truthy storedKey); [|done].
    match goal with
    | |- context [setMode config ?m ?x] =>
        destruct (setMode_frame m x) as (-> & ->)
    end. done. }
  destruct (mockAuth config) as [[[] ?]|].
  - match goal with
    | |- context [setMode config ?m ?x] =>
        destruct (setMode_frame m x) as (-> & ->)
    end. done.
  - destruct (Hauth (with_ctl (scanEditableElements doc (ctl w)) w))
      as (-> & ->). done.
  - destruct (Hauth (with_ctl (scanEditableElements doc (ctl w)) w))
      as (-> & ->). done.
Qed.

(** Events other than a save request and a settlement leave both the
    flag and the save in flight alone. *)
Lemma step_frame w e :
  e <> ToolbarSave -> (forall i o, e <> Settle i o) ->
  saving (ctl (step w e)) = saving (ctl w) /\
  inflight (step w e) = inflight w.
Proof.
  intros Hsave Hsettle. destruct e; simpl; try done.
  - split; [apply handleReset_saving | done].
  - apply setMode_frame.
  - apply signOut_frame.
  - apply handleSignIn_frame.
  - split; [apply clickElement_saving | done].
  - destruct (documentClick (ctl w)); [|done].
    split; [apply handleDocumentClick_saving | done].
  - split; [apply input_saving | done].
  - by destruct (Hsettle i o).
Qed.

Lemma handleSave_guard w :
  saving (ctl w) = true \/ JsMap.size (getDirtyElements (ctl w)) = 0 ->
  handleSave config w = w.
Proof.
  intros Hguard. unfold handleSave.
  destruct Hguard as [-> | ->]; [by rewrite orb_true_r | done].
Qed.

Lemma handleSave_begin w :
  saving (ctl w) = false -> getDirtyElements (ctl w) <> [] ->
  exists hdrs,
    handleSave config w =
    mkWorld (on_toolbar (tb_saving true) (set_saving true (ctl w)))
            (localStorage w) (clock w)
            (Some (mkSaveTask (getDirtyElements (ctl w))
                     (replicate (length (getDirtyElements (ctl w))) None) []))
            (fetched w ++ (saveRequest config hdrs <$> getDirtyElements (ctl w)))
            (alerts w) (log w).
Proof.
  intros Hs Hd. unfold handleSave. rewrite Hs. unfold JsMap.size.
  destruct (getDirtyElements (ctl w)) as [|e E] eqn:HE; [done|].
  simpl. eexists. reflexivity.
Qed.

Lemma completeSave_done t w :
  saving (ctl (completeSave config t w)) = false /\
  inflight (completeSave config t w) = None.
Proof.
  unfold completeSave.
  by destruct (0 <? length (collectErrors (results t)))%nat.
Qed.

Lemma saveElement_saving id content o c sv :
  saving (saveElement id content o c sv).1.2 = saving c.
Proof.
  unfold saveElement. destruct o as [r|reason]; [|done].
  destruct (ok r); simpl; [|done]. by destruct (json r).
Qed.

Lemma forallb_pending (rs : list (option Settlement)) :
  forallb (fun r => bool_decide (is_Some r)) rs = false ->
  exists j, rs !! j = Some None.
Proof.
  induction rs as [|r rs IH]; simpl; [done|].
  destruct r as [s|]; simpl.
  - intros Hrest. destruct (IH Hrest) as [j Hj]. by exists (S j).
  - intros _. by exists 0.
Qed.

Lemma forallb_settled (rs : list (option Settlement)) :
  forallb (fun r => bool_decide (is_Some r)) rs = true ->
  forall j, rs !! j <> Some None.
Proof.
  induction rs as [|r rs IH]; simpl; [done|].
  destruct r as [s|]; simpl; [|done].
  intros Hrest [|j]; simpl; [done | by apply IH].
Qed.

Lemma consistent_step w e : consistent w -> consistent (step w e).
Proof.
  intros Hc.
  destruct e as [| |mode| |result|id| |id html|i o|t];
    try (unfold consistent in *;
         match goal with
         | |- context [Editor.step config w ?e] =>
             destruct (step_frame w e) as (-> & ->); [done | done | done]
         end).
  - simpl. unfold handleSave.
    destruct (JsMap.size (getDirtyElements (ctl w)) =? 0)%nat eqn:Hsize;
      simpl; [done|].
    destruct (saving (ctl w)) eqn:Hs; [done|].
    unfold consistent. simpl. split_and!; [done | by rewrite length_replicate |].
    exists 0. apply lookup_replicate_2.
    apply Nat.eqb_neq in Hsize. unfold JsMap.size in Hsize. lia.
  - simpl. unfold settle.
    destruct (inflight w) as [task|] eqn:Ht; [|done].
    destruct (entries task !! i) as [[id content]|]; [|done].
    destruct (results task !! i) as [[s|]|] eqn:Hi; try done.
    unfold consistent in Hc. rewrite Ht in Hc. destruct Hc as (Hs & Hlen & _).
    pose proof (saveElement_saving id content o (ctl w) (saved task)) as Hkeep.
    destruct (saveElement id content o (ctl w) (saved task)) as [[s c] sv].
    simpl in Hkeep.
    destruct (forallb _ _) eqn:Hall.
    + unfold consistent.
      match goal with
      | |- context [completeSave config ?t' ?w'] =>
          destruct (completeSave_done t' w') as (Hdone & ->)
      end. done.
    + unfold consistent. simpl. split_and!.
      * by rewrite Hkeep.
      * by rewrite length_insert.
      * by apply forallb_pending.
Qed.

Lemma consistent_run es : forall w, consistent w -> consistent (run w es).
Proof.
  induction es as [|e es IH]; intros w Hc; [done|].
  rewrite erun_cons. by apply IH, consistent_step.
Qed.

Lemma consistent_initial ls t doc : consistent (initial config ls t doc).
Proof.
  unfold consistent, initial.
  by destruct (init_frame doc (mkWorld new_controller ls t None [] [] []))
    as (-> & ->).
Qed.

End SavingFlag.

(** ** One save, from the click to the last settlement *)

Section BatchedSave.
Import Editor.
Variable config : ViewerConfig.
Variable net : string -> FetchOutcome.
Implicit Types (c : EditorController) (w : World) (E : list (string * string)).

Local Abbreviation step := (Editor.step config).
Local Abbreviation run := (Editor.run config).

Lemma saveElement_spec id content o c sv :
  saveElement id content o c sv =
  (settlement_of id o,
   if succeeded o
   then set_originalContent (<[id := content]> (originalContent c)) c
   else c,
   if succeeded o then (sv ++ [id])%list else sv).
Proof.
  unfold settlement_of, saveElement, succeeded. simpl.
  destruct o as [r|reason]; [|done].
  destruct (ok r); simpl; [|done]. by destruct (json r).
Qed.

Lemma settlement_fulfilled id o :
  settlement_of id o = fulfilled <-> succeeded o = true.
Proof.
  unfold settlement_of, saveElement, succeeded. simpl.
  destruct o as [r|reason]; simpl; [|done].
  destruct (ok r); simpl; [|done]. by destruct (json r).
Qed.

Lemma entry_id_lookup E i e : E !! i = Some e -> entry_id E i = e.1.
Proof. unfold entry_id. by intros ->. Qed.

Lemma keys_lookup_inj E i j e e' :
  NoDup E.*1 -> E !! i = Some e -> E !! j = Some e' -> e.1 = e'.1 -> i = j.
Proof.
  intros Hnd Hi Hj Heq.
  apply (NoDup_lookup E.*1 i j e.1); [done | |].
  - by rewrite list_lookup_fmap, Hi.
  - by rewrite list_lookup_fmap, Hj, Heq.
Qed.

Lemma settling_start w1 E :
  inflight w1 = Some (mkSaveTask E (replicate (length E) None) []) ->
  settling w1 E net [] w1 (mkSaveTask E (replicate (length E) None) []).
Proof.
  intros Ht. constructor; simpl; try done.
  - by rewrite length_replicate.
  - intros i e Hin. by apply elem_of_nil in Hin.
  - intros i _ Hlt. by apply lookup_replicate_2.
  - by destruct (ctl w1).
  - intros i e Hin. by apply elem_of_nil in Hin.
Qed.

Lemma settling_settle w1 E ds w t i e :
  NoDup E.*1 -> settling w1 E net ds w t -> i ∉ ds -> E !! i = Some e ->
  exists t' wmid,
    settling w1 E net (ds ++ [i]) wmid t' /\
    settle config i (net e.1) w =
      if forallb (fun r => bool_decide (is_Some r)) (results t')
      then completeSave config t' wmid else wmid.
Proof.
  intros Hnd Hst Hi He.
  assert (Hlt : i < length E) by (by eapply lookup_lt_Some).
  destruct Hst as [Hin Hent Hlen Hset Hpend Hsaved Hctl Hcom Hunt
                   Hls Hck Hf Ha Hl].
  destruct e as [id content]. simpl.
  unfold settle. rewrite Hin, Hent, He, (Hpend i Hi Hlt).
  rewrite saveElement_spec.
  eexists _, _. split; [|reflexivity].
  constructor; simpl; try done.
  - by rewrite length_insert.
  - intros j e' Hj He'. apply elem_of_app in Hj as [Hj|Hj].
    + rewrite list_lookup_insert_ne; [by apply Hset|]. by intros ->.
    + apply list_elem_of_singleton in Hj as ->.
      rewrite He in He'. injection He' as <-. simpl.
      rewrite list_lookup_insert_eq; [done | lia].
  - intros j Hj Hjlt. rewrite not_elem_of_app in Hj. destruct Hj as [Hj Hji].
    rewrite list_lookup_insert_ne; [by apply Hpend|].
    intros ->. apply Hji, list_elem_of_here.
  - rewrite filter_app, length_app, <- Hsaved.
    assert (Hid : entry_id E i = id) by (by rewrite (entry_id_lookup E i _ He)).
    destruct (succeeded (net id)) eqn:Hs.
    + rewrite filter_cons_True by (by rewrite Hid). by rewrite length_app.
    + rewrite filter_cons_False by (by rewrite Hid, Hs). simpl. lia.
  - destruct (succeeded (net id)); [|done].
    destruct (ctl w), (ctl w1). unfold set_originalContent in *. simpl in *.
    injection Hctl; intros; by subst.
  - intros j e' Hj He' Hs'. apply elem_of_app in Hj as [Hj|Hj].
    + destruct (succeeded (net id)) eqn:Hs; [|by apply (Hcom j)].
      simpl. destruct (decide (id = e'.1)) as [Heq|Hne].
      * assert (i = j) by (by apply (keys_lookup_inj E i j (id, content) e')).
        by subst.
      * rewrite lookup_insert_ne by done. by apply (Hcom j).
    + apply list_elem_of_singleton in Hj as ->.
      rewrite He in He'. injection He' as <-. simpl in *.
      rewrite Hs'. simpl. by rewrite lookup_insert_eq.
  - intros id0 Hfail.
    assert (Hold : forall j e', j ∈ ds -> E !! j = Some e' -> e'.1 = id0 ->
                                succeeded (net id0) = false).
    { intros j e' Hj. apply Hfail, elem_of_app. by left. }
    destruct (succeeded (net id)) eqn:Hs; [|by apply Hunt].
    simpl. rewrite lookup_insert_ne; [by apply Hunt|].
    intros <-.
    assert (succeeded (net id) = false); [|congruence].
    apply (Hfail i (id, content)); [|done|done].
    apply elem_of_app. right. apply list_elem_of_here.
Qed.

Lemma settling_all_settled w1 E ds w t :
  settling w1 E net ds w t ->
  forallb (fun r => bool_decide (is_Some r)) (results t) = true <->
  forall j, j < length E -> j ∈ ds.
Proof.
  intros Hst. split.
  - intros Hall j Hj. destruct (decide (j ∈ ds)) as [|Hnot]; [done|].
    destruct (forallb_settled _ Hall j). by apply (st_pending _ _ _ _ _ _ Hst).
  - intros Hcover.
    destruct (forallb _ (results t)) eqn:Hall; [done|].
    apply forallb_pending in Hall as [j Hj].
    assert (Hlt : j < length E).
    { rewrite <- (st_length _ _ _ _ _ _ Hst). by eapply lookup_lt_Some. }
    destruct (lookup_lt_is_Some_2 E j Hlt) as [e He].
    rewrite (st_settled _ _ _ _ _ _ Hst j e (Hcover j Hlt) He) in Hj. done.
Qed.

Lemma settle_events_snoc E ds i :
  settle_events net E (ds ++ [i]) =
  (settle_events net E ds ++ [Settle i (net (entry_id E i))])%list.
Proof. unfold settle_events. by rewrite fmap_app. Qed.

Lemma settling_prefix w1 E t1 :
  NoDup E.*1 -> settling w1 E net [] w1 t1 ->
  forall ds,
    NoDup ds -> (forall i, i ∈ ds -> i < length E) ->
    (exists j, j < length E /\ j ∉ ds) ->
    exists t, settling w1 E net ds (run w1 (settle_events net E ds)) t.
Proof.
  intros Hnd Hstart ds.
  induction ds as [|i ds IH] using rev_ind; intros Hds Hbound Hleft.
  - by exists t1.
  - apply NoDup_app in Hds as (Hds & Hdisj & _).
    assert (Hi : i ∉ ds).
    { intros Hin. apply (Hdisj i Hin). apply list_elem_of_here. }
    destruct Hleft as (j & Hj & Hjnot).
    rewrite not_elem_of_app in Hjnot. destruct Hjnot as [Hjds Hji].
    destruct IH as [t Hst]; [done | | by exists j |].
    { intros i' Hi'. apply Hbound, elem_of_app. by left. }
    assert (Hlt : i < length E).
    { apply Hbound, elem_of_app. right. apply list_elem_of_here. }
    destruct (lookup_lt_is_Some_2 E i Hlt) as [e He].
    rewrite settle_events_snoc, erun_snoc. simpl.
    rewrite (entry_id_lookup E i e He).
    destruct (settling_settle w1 E ds _ t i e Hnd Hst Hi He)
      as (t' & wmid & Hst' & ->).
    destruct (forallb _ (results t')) eqn:Hall; [|by exists t'].
    pose proof (proj1 (settling_all_settled _ _ _ _ _ Hst') Hall j Hj) as Hin.
    apply elem_of_app in Hin as [?|?]; done.
Qed.

Lemma settling_final w1 E t1 order :
  NoDup E.*1 -> settling w1 E net [] w1 t1 -> E <> [] ->
  order ≡ₚ seq 0 (length E) ->
  exists t wmid,
    settling w1 E net order wmid t /\
    run w1 (settle_events net E order) = completeSave config t wmid.
Proof.
  intros Hnd Hstart HE Hperm.
  assert (Hnd_o : NoDup order) by (rewrite Hperm; apply NoDup_seq).
  assert (Hbound : forall i, i ∈ order <-> i < length E).
  { intros i. rewrite Hperm, elem_of_seq. lia. }
  destruct order as [|i ds _] using rev_ind.
  - apply Permutation_length in Hperm. rewrite length_seq in Hperm.
    destruct E; [done | simpl in Hperm; lia].
  - apply NoDup_app in Hnd_o as (Hds & Hdisj & _).
    assert (Hi : i ∉ ds).
    { intros Hin. apply (Hdisj i Hin). apply list_elem_of_here. }
    assert (Hlt : i < length E).
    { apply Hbound, elem_of_app. right. apply list_elem_of_here. }
    destruct (settling_prefix w1 E t1 Hnd Hstart ds Hds) as [t Hst].
    { intros i' Hi'. apply Hbound, elem_of_app. by left. }
    { by exists i. }
    destruct (lookup_lt_is_Some_2 E i Hlt) as [e He].
    rewrite settle_events_snoc, erun_snoc. simpl.
    rewrite (entry_id_lookup E i e He).
    destruct (settling_settle w1 E ds _ t i e Hnd Hst Hi He)
      as (t' & wmid & Hst' & ->).
    exists t', wmid. split; [done|].
    rewrite (proj2 (settling_all_settled _ _ _ _ _ Hst')); [done|].
    intros j Hj. by apply Hbound.
Qed.

Lemma final_results w1 E order wmid t :
  (forall i, i < length E -> i ∈ order) ->
  settling w1 E net order wmid t ->
  results t = settled_results net E.
Proof.
  intros Hcover Hst. apply list_eq. intros i.
  unfold settled_results. rewrite list_lookup_fmap.
  destruct (E !! i) as [e|] eqn:He; simpl.
  - apply (st_settled _ _ _ _ _ _ Hst); [|done].
    apply Hcover. by eapply lookup_lt_Some.
  - apply lookup_ge_None. rewrite (st_length _ _ _ _ _ _ Hst).
    by apply lookup_ge_None.
Qed.

Lemma collectErrors_omap (rs : list (option Settlement)) :
  collectErrors rs =
  omap (fun r => match r with
                 | Some (rejected reason) => Some (errorMessage reason)
                 | _ => None
                 end) rs.
Proof.
  unfold collectErrors.
  enough (Hgen : forall acc,
             foldl (fun errors result =>
                      match result with
                      | Some (rejected reason) =>
                          (errors ++ [errorMessage reason])%list
                      | _ => errors
                      end) acc rs
             = (acc ++ omap (fun r => match r with
                                      | Some (rejected reason) =>
                                          Some (errorMessage reason)
                                      | _ => None
                                      end) rs)%list)
    by apply Hgen.
  induction rs as [|r rs IH]; intros acc; csimpl; [by rewrite app_nil_r|].
  destruct r as [[|reason]|]; rewrite IH; try done.
  by rewrite <- app_assoc.
Qed.

Lemma collectErrors_settled E :
  collectErrors (settled_results net E) = omap (error_of net) E.
Proof.
  rewrite collectErrors_omap. unfold settled_results, error_of.
  induction E as [|e E IH]; csimpl; [done|].
  rewrite IH. by destruct (settlement_of e.1 (net e.1)).
Qed.

Lemma error_of_None e : error_of net e = None <-> succeeded (net e.1) = true.
Proof.
  unfold error_of. rewrite <- (settlement_fulfilled e.1).
  by destruct (settlement_of e.1 (net e.1)).
Qed.

Lemma errors_count E :
  length (omap (error_of net) E)
  + length (filter (fun e => succeeded (net e.1) = true) E)
  = length E.
Proof.
  induction E as [|e E IH]; csimpl; [done|].
  destruct (error_of net e) as [msg|] eqn:Herr.
  - rewrite filter_cons_False; [simpl; lia|].
    intros Hs. apply error_of_None in Hs. congruence.
  - rewrite filter_cons_True by (by apply error_of_None). simpl. lia.
Qed.

Lemma dirty_keys_NoDup c : NoDup (JsMap.keys (getDirtyElements c)).
Proof.
  unfold getDirtyElements.
  enough (Hgen : forall els (acc : JsMap.t string),
             NoDup (JsMap.keys acc) ->
             NoDup (JsMap.keys
                      (foldl (fun dirty '(elementId, element) =>
                                let original := originalContent c !! elementId in
                                let current := innerHTML element in
                                match original with
                                | Some o =>
                                    if bool_decide (current ≠ o)
                                    then JsMap.set elementId current dirty
                                    else dirty
                                | None => dirty
                                end) acc els)))
    by (apply Hgen; apply NoDup_nil_2).
  induction els as [|[k e] els IH]; intros acc Hacc; simpl; [done|].
  apply IH. destruct (originalContent c !! k); [|done].
  case_bool_decide; [|done]. by apply NoDup_keys_set.
Qed.

Lemma get_of_lookup {V} (m : JsMap.t V) i k v :
  NoDup (JsMap.keys m) -> m !! i = Some (k, v) -> JsMap.get k m = Some v.
Proof.
  unfold JsMap.keys. revert i.
  induction m as [|[k' v'] m IH]; intros i Hnd Hi; [done|].
  csimpl in Hnd. apply NoDup_cons in Hnd as (Hk & Hnd).
  destruct i as [|i]; simpl in *.
  - injection Hi as -> ->. by rewrite decide_True.
  - rewrite decide_False; [by apply (IH i)|].
    intros ->. apply Hk. apply list_elem_of_fmap.
    exists (k, v). split; [done|]. by eapply list_elem_of_lookup_2.
Qed.

(** The dirty map at [id] depends on the registry only through the
    element's [innerHTML], and on the snapshot of [id]. *)
Lemma get_dirty_ext c c' id :
  NoDup (JsMap.keys (editableElements c)) ->
  NoDup (JsMap.keys (editableElements c')) ->
  innerHTML <$> JsMap.get id (editableElements c)
    = innerHTML <$> JsMap.get id (editableElements c') ->
  originalContent c !! id = originalContent c' !! id ->
  JsMap.get id (getDirtyElements c) = JsMap.get id (getDirtyElements c').
Proof.
  intros Hnd Hnd' Hhtml Hoc. rewrite !get_dirty by done. rewrite <- Hoc.
  destruct (JsMap.get id (editableElements c)) as [el|],
           (JsMap.get id (editableElements c')) as [el'|];
    simpl in Hhtml; try done.
  injection Hhtml as ->. done.
Qed.

Lemma stopEditing_innerHTML c id :
  innerHTML <$> JsMap.get id (editableElements (stopEditing c))
  = innerHTML <$> JsMap.get id (editableElements c).
Proof.
  unfold stopEditing.
  destruct (truthy (editingElementId c)); simpl; [|done].
  destruct (editingElementId c) as [id'|]; simpl; [|done].
  rewrite get_mutate. case_decide; [subst|done].
  by destruct (JsMap.get id (editableElements c)).
Qed.

Lemma completeSave_spec t w :
  originalContent (ctl (completeSave config t w)) = originalContent (ctl w) /\
  JsMap.keys (editableElements (ctl (completeSave config t w)))
    = JsMap.keys (editableElements (ctl w)) /\
  (forall id,
      innerHTML <$> JsMap.get id (editableElements (ctl (completeSave config t w)))
      = innerHTML <$> JsMap.get id (editableElements (ctl w))) /\
  editingElementId (ctl (completeSave config t w)) =
    (if (0 <? length (collectErrors (results t)))%nat
     then editingElementId (ctl w)
     else editingElementId (stopEditing (ctl w))) /\
  log (completeSave config t w) =
    (log w ++ [if (0 <? length (collectErrors (results t)))%nat
               then SomeElementsFailed (collectErrors (results t))
               else AllContentSaved (length (saved t))])%list.
Proof.
  unfold completeSave.
  destruct (0 <? length (collectErrors (results t)))%nat; simpl;
    split_and!; try done.
  - by destruct (stopEditing_frame (ctl w)) as (_ & _ & -> & _).
  - by destruct (stopEditing_frame (ctl w)) as (_ & _ & _ & _ & ->).
  - apply stopEditing_innerHTML.
Qed.

Lemma save_run w order :
  saving (ctl w) = false -> getDirtyElements (ctl w) <> [] ->
  order ≡ₚ seq 0 (length (getDirtyElements (ctl w))) ->
  exists t wmid,
    settling (handleSave config w) (getDirtyElements (ctl w)) net order wmid t /\
    results t = settled_results net (getDirtyElements (ctl w)) /\
    run (handleSave config w)
        (settle_events net (getDirtyElements (ctl w)) order)
      = completeSave config t wmid /\
    ctl (handleSave config w)
      = on_toolbar (tb_saving true) (set_saving true (ctl w)) /\
    log (handleSave config w) = log w.
Proof.
  intros Hs HE Hperm.
  destruct (handleSave_begin config w Hs HE) as [hdrs Hbegin].
  set (E := getDirtyElements (ctl w)) in *.
  assert (Hstart : settling (handleSave config w) E net []
                     (handleSave config w)
                     (mkSaveTask E (replicate (length E) None) [])).
  { apply settling_start. by rewrite Hbegin. }
  destruct (settling_final _ E _ order (dirty_keys_NoDup (ctl w)) Hstart
              HE Hperm) as (t & wmid & Hst & Hrun).
  exists t, wmid. split_and!; try done.
  - apply (final_results (handleSave config w) E order wmid t); [|done].
    intros i Hi. rewrite Hperm, elem_of_seq. lia.
  - by rewrite Hbegin.
  - by rewrite Hbegin.
Qed.

Lemma filter_length_all {A} (P : A -> Prop) `{forall x, Decision (P x)}
  (l : list A) :
  Forall P l -> length (filter P l) = length l.
Proof.
  induction 1 as [|x l Hx Hl IH]; [done|].
  rewrite filter_cons_True by done. simpl. by rewrite IH.
Qed.

Lemma http_error_message id (r : Response) :
  errorMessage
    (mkReason (Some (id +:+ ": " +:+ pretty (status r) +:+ " " +:+ statusText r)))
  = id +:+ ": " +:+ pretty (status r) +:+ " " +:+ statusText r.
Proof.
  unfold errorMessage, truthy. simpl.
  rewrite bool_decide_eq_false_2; [done|].
  destruct id; simpl; discriminate.
Qed.

(** One save seen from end to end: which snapshots move, which ids stay
    dirty, and what is reported. *)
Lemma batched_save_outcome w order :
  NoDup (JsMap.keys (editableElements (ctl w))) ->
  saving (ctl w) = false ->
  getDirtyElements (ctl w) <> [] ->
  order ≡ₚ seq 0 (length (getDirtyElements (ctl w))) ->
  (forall i e,
      getDirtyElements (ctl w) !! i = Some e -> succeeded (net e.1) = true ->
      originalContent
        (ctl (run (handleSave config w)
                  (settle_events net (getDirtyElements (ctl w)) order)))
        !! e.1 = Some e.2 /\
      JsMap.get e.1
        (getDirtyElements
           (ctl (run (handleSave config w)
                     (settle_events net (getDirtyElements (ctl w)) order))))
        = None) /\
  (forall i e,
      getDirtyElements (ctl w) !! i = Some e -> succeeded (net e.1) = false ->
      originalContent
        (ctl (run (handleSave config w)
                  (settle_events net (getDirtyElements (ctl w)) order)))
        !! e.1 = originalContent (ctl w) !! e.1 /\
      JsMap.get e.1
        (getDirtyElements
           (ctl (run (handleSave config w)
                     (settle_events net (getDirtyElements (ctl w)) order))))
        = Some e.2) /\
  (forall id,
      id ∉ (getDirtyElements (ctl w)).*1 ->
      originalContent
        (ctl (run (handleSave config w)
                  (settle_events net (getDirtyElements (ctl w)) order)))
        !! id = originalContent (ctl w) !! id /\
      JsMap.get id
        (getDirtyElements
           (ctl (run (handleSave config w)
                     (settle_events net (getDirtyElements (ctl w)) order))))
        = None) /\
  length (omap (error_of net) (getDirtyElements (ctl w)))
  + length (filter (fun e => succeeded (net e.1) = true)
                   (getDirtyElements (ctl w)))
  = length (getDirtyElements (ctl w)) /\
  log (run (handleSave config w)
           (settle_events net (getDirtyElements (ctl w)) order))
  = (log w ++
     [if (0 <? length (omap (error_of net) (getDirtyElements (ctl w))))%nat
      then SomeElementsFailed (omap (error_of net) (getDirtyElements (ctl w)))
      else AllContentSaved (length (getDirtyElements (ctl w)))])%list /\
  (forall e r,
      e ∈ getDirtyElements (ctl w) -> net e.1 = FetchFulfilled r ->
      ok r = false ->
      (e.1 +:+ ": " +:+ pretty (status r) +:+ " " +:+ statusText r)
        ∈ omap (error_of net) (getDirtyElements (ctl w))).
Proof.
  intros Hnd Hs HE Hperm.
  destruct (save_run w order Hs HE Hperm)
    as (t & wmid & Hst & Hres & -> & Hctl1 & Hlog1).
  set (E := getDirtyElements (ctl w)) in *.
  destruct (completeSave_spec t wmid) as (Hoc & Hkeys & Hhtml & _ & Hlog).
  assert (HndE : NoDup E.*1) by apply dirty_keys_NoDup.
  assert (Hels : editableElements (ctl wmid) = editableElements (ctl w)).
  { rewrite (st_ctl _ _ _ _ _ _ Hst). simpl. by rewrite Hctl1. }
  assert (Hoc1 : originalContent (ctl (handleSave config w))
                 = originalContent (ctl w)) by (by rewrite Hctl1).
  assert (Hcover : forall i, i < length E -> i ∈ order).
  { intros i Hi. rewrite Hperm, elem_of_seq. lia. }
  assert (Hnd' : NoDup (JsMap.keys
                          (editableElements (ctl (completeSave config t wmid))))).
  { by rewrite Hkeys, Hels. }
  assert (Hhtml' : forall id,
             innerHTML <$> JsMap.get id
                             (editableElements (ctl (completeSave config t wmid)))
             = innerHTML <$> JsMap.get id (editableElements (ctl w))).
  { intros id. by rewrite Hhtml, Hels. }
  assert (Hwas : forall i e, E !! i = Some e ->
             exists el o,
               JsMap.get e.1 (editableElements (ctl w)) = Some el /\
               originalContent (ctl w) !! e.1 = Some o /\
               innerHTML el <> o /\ e.2 = innerHTML el).
  { intros i [id content] He.
    apply (get_dirty_Some (ctl w) id content Hnd).
    by apply (get_of_lookup E i). }
  split_and!.
  - intros i e He Hsucc.
    assert (Hsnap : originalContent (ctl (completeSave config t wmid)) !! e.1
                    = Some e.2).
    { rewrite Hoc. apply (st_committed _ _ _ _ _ _ Hst i); [|done|done].
      apply Hcover. by eapply lookup_lt_Some. }
    split; [done|].
    destruct (Hwas i e He) as (el & o & Hel & _ & _ & Hcur).
    rewrite get_dirty by done. rewrite Hsnap.
    specialize (Hhtml' e.1). rewrite Hel in Hhtml'. simpl in Hhtml'.
    destruct (JsMap.get e.1 (editableElements (ctl (completeSave config t wmid))))
      as [el'|]; [|done].
    simpl in Hhtml'. injection Hhtml' as Hsame.
    rewrite bool_decide_eq_false_2; [done|]. intros Hne. apply Hne. congruence.
  - intros i e He Hfail.
    assert (Hsnap : originalContent (ctl (completeSave config t wmid)) !! e.1
                    = originalContent (ctl w) !! e.1).
    { rewrite Hoc, <- Hoc1. apply (st_untouched _ _ _ _ _ _ Hst).
      intros _ _ _ _ _. done. }
    split; [done|].
    rewrite (get_dirty_ext _ (ctl w) e.1); try done.
    destruct e as [id content]. by apply (get_of_lookup E i).
  - intros id Hid.
    assert (Hsnap : originalContent (ctl (completeSave config t wmid)) !! id
                    = originalContent (ctl w) !! id).
    { rewrite Hoc, <- Hoc1. apply (st_untouched _ _ _ _ _ _ Hst).
      intros i e _ He Heq. destruct Hid. apply list_elem_of_fmap.
      exists e. split; [done|]. by eapply list_elem_of_lookup_2. }
    split; [done|].
    rewrite (get_dirty_ext _ (ctl w) id); try done.
    by apply get_None_keys.
  - apply errors_count.
  - rewrite Hlog, Hres, collectErrors_settled, (st_log _ _ _ _ _ _ Hst), Hlog1.
    destruct (0 <? length (omap (error_of net) E))%nat eqn:Herr; [done|].
    do 3 f_equal.
    rewrite (st_saved _ _ _ _ _ _ Hst).
    rewrite filter_length_all; [by rewrite Hperm, length_seq|].
    apply Forall_forall. intros i Hi.
    assert (Hlt : i < length E).
    { rewrite Hperm, elem_of_seq in Hi. lia. }
    destruct (lookup_lt_is_Some_2 E i Hlt) as [e He].
    rewrite (entry_id_lookup E i e He). apply error_of_None.
    apply Nat.ltb_ge in Herr.
    destruct (omap (error_of net) E) as [|msg msgs] eqn:Hall;
      [|simpl in Herr; lia].
    destruct (error_of net e) as [msg|] eqn:Hmsg; [|done].
    assert (Hin : msg ∈ omap (error_of net) E).
    { apply list_elem_of_omap. exists e. split; [|done].
      by eapply list_elem_of_lookup_2. }
    rewrite Hall in Hin. by apply elem_of_nil in Hin.
  - intros e r He Hnet Hok. apply list_elem_of_omap. exists e. split; [done|].
    unfold error_of, settlement_of, saveElement. rewrite Hnet. simpl.
    rewrite Hok. simpl. f_equal. apply http_error_message.
Qed.

Lemma save_run_log w order :
  saving (ctl w) = false -> getDirtyElements (ctl w) <> [] ->
  order ≡ₚ seq 0 (length (getDirtyElements (ctl w))) ->
  log (run (handleSave config w)
           (settle_events net (getDirtyElements (ctl w)) order))
  = (log w ++
     [if (0 <? length (omap (error_of net) (getDirtyElements (ctl w))))%nat
      then SomeElementsFailed (omap (error_of net) (getDirtyElements (ctl w)))
      else AllContentSaved (length (getDirtyElements (ctl w)))])%list.
Proof.
  intros Hs HE Hperm.
  destruct (save_run w order Hs HE Hperm)
    as (t & wmid & Hst & Hres & -> & Hctl1 & Hlog1).
  set (E := getDirtyElements (ctl w)) in *.
  destruct (completeSave_spec t wmid) as (_ & _ & _ & _ & Hlog).
  rewrite Hlog, Hres, collectErrors_settled, (st_log _ _ _ _ _ _ Hst), Hlog1.
  destruct (0 <? length (omap (error_of net) E))%nat eqn:Herr; [done|].
  do 3 f_equal.
  rewrite (st_saved _ _ _ _ _ _ Hst).
  rewrite filter_length_all; [by rewrite Hperm, length_seq|].
  apply Forall_forall. intros i Hi.
  assert (Hlt : i < length E).
  { rewrite Hperm, elem_of_seq in Hi. lia. }
  destruct (lookup_lt_is_Some_2 E i Hlt) as [e He].
  rewrite (entry_id_lookup E i e He). apply error_of_None.
  apply Nat.ltb_ge in Herr.
  destruct (omap (error_of net) E) as [|msg msgs] eqn:Hall;
    [|simpl in Herr; lia].
  destruct (error_of net e) as [msg|] eqn:Hmsg; [|done].
  assert (Hin : msg ∈ omap (error_of net) E).
  { apply list_elem_of_omap. exists e. split; [|done].
    by eapply list_elem_of_lookup_2. }
  rewrite Hall in Hin. by apply elem_of_nil in Hin.
Qed.

Lemma save_run_editing w order :
  saving (ctl w) = false -> getDirtyElements (ctl w) <> [] ->
  order ≡ₚ seq 0 (length (getDirtyElements (ctl w))) ->
  editingElementId (ctl w) <> Some "" ->
  editingElementId
    (ctl (run (handleSave config w)
              (settle_events net (getDirtyElements (ctl w)) order)))
  = if (0 <? length (omap (error_of net) (getDirtyElements (ctl w))))%nat
    then editingElementId (ctl w) else None.
Proof.
  intros Hs HE Hperm Hid.
  destruct (save_run w order Hs HE Hperm)
    as (t & wmid & Hst & Hres & -> & Hctl1 & Hlog1).
  destruct (completeSave_spec t wmid) as (_ & _ & _ & Hedit & _).
  rewrite Hedit, Hres, collectErrors_settled.
  assert (Hsame : editingElementId (ctl wmid) = editingElementId (ctl w)).
  { rewrite (st_ctl _ _ _ _ _ _ Hst). simpl. by rewrite Hctl1. }
  destruct (0 <? length (omap (error_of net) (getDirtyElements (ctl w))))%nat;
    [exact Hsame|].
  apply stopEditing_clears. by rewrite Hsame.
Qed.

Lemma save_run_prefix w order k :
  saving (ctl w) = false -> getDirtyElements (ctl w) <> [] ->
  order ≡ₚ seq 0 (length (getDirtyElements (ctl w))) ->
  k < length order ->
  saving
    (ctl (run (handleSave config w)
              (take k (settle_events net (getDirtyElements (ctl w)) order))))
  = true /\
  is_Some
    (inflight
       (run (handleSave config w)
            (take k (settle_events net (getDirtyElements (ctl w)) order)))).
Proof.
  intros Hs HE Hperm Hk.
  destruct (handleSave_begin config w Hs HE) as [hdrs Hbegin].
  set (E := getDirtyElements (ctl w)) in *.
  assert (Hstart : settling (handleSave config w) E net []
                     (handleSave config w)
                     (mkSaveTask E (replicate (length E) None) [])).
  { apply settling_start. by rewrite Hbegin. }
  assert (Hnd_o : NoDup order) by (rewrite Hperm; apply NoDup_seq).
  assert (Hbound : forall i, i ∈ order -> i < length E).
  { intros i. rewrite Hperm, elem_of_seq. lia. }
  destruct (lookup_lt_is_Some_2 order k Hk) as [j Hj].
  rewrite <- (take_drop k order) in Hnd_o.
  apply NoDup_app in Hnd_o as (Htake & Hdisj & _).
  destruct (settling_prefix (handleSave config w) E _
              (dirty_keys_NoDup (ctl w)) Hstart (take k order) Htake)
    as [t Hst].
  { intros i Hi. apply Hbound.
    apply elem_of_take in Hi as (i' & Hi' & _).
    by eapply list_elem_of_lookup_2. }
  { exists j. split; [apply Hbound; by eapply list_elem_of_lookup_2|].
    intros Hin. apply (Hdisj j Hin).
    apply (list_elem_of_lookup_2 _ 0). rewrite lookup_drop.
    by rewrite Nat.add_0_r. }
  unfold settle_events. rewrite <- fmap_take.
  fold (settle_events net E (take k order)).
  rewrite (st_inflight _ _ _ _ _ _ Hst). split; [|done].
  rewrite (st_ctl _ _ _ _ _ _ Hst). simpl. by rewrite Hbegin.
Qed.

(** C7.  The completion of a save, run in any world whose edited id
    is not the empty string: when the error list it has collected is
    empty, no element is being edited afterwards; when the list is not
    empty, the element being edited is the one that was being edited
    when the completion began.  And end to end: take a save begun with
    no other save in flight over a non-empty dirty set, and let its
    requests settle in any order with any outcomes and nothing else
    happen; when the error list it reports is empty, no element is being
    edited afterwards, and otherwise the element being edited is the one
    that was being edited before the save. *)
Theorem save_deselects_iff_no_error w order :
  saving (ctl w) = false -> getDirtyElements (ctl w) <> [] ->
  order ≡ₚ seq 0 (length (getDirtyElements (ctl w))) ->
  editingElementId (ctl w) <> Some "" ->
  (forall t w',
      editingElementId (ctl w') <> Some "" ->
      (collectErrors (results t) = [] ->
       editingElementId (ctl (completeSave config t w')) = None) /\
      (collectErrors (results t) <> [] ->
       editingElementId (ctl (completeSave config t w'))
         = editingElementId (ctl w'))) /\
  (omap (error_of net) (getDirtyElements (ctl w)) = [] ->
   log (run (handleSave config w)
            (settle_events net (getDirtyElements (ctl w)) order))
     = (log w ++ [AllContentSaved (length (getDirtyElements (ctl w)))])%list /\
   editingElementId
     (ctl (run (handleSave config w)
               (settle_events net (getDirtyElements (ctl w)) order)))
     = None) /\
  (omap (error_of net) (getDirtyElements (ctl w)) <> [] ->
   log (run (handleSave config w)
            (settle_events net (getDirtyElements (ctl w)) order))
     = (log w ++ [SomeElementsFailed
                    (omap (error_of net) (getDirtyElements (ctl w)))])%list /\
   editingElementId
     (ctl (run (handleSave config w)
               (settle_events net (getDirtyElements (ctl w)) order)))
     = editingElementId (ctl w)).
Proof.
  intros Hs HE Hperm Hid. split.
  { intros t w' Hid'.
    destruct (completeSave_spec t w') as (_ & _ & _ & -> & _).
    destruct (collectErrors (results t)) as [|msg msgs]; simpl.
    - split; [intros _; by apply stopEditing_clears | done].
    - split; done. }
  rewrite (save_run_log w order Hs HE Hperm).
  rewrite (save_run_editing w order Hs HE Hperm Hid).
  destruct (omap (error_of net) (getDirtyElements (ctl w))) as [|msg msgs];
    simpl; split; done.
Qed.

(** C6.  (1) [handleSave] called while the flag is raised, or with an
    empty dirty map, returns the world it was given: no request, no
    change.  (2) In every world the page can reach, the flag is raised
    exactly when a save has been begun and one of its requests has not
    settled.  (3) No event but a save request and a settlement touches
    the flag or the save in flight.  (4) A save begun with the flag down
    over a non-empty dirty map issues one request per dirty element and
    raises the flag at once; the flag stays raised while fewer than all
    of its requests have settled, and is down, with no save in flight,
    once the last one has, whatever the outcomes. *)
Theorem saving_flag_brackets_save :
  (forall w,
      saving (ctl w) = true \/ JsMap.size (getDirtyElements (ctl w)) = 0 ->
      handleSave config w = w) /\
  (forall ls t doc es, consistent (run (initial config ls t doc) es)) /\
  (forall w e,
      e <> ToolbarSave -> (forall i o, e <> Settle i o) ->
      saving (ctl (step w e)) = saving (ctl w) /\
      inflight (step w e) = inflight w) /\
  (forall w order,
      saving (ctl w) = false -> getDirtyElements (ctl w) <> [] ->
      order ≡ₚ seq 0 (length (getDirtyElements (ctl w))) ->
      length (fetched (handleSave config w))
        = length (fetched w) + length (getDirtyElements (ctl w)) /\
      (forall k,
          k < length order ->
          saving
            (ctl (run (handleSave config w)
                      (take k (settle_events net (getDirtyElements (ctl w))
                                             order))))
          = true) /\
      saving
        (ctl (run (handleSave config w)
                  (settle_events net (getDirtyElements (ctl w)) order)))
        = false /\
      inflight
        (run (handleSave config w)
             (settle_events net (getDirtyElements (ctl w)) order))
        = None).
Proof.
  split_and!.
  - apply handleSave_guard.
  - intros ls t doc es. apply consistent_run, consistent_initial.
  - apply step_frame.
  - intros w order Hs HE Hperm. split_and!.
    + destruct (handleSave_begin config w Hs HE) as [hdrs ->]. simpl.
      by rewrite length_app, length_fmap.
    + intros k Hk. by destruct (save_run_prefix w order k Hs HE Hperm Hk).
    + destruct (save_run w order Hs HE Hperm) as (t & wmid & _ & _ & -> & _).
      by destruct (completeSave_done config t wmid).
    + destruct (save_run w order Hs HE Hperm) as (t & wmid & _ & _ & -> & _).
      by destruct (completeSave_done config t wmid).
Qed.

End BatchedSave.

(** The one dirty element of [sample_editing] is saved with success. *)
Lemma save_deselects_iff_no_error_witness :
  Editor.editingElementId
    (Editor.ctl
       (Editor.run sample_config
          (Editor.handleSave sample_config sample_editing)
          (settle_events sample_net_ok
             (Editor.getDirtyElements (Editor.ctl sample_editing)) [0])))
  = None.
Proof.
  destruct (save_deselects_iff_no_error sample_config sample_net_ok
              sample_editing [0]) as (_ & Hok & _).
  - vm_compute. reflexivity.
  - vm_compute. discriminate.
  - vm_compute. reflexivity.
  - vm_compute. discriminate.
  - apply Hok. vm_compute. reflexivity.
Defined.

Lemma saving_flag_brackets_save_witness :
  Editor.saving
    (Editor.ctl
       (Editor.run sample_config
          (Editor.handleSave sample_config sample_editing)
          (take 0
             (settle_events sample_net_ok
                (Editor.getDirtyElements (Editor.ctl sample_editing)) [0]))))
    = true /\
  Editor.saving
    (Editor.ctl
       (Editor.run sample_config
          (Editor.handleSave sample_config sample_editing)
          (settle_events sample_net_ok
             (Editor.getDirtyElements (Editor.ctl sample_editing)) [0])))
    = false.
Proof.
  destruct (saving_flag_brackets_save sample_config sample_net_ok)
    as (_ & _ & _ & Hsave).
  destruct (Hsave sample_editing [0]) as (_ & Hduring & Hafter & _).
  - vm_compute. reflexivity.
  - vm_compute. discriminate.
  - vm_compute. reflexivity.
  - split; [|exact Hafter].
    apply (Hduring 0). apply Nat.lt_0_1.
Defined.

(** C1, the failing input.  Both elements of [sample_two_dirty] are
    dirty.  The write of ["hero"] fails on the wire ([fetch] rejects
    with the message ["Failed to fetch"]); the write of ["footer"] is
    answered [500].  Both stay dirty with their snapshots untouched, and
    the report has two entries; the entry for the status failure names
    its element, the entry for the wire fault is the bare message of
    the fault and names no element. *)
Theorem transport_fault_report_lacks_id :
  let final :=
    Editor.run sample_config
      (Editor.handleSave sample_config sample_two_dirty)
      [Editor.Settle 0
         (Editor.FetchRejected (Editor.mkReason (Some "Failed to fetch")));
       Editor.Settle 1
         (Editor.FetchFulfilled
            (Editor.mkResponse false 500 "Internal Server Error" None))] in
  Editor.getDirtyElements (Editor.ctl sample_two_dirty)
    = [("hero", "Hello"); ("footer", "Ciao")] /\
  Editor.getDirtyElements (Editor.ctl final)
    = [("hero", "Hello"); ("footer", "Ciao")] /\
  Editor.originalContent (Editor.ctl final) !! "hero" = Some "Welcome" /\
  Editor.originalContent (Editor.ctl final) !! "footer" = Some "Bye" /\
  Editor.log final
    = [Editor.SomeElementsFailed
         ["Failed to fetch"; "footer: 500 Internal Server Error"]] /\
  Editor.saving (Editor.ctl final) = false.
Proof. vm_compute. split_and!; reflexivity. Qed.

(** ** The states a page can reach *)

Section Reachable.
Import Editor.
Variable config : ViewerConfig.
Implicit Types (c : EditorController) (w : World).

Lemma evolves_refl c : evolves c c.
Proof. split; [done | by left]. Qed.

Lemma evolves_trans c1 c2 c3 : evolves c1 c2 -> evolves c2 c3 -> evolves c1 c3.
Proof.
  intros [Hk12 He12] [Hk23 He23]. split; [by rewrite Hk23|].
  intros id Hid. destruct (He23 id Hid) as [Hid2|Hin].
  - by apply He12.
  - right. by rewrite <- Hk12.
Qed.

Lemma evolves_same c c' :
  editableElements c' = editableElements c ->
  editingElementId c' = editingElementId c -> evolves c c'.
Proof. intros Hels Hid. split; [by rewrite Hels | rewrite Hid; by left]. Qed.

Lemma wf_evolves c c' : wf_controller c -> evolves c c' -> wf_controller c'.
Proof.
  intros (Hnd & Hempty & Hreg) [Hkeys Hid]. unfold wf_controller.
  rewrite Hkeys. split_and!; try done.
  intros id Hedit. destruct (Hid id Hedit) as [?|?]; [by apply Hreg | done].
Qed.

Lemma wf_editing_nonempty c : wf_controller c -> editingElementId c <> Some "".
Proof. intros (_ & Hempty & Hreg) Hid. by apply Hempty, Hreg. Qed.

Lemma stopEditing_evolves c : evolves c (stopEditing c).
Proof.
  split; [by destruct (stopEditing_frame c) as (_ & _ & _ & _ & ->)|].
  unfold stopEditing.
  destruct (truthy (editingElementId c)); simpl; [|by left].
  destruct (editingElementId c) eqn:Hid; simpl; [done|].
  intros id Hid'. congruence.
Qed.

Lemma startEditing_evolves id c : evolves c (startEditing id c).
Proof.
  unfold startEditing.
  destruct (JsMap.get id (editableElements c)) as [el|] eqn:Hel;
    [|apply evolves_refl].
  split; simpl.
  - rewrite keys_mutate.
    destruct (truthy (editingElementId c)); [|done].
    destruct (editingElementId c); [apply keys_mutate | done].
  - intros id' [= <-]. right. by eapply get_Some_keys.
Qed.

Lemma handleReset_evolves c : evolves c (handleReset c).
Proof.
  unfold handleReset.
  destruct (truthy (editingElementId c)); simpl; [|apply evolves_refl].
  destruct (editingElementId c) as [id|]; [|apply evolves_refl].
  destruct (JsMap.get id (editableElements c)); [|apply evolves_refl].
  destruct (originalContent c !! id); [|apply evolves_refl].
  split; simpl; [apply keys_mutate | by left].
Qed.

Lemma input_evolves id html c : evolves c (input id html c).
Proof.
  unfold input.
  destruct (JsMap.get id (editableElements c)) as [el|]; [|apply evolves_refl].
  destruct (scmsInputHandler el); (split; simpl; [apply keys_mutate | by left]).
Qed.

Lemma clickElement_evolves id c : evolves c (clickElement id c).
Proof.
  unfold clickElement.
  destruct (JsMap.get id (editableElements c)) as [el|]; [|apply evolves_refl].
  destruct (_ && _); [apply startEditing_evolves | apply evolves_refl].
Qed.

Lemma handleDocumentClick_evolves c : evolves c (handleDocumentClick c).
Proof.
  unfold handleDocumentClick.
  destruct (negb _); [apply evolves_refl | apply stopEditing_evolves].
Qed.

Lemma showToolbar_evolves c : evolves c (showToolbar c).
Proof. unfold showToolbar. destruct (toolbar c); by apply evolves_same. Qed.

Lemma enableAuthorMode_evolves c : evolves c (enableAuthorMode c).
Proof.
  unfold enableAuthorMode.
  eapply evolves_trans; [|apply showToolbar_evolves].
  split; simpl; [apply keys_mutate_all | by left].
Qed.

Lemma enableViewerMode_evolves c : evolves c (enableViewerMode c).
Proof.
  unfold enableViewerMode.
  eapply evolves_trans; [|apply showToolbar_evolves].
  eapply evolves_trans; [|apply stopEditing_evolves].
  split; simpl; [apply keys_mutate_all | by left].
Qed.

Lemma setMode_evolves mode w : evolves (ctl w) (ctl (setMode config mode w)).
Proof.
  unfold setMode. simpl.
  eapply evolves_trans; [|by apply evolves_same].
  eapply evolves_trans;
    [|destruct mode; [apply enableAuthorMode_evolves | apply enableViewerMode_evolves]].
  by apply evolves_same.
Qed.

Lemma signOut_evolves w : evolves (ctl w) (ctl (signOut w)).
Proof.
  rewrite signOut_ctl.
  eapply evolves_trans; [|by apply evolves_same].
  eapply evolves_trans; [|apply stopEditing_evolves].
  split; simpl; [apply keys_mutate_all | by left].
Qed.

Lemma handleSignIn_evolves result w :
  evolves (ctl w) (ctl (handleSignIn config result w)).
Proof.
  unfold handleSignIn. destruct (truthy result).
  - eapply evolves_trans; [|apply setMode_evolves].
    destruct result; by apply evolves_same.
  - destruct result; apply evolves_refl.
Qed.

Lemma handleSave_evolves w : evolves (ctl w) (ctl (handleSave config w)).
Proof.
  unfold handleSave. destruct (_ || _); [apply evolves_refl|].
  by apply evolves_same.
Qed.

Lemma completeSave_evolves t w : evolves (ctl w) (ctl (completeSave config t w)).
Proof.
  unfold completeSave.
  destruct (0 <? length (collectErrors (results t)))%nat; simpl.
  - by apply evolves_same.
  - eapply evolves_trans; [apply stopEditing_evolves|]. by apply evolves_same.
Qed.

Lemma settle_evolves i o w : evolves (ctl w) (ctl (settle config i o w)).
Proof.
  unfold settle.
  destruct (inflight w) as [t|]; [|apply evolves_refl].
  destruct (entries t !! i) as [[id content]|]; [|apply evolves_refl].
  destruct (results t !! i) as [[s|]|]; try apply evolves_refl.
  assert (Hsave : evolves (ctl w)
                    (saveElement id content o (ctl w) (saved t)).1.2).
  { unfold saveElement. destruct o as [r|reason]; [|apply evolves_refl].
    destruct (ok r); simpl; [|apply evolves_refl].
    destruct (json r); [apply evolves_refl | by apply evolves_same]. }
  destruct (saveElement id content o (ctl w) (saved t)) as [[s c] sv].
  simpl in Hsave.
  destruct (forallb _ _); [|done].
  eapply evolves_trans; [exact Hsave|]. apply completeSave_evolves.
Qed.

Lemma step_evolves w e : evolves (ctl w) (ctl (Editor.step config w e)).
Proof.
  destruct e; simpl.
  - apply handleSave_evolves.
  - apply handleReset_evolves.
  - apply setMode_evolves.
  - apply signOut_evolves.
  - apply handleSignIn_evolves.
  - apply clickElement_evolves.
  - destruct (documentClick (ctl w));
      [apply handleDocumentClick_evolves | apply evolves_refl].
  - apply input_evolves.
  - apply settle_evolves.
  - apply evolves_refl.
Qed.

Lemma scan_wf (doc : list (string * HTMLElement)) :
  wf_controller (scanEditableElements doc new_controller).
Proof.
  unfold scanEditableElements, wf_controller. simpl.
  enough (Hgen : forall els : JsMap.t HTMLElement,
             NoDup (JsMap.keys els) /\ "" ∉ JsMap.keys els ->
             NoDup (JsMap.keys
                      (foldl (fun m '(elementId, element) =>
                                if truthy (Some elementId)
                                then JsMap.set elementId element m else m)
                             els doc)) /\
             "" ∉ JsMap.keys
                    (foldl (fun m '(elementId, element) =>
                              if truthy (Some elementId)
                              then JsMap.set elementId element m else m)
                           els doc)).
  { destruct (Hgen JsMap.empty) as [Hnd Hne].
    - split; [apply NoDup_nil_2 | apply not_elem_of_nil].
    - by split_and!. }
  induction doc as [|[id el] doc IH]; intros els [Hnd Hne]; simpl; [done|].
  apply IH. unfold truthy. case_bool_decide as Hid; simpl; [done|].
  split; [by apply NoDup_keys_set|].
  rewrite keys_set. case_decide; [done|].
  rewrite not_elem_of_app. split; [done|].
  intros Hin. apply list_elem_of_singleton in Hin. congruence.
Qed.

Lemma initial_wf ls t doc : wf_controller (ctl (initial config ls t doc)).
Proof.
  unfold initial, init. simpl.
  pose proof (scan_wf doc) as Hscan.
  assert (Hauth : forall w', wf_controller (ctl w') ->
                             wf_controller (ctl (setupAuthUI config w'))).
  { intros w' Hwf. unfold setupAuthUI.
    destruct (Auth.getStoredKey _ _ _) as [storedKey ls'].
    destruct (truthy storedKey).
    - eapply wf_evolves; [|apply setMode_evolves].
      eapply wf_evolves; [exact Hwf | by apply evolves_same].
    - eapply wf_evolves; [exact Hwf | by apply evolves_same]. }
  destruct (mockAuth config) as [[[] ?]|].
  - eapply wf_evolves; [|apply setMode_evolves].
    eapply wf_evolves; [exact Hscan | by apply evolves_same].
  - by apply Hauth.
  - by apply Hauth.
Qed.

(** X26.  Every world the page can reach from its load has a
    well-formed controller: the ids of the registry are distinct, none
    is empty, and the id being edited, if any, is registered.  So the
    side conditions of the statements above are met throughout the life
    of a page. *)
Lemma reachable_wf ls t doc es :
  wf_controller (ctl (Editor.run config (initial config ls t doc) es)).
Proof.
  pose proof (initial_wf ls t doc) as Hwf. revert Hwf.
  generalize (initial config ls t doc).
  induction es as [|e es IH]; intros w Hwf; [done|].
  rewrite erun_cons. apply IH. eapply wf_evolves; [exact Hwf|].
  apply step_evolves.
Qed.

End Reachable.

(** * Further properties of the code *)

(** ** The credential store and the mode preference *)

Section StoreRoundTrips.
Import Auth.
Variable config : AuthConfig.

Lemma storage_names_differ : STORAGE_KEY <> MODE_STORAGE_KEY.
Proof. discriminate. Qed.

Lemma getStoredKey_storeKey_live now k (ls : gmap string Item) t :
  (t <= now + 3600000)%Z ->
  getStoredKey config t (storeKey config now k ls)
    = (Some k, storeKey config now k ls).
Proof.
  intros Ht. unfold getStoredKey. rewrite storeKey_lookup. simpl.
  rewrite bool_decide_eq_false_2 by (by intros []).
  destruct (t >? now + 3600000)%Z eqn:Hgt; [lia | done].
Qed.

(** X1.  A key stored at [now] is read back, with storage left alone,
    at every time up to and including [now + 3,600,000]; a read at any
    later time answers [null] and removes the credential, leaving the
    storage as it was before the key was stored, minus that slot. *)
Theorem stored_key_readable_for_sixty_minutes now k (ls : gmap string Item) t :
  ((t <= now + 3600000)%Z ->
   getStoredKey config t (storeKey config now k ls)
     = (Some k, storeKey config now k ls)) /\
  ((now + 3600000 < t)%Z ->
   getStoredKey config t (storeKey config now k ls)
     = (None, delete STORAGE_KEY ls)).
Proof.
  split; [apply getStoredKey_storeKey_live|].
  intros Ht. unfold getStoredKey. rewrite storeKey_lookup. simpl.
  rewrite bool_decide_eq_false_2 by (by intros []).
  destruct (t >? now + 3600000)%Z eqn:Hgt; [|lia].
  unfold clearStoredKey, storeKey. by rewrite delete_insert_eq.
Qed.

(** X2.  The mode preference stored by one application is read back by
    that application and by no application with a different id. *)
Theorem stored_mode_round_trip (other : AuthConfig) mode
  (ls : gmap string Item) :
  getStoredMode config (storeMode config mode ls) = Some mode /\
  (config_appId other <> config_appId config ->
   getStoredMode other (storeMode config mode ls) = None).
Proof.
  unfold getStoredMode, storeMode. rewrite lookup_insert_eq. split.
  - by rewrite bool_decide_eq_false_2 by (by intros []).
  - intros Hne. rewrite bool_decide_eq_true_2; [done|]. congruence.
Qed.

Lemma getStoredKey_storage now (ls : gmap string Item) :
  (getStoredKey config now ls).2 = ls \/
  (getStoredKey config now ls).2 = delete STORAGE_KEY ls.
Proof.
  unfold getStoredKey, clearStoredKey.
  destruct (ls !! STORAGE_KEY) as [[auth| |]|]; simpl; try by left.
  case_bool_decide; [by left|].
  destruct (now >? expiresAt auth)%Z; [by right | by left].
Qed.

Lemma refreshKeyExpiry_storage t_read t_write (ls : gmap string Item) :
  refreshKeyExpiry config t_read t_write ls = ls \/
  refreshKeyExpiry config t_read t_write ls = delete STORAGE_KEY ls \/
  exists k, refreshKeyExpiry config t_read t_write ls
            = storeKey config t_write k ls.
Proof.
  pose proof (refreshKeyExpiry_spec config t_read t_write ls) as Hspec.
  destruct (getStoredKey config t_read ls).1 as [k|] eqn:Hread.
  - case_bool_decide; [by left|]. right. right. by exists k.
  - rewrite Hspec.
    destruct (getStoredKey_storage t_read ls) as [->| ->]; [by left|].
    right. by left.
Qed.

(** X3.  The credential slot and the mode slot do not interfere: no
    operation on the credential (store, clear, read with its purge,
    refresh) changes what [getStoredMode] answers, and storing a mode
    changes neither the answer of [getStoredKey] nor what its purge does
    to the credential slot. *)
Theorem credential_and_mode_slots_independent now t_read t_write k mode
  (ls : gmap string Item) :
  getStoredMode config (storeKey config now k ls) = getStoredMode config ls /\
  getStoredMode config (clearStoredKey ls) = getStoredMode config ls /\
  getStoredMode config (getStoredKey config now ls).2
    = getStoredMode config ls /\
  getStoredMode config (refreshKeyExpiry config t_read t_write ls)
    = getStoredMode config ls /\
  (getStoredKey config now (storeMode config mode ls)).1
    = (getStoredKey config now ls).1 /\
  (getStoredKey config now (storeMode config mode ls)).2
    = storeMode config mode (getStoredKey config now ls).2.
Proof.
  pose proof storage_names_differ as Hne.
  assert (Hstore : forall t k' (m : gmap string Item),
             getStoredMode config (storeKey config t k' m)
             = getStoredMode config m).
  { intros. unfold getStoredMode, storeKey. by rewrite lookup_insert_ne. }
  assert (Hclear : forall m : gmap string Item,
             getStoredMode config (delete STORAGE_KEY m)
             = getStoredMode config m).
  { intros. unfold getStoredMode. by rewrite lookup_delete_ne. }
  split_and!.
  - apply Hstore.
  - apply Hclear.
  - by destruct (getStoredKey_storage now ls) as [->| ->].
  - destruct (refreshKeyExpiry_storage t_read t_write ls)
      as [->|[->|[k' ->]]]; auto.
  - unfold getStoredKey, storeMode. rewrite lookup_insert_ne by done.
    destruct (ls !! STORAGE_KEY) as [[auth| |]|]; simpl; try done.
    case_bool_decide; [done|]. by destruct (now >? expiresAt auth)%Z.
  - unfold getStoredKey, storeMode, clearStoredKey.
    rewrite lookup_insert_ne by done.
    destruct (ls !! STORAGE_KEY) as [[auth| |]|]; simpl; try done.
    case_bool_decide; [done|].
    destruct (now >? expiresAt auth)%Z; simpl; [|done].
    by rewrite delete_insert_ne.
Qed.

Lemma getStoredKey_absent_slot t (ls : gmap string Item) :
  ls !! STORAGE_KEY = None -> getStoredKey config t ls = (None, ls).
Proof. intros Hnone. unfold getStoredKey. by rewrite Hnone. Qed.

Lemma getStoredKey_null_stays t1 t2 (ls : gmap string Item) :
  (getStoredKey config t1 ls).1 = None ->
  (getStoredKey config t2 (getStoredKey config t1 ls).2).1 = None.
Proof.
  intros Hnull.
  destruct (getStoredKey_storage t1 ls) as [Hsame|Hdel].
  - rewrite Hsame. revert Hnull Hsame. unfold getStoredKey, clearStoredKey.
    destruct (ls !! STORAGE_KEY) as [[auth| |]|] eqn:Hslot; simpl; try done.
    case_bool_decide; [done|].
    destruct (t1 >? expiresAt auth)%Z; simpl; [|done].
    intros _ Hsame. rewrite <- Hsame in Hslot.
    by rewrite lookup_delete_eq in Hslot.
  - rewrite Hdel. by rewrite getStoredKey_absent_slot by apply lookup_delete_eq.
Qed.

(** X4.  A read changes nothing for the reads that follow: once a read
    has answered [null], every later read answers [null], whatever the
    clock, until a key is stored again; and a read that has handed out a
    key has left the storage as it was. *)
Theorem null_read_is_final t1 t2 (ls : gmap string Item) :
  ((getStoredKey config t1 ls).1 = None ->
   (getStoredKey config t2 (getStoredKey config t1 ls).2).1 = None) /\
  (forall k, (getStoredKey config t1 ls).1 = Some k ->
             (getStoredKey config t1 ls).2 = ls).
Proof.
  split; [apply getStoredKey_null_stays|].
  intros k Hk. by apply getStoredKey_returned in Hk as (? & _ & _ & _ & _ & ?).
Qed.

(** X5.  [refreshKeyExpiry] prolongs a live key and nothing else: when
    the read at [t_read] hands out a non-empty key, that same key is
    readable up to [t_write + 3,600,000]; when the read answers [null],
    the store still answers [null] after the refresh, at any time. *)
Theorem refresh_prolongs_only_a_live_key t_read t_write t
  (ls : gmap string Item) :
  ((getStoredKey config t_read ls).1 = None ->
   (getStoredKey config t (refreshKeyExpiry config t_read t_write ls)).1
     = None) /\
  (forall k,
      (getStoredKey config t_read ls).1 = Some k -> k <> "" ->
      (t <= t_write + 3600000)%Z ->
      (getStoredKey config t (refreshKeyExpiry config t_read t_write ls)).1
        = Some k).
Proof.
  pose proof (refreshKeyExpiry_spec config t_read t_write ls) as Hspec.
  split.
  - intros Hnone. rewrite Hnone in Hspec. rewrite Hspec.
    by apply getStoredKey_null_stays.
  - intros k Hk Hne Ht. rewrite Hk in Hspec.
    rewrite bool_decide_eq_false_2 in Hspec by done. rewrite Hspec.
    by rewrite getStoredKey_storeKey_live.
Qed.

End StoreRoundTrips.

Lemma stored_key_readable_for_sixty_minutes_witness :
  Auth.getStoredKey sample_auth_config 3601000
    (Auth.storeKey sample_auth_config 1000 "k-9" ∅)
  = (Some "k-9", Auth.storeKey sample_auth_config 1000 "k-9" ∅).
Proof.
  destruct (stored_key_readable_for_sixty_minutes sample_auth_config
              1000 "k-9" ∅ 3601000) as (Hlive & _).
  apply Hlive. lia.
Defined.

Lemma stored_mode_round_trip_witness :
  Auth.getStoredMode (Auth.mkAuthConfig "site-b" "https://app.example")
    (Auth.storeMode sample_auth_config Auth.author ∅)
  = None.
Proof.
  destruct (stored_mode_round_trip sample_auth_config
              (Auth.mkAuthConfig "site-b" "https://app.example")
              Auth.author ∅) as (_ & Hother).
  apply Hother. simpl. discriminate.
Defined.

Lemma null_read_is_final_witness :
  (Auth.getStoredKey sample_auth_config 0
     (Auth.getStoredKey sample_auth_config 6000
        (sample_storage "site-a" 5000)).2).1
  = None.
Proof.
  destruct (null_read_is_final sample_auth_config 6000 0
              (sample_storage "site-a" 5000)) as (Hnull & _).
  apply Hnull. vm_compute. reflexivity.
Defined.

Lemma refresh_prolongs_only_a_live_key_witness :
  (Auth.getStoredKey sample_auth_config 3604000
     (Auth.refreshKeyExpiry sample_auth_config 4000 4000
        (sample_storage "site-a" 5000))).1
  = Some "k-123".
Proof.
  destruct (refresh_prolongs_only_a_live_key sample_auth_config 4000 4000
              3604000 (sample_storage "site-a" 5000)) as (_ & Hlive).
  apply Hlive.
  - vm_compute. reflexivity.
  - discriminate.
  - lia.
Defined.

(** ** The popup handshakes, continued *)

Section HandshakeLifeCycle.
Import Auth.
Variable config : AuthConfig.
Variable url_origin : string -> option string.
Variable timeout_closes_channel : bool.

Local Abbreviation step := (Auth.step config timeout_closes_channel).
Local Abbreviation run := (Auth.run config timeout_closes_channel).

Lemma resolve_settled r p : p <> Pending -> resolve r p = p.
Proof. by destruct p. Qed.

Lemma step_promise_settled w e :
  promise (hs w) <> Pending -> promise (hs (step w e)) = promise (hs w).
Proof.
  intros Hp. destruct e as [closed|origin m|]; simpl.
  - destruct (fireConnectTimeout_frame timeout_closes_channel (advance (hs w)))
      as (Hp' & _).
    unfold pollClosed. repeat case_match; simpl; try done.
    rewrite Hp'. simpl. by apply resolve_settled.
  - destruct (messenger_accepts (hs w) origin); [|done].
    unfold invoke. destruct (kind (hs w)), m; simpl; try done;
      by apply resolve_settled.
  - by destruct (deferredCleanups (hs w)).
Qed.

Lemma run_promise_settled es : forall w,
  promise (hs w) <> Pending -> promise (hs (run w es)) = promise (hs w).
Proof.
  induction es as [|e es IH]; intros w Hp; [done|].
  rewrite (run_cons config timeout_closes_channel).
  rewrite IH; rewrite step_promise_settled; done.
Qed.

(** X6.  The first outcome is final: once the promise of a handshake is
    no longer pending, no sequence of polls, calls and timeouts changes
    it; in particular a result that comes in after the popup was found
    closed does not replace the cancellation, and a popup found closed
    after the result came in does not cancel it. *)
Theorem first_outcome_is_final w es :
  promise (hs w) <> Pending -> promise (hs (run w es)) = promise (hs w).
Proof. intros Hp. by apply run_promise_settled. Qed.

Lemma login_inv_step st0 w e :
  login_inv config st0 w -> login_inv config st0 (step w e).
Proof.
  destruct w as [st t [k p cc conn ao tmo ct el dc]].
  unfold login_inv, torn_down. simpl. intros (-> & -> & Htd & Hst).
  assert (Hcase : p = Pending \/ p <> Pending)
    by (destruct p; [by left | by right | by right]).
  destruct Hcase as [->|Hp].
  - destruct e as [closed|origin m|]; simpl.
    + unfold pollClosed, fireConnectTimeout, advance, cleanup, with_promise.
      simpl. repeat (case_match; simpl in *); simplify_eq; split_and!; done.
    + unfold messenger_accepts, invoke. simpl.
      destruct (conn && bool_decide (origin ∈ ao)); simpl;
        [|by split_and!].
      destruct m; simpl; split_and!; try done.
      exists t. split; [lia | by rewrite Hst].
    + by split_and!.
  - destruct (Htd Hp) as [-> ->].
    destruct e as [closed|origin m|]; simpl.
    + unfold pollClosed, fireConnectTimeout, advance. simpl.
      destruct (ct && (tmo <=? el + POPUP_CHECK_INTERVAL)%Z); simpl;
        (split_and!; try done;
         destruct p as [|[k'|f|]|]; try done;
         destruct Hst as (t' & Ht' & Hst); exists t';
         split; [unfold POPUP_CHECK_INTERVAL; lia | done]).
    + unfold messenger_accepts. simpl. by split_and!.
    + by split_and!.
Qed.

Lemma media_inv_step st0 w e : media_inv st0 w -> media_inv st0 (step w e).
Proof.
  destruct w as [st t [k p cc conn ao tmo ct el dc]].
  unfold media_inv, torn_down. simpl. intros (-> & -> & Htd & Hcred).
  destruct e as [closed|origin m|]; simpl.
  - unfold pollClosed, fireConnectTimeout, advance, cleanup, with_promise.
    simpl.
    repeat (case_match; simpl in *); simplify_eq; split_and!; try done;
      try (intros Hp; destruct (Htd Hp) as [[? ?]|?]; simplify_eq; auto);
      try (destruct ct; simpl in *; done);
      try (intros; left; done);
      try (intros k' Hk'; destruct p as [|[]|]; simpl in Hk'; simplify_eq;
           by eapply Hcred).
  - unfold messenger_accepts, invoke. simpl.
    destruct (conn && bool_decide (origin ∈ ao)); simpl; [|by split_and!].
    destruct m; simpl; split_and!; try done;
      try (intros _; right; lia);
      try (intros k' Hk'; destruct p as [|[]|]; simpl in Hk'; simplify_eq;
           by eapply Hcred).
  - destruct dc as [|dc]; simpl; [by split_and!|].
    split_and!; try done. intros _. by left.
Qed.

Lemma login_inv_open popup st0 t0 :
  login_inv config st0 (mkWorld st0 t0 (openLoginPopup config url_origin popup)).
Proof.
  unfold login_inv, openLoginPopup, torn_down.
  destruct popup; simpl; [|by split_and!].
  destruct (url_origin (config_appUrl config)); simpl; by split_and!.
Qed.

Lemma media_inv_open popup st0 t0 :
  media_inv st0 (mkWorld st0 t0 (openMediaManager config url_origin popup)).
Proof.
  unfold media_inv, openMediaManager, torn_down.
  destruct popup; simpl; [|split_and!; try done; by left].
  destruct (url_origin (config_appUrl config)); simpl;
    split_and!; try done; by left.
Qed.

Lemma login_inv_run st0 es : forall w,
  login_inv config st0 w -> login_inv config st0 (run w es).
Proof.
  induction es as [|e es IH]; intros w Hinv; [done|].
  rewrite (run_cons config timeout_closes_channel).
  by apply IH, login_inv_step.
Qed.

Lemma media_inv_run st0 es : forall w,
  media_inv st0 w -> media_inv st0 (run w es).
Proof.
  induction es as [|e es IH]; intros w Hinv; [done|].
  rewrite (run_cons config timeout_closes_channel).
  by apply IH, media_inv_step.
Qed.

(** X7.  Every terminal outcome tears the handshake down.  A login
    handshake whose promise is no longer pending has its poll disarmed
    and its channel destroyed, whatever came before, a blocked popup and
    a malformed app URL included.  A media handshake whose promise is no
    longer pending is in that state at the latest once the next queued
    zero-delay timeout has run. *)
Theorem settled_handshake_is_torn_down popup st0 t0 es :
  (promise (hs (run (mkWorld st0 t0 (openLoginPopup config url_origin popup))
                    es)) <> Pending ->
   torn_down
     (hs (run (mkWorld st0 t0 (openLoginPopup config url_origin popup)) es))) /\
  (promise (hs (run (mkWorld st0 t0 (openMediaManager config url_origin popup))
                    es)) <> Pending ->
   torn_down
     (hs (step (run (mkWorld st0 t0 (openMediaManager config url_origin popup))
                    es)
               RunDeferred))).
Proof.
  split.
  - pose proof (login_inv_run st0 es _ (login_inv_open popup st0 t0))
      as (_ & _ & Htd & _).
    exact Htd.
  - pose proof (media_inv_run st0 es _ (media_inv_open popup st0 t0))
      as (_ & _ & Htd & _).
    intros Hp. simpl.
    destruct (Htd Hp) as [Hdown|Hqueued].
    + destruct (deferredCleanups _); [done|]. by split.
    + destruct (deferredCleanups _); [lia|]. by split.
Qed.

(** X8.  A login handshake writes the credential store only by
    resolving with a credential: while it is pending, and when it ends
    cancelled or rejected, the storage is the storage it was opened
    over; when it has resolved with key [k], the storage is that storage
    with [k] stored at some time up to now, so the key is in the store
    by the time the promise is seen resolved.  It never resolves with a
    media selection. *)
Theorem login_handshake_stores_what_it_resolves popup st0 t0 es :
  match promise (hs (run (mkWorld st0 t0
                            (openLoginPopup config url_origin popup)) es)) with
  | Fulfilled (Credential k) =>
      exists t,
        (t <= now (run (mkWorld st0 t0
                          (openLoginPopup config url_origin popup)) es))%Z /\
        storage (run (mkWorld st0 t0
                        (openLoginPopup config url_origin popup)) es)
          = storeKey config t k st0
  | Fulfilled (Selection _) => False
  | _ =>
      storage (run (mkWorld st0 t0
                      (openLoginPopup config url_origin popup)) es) = st0
  end.
Proof.
  by pose proof (login_inv_run st0 es _ (login_inv_open popup st0 t0))
    as (_ & _ & _ & Hst).
Qed.

(** X9.  A media handshake never touches the credential store and never
    resolves with a credential. *)
Theorem media_handshake_leaves_the_store popup st0 t0 es :
  storage (run (mkWorld st0 t0 (openMediaManager config url_origin popup)) es)
    = st0 /\
  (forall k,
      promise (hs (run (mkWorld st0 t0
                          (openMediaManager config url_origin popup)) es))
      <> Fulfilled (Credential k)).
Proof.
  by pose proof (media_inv_run st0 es _ (media_inv_open popup st0 t0))
    as (_ & Hst & _ & Hcred).
Qed.






End HandshakeLifeCycle.

(** A login popup found closed, then a late result from the popup. *)
Lemma first_outcome_is_final_witness :
  Auth.promise
    (Auth.hs
       (Auth.run sample_auth_config false
          (Auth.step sample_auth_config false
             (Auth.mkWorld ∅ 0
                (Auth.openLoginPopup sample_auth_config sample_url_origin true))
             (Auth.Tick true))
          [Auth.Call "https://app.example" (Auth.receiveAuthResult "late")]))
  = Auth.Fulfilled Auth.Cancelled.
Proof.
  rewrite (first_outcome_is_final sample_auth_config false).
  - vm_compute. reflexivity.
  - vm_compute. discriminate.
Defined.

Lemma settled_handshake_is_torn_down_witness :
  torn_down
    (Auth.hs
       (Auth.run sample_auth_config false
          (Auth.mkWorld ∅ 0
             (Auth.openLoginPopup sample_auth_config sample_url_origin true))
          [Auth.Tick false; Auth.Tick true])).
Proof.
  destruct (settled_handshake_is_torn_down sample_auth_config
              sample_url_origin false true ∅ 0
              [Auth.Tick false; Auth.Tick true]) as (Hlogin & _).
  apply Hlogin. vm_compute. discriminate.
Defined.


(** ** The registry of editable elements *)

Section Registry.
Import Editor.
Implicit Types (c : EditorController) (id : string).

Lemma get_set {V} k k' (v : V) (m : JsMap.t V) :
  JsMap.get k' (JsMap.set k v m) =
  if decide (k = k') then Some v else JsMap.get k' m.
Proof.
  induction m as [|[k0 v0] m IH]; simpl.
  - repeat case_decide; congruence.
  - repeat (case_decide; simpl; subst; try done).
Qed.

(** X11.  What the scan registers.  An empty [data-editable] value is
    skipped; for any other id the registry ends up holding the last
    node of the document that carries it, and an id carried by no node
    keeps the element it had. *)
Theorem scan_registers_last_node_per_id
  (doc : list (string * HTMLElement)) c id :
  JsMap.get id (editableElements (scanEditableElements doc c)) =
  if decide (id = "") then JsMap.get id (editableElements c)
  else
    match last (filter (fun kv => kv.1 = id) doc) with
    | Some kv => Some kv.2
    | None => JsMap.get id (editableElements c)
    end.
Proof.
  unfold scanEditableElements. simpl.
  destruct (decide (id = "")) as [Hid|Hid].
  - induction doc as [|[k el] doc IH] using rev_ind; [done|].
    rewrite foldl_app. simpl. unfold truthy.
    case_bool_decide as Hk; simpl; [done|].
    rewrite get_set. by rewrite decide_False by congruence.
  - induction doc as [|[k el] doc IH] using rev_ind; [done|].
    rewrite foldl_app, filter_app. simpl.
    assert (Hone : filter (fun kv : string * HTMLElement => kv.1 = id) [(k, el)]
                   = if decide (k = id) then [(k, el)] else []).
    { destruct (decide (k = id));
        [rewrite filter_cons_True by done | rewrite filter_cons_False by done];
        by rewrite filter_nil. }
    rewrite Hone. clear Hone.
    unfold truthy. case_bool_decide as Hk; simpl.
    + rewrite IH. rewrite decide_False by congruence. by rewrite app_nil_r.
    + rewrite get_set. destruct (decide (k = id)) as [->|Hkid].
      * by rewrite last_snoc.
      * rewrite IH. by rewrite app_nil_r.
Qed.

End Registry.

(** ** Two invariants of the page *)

Section PageInvariants.
Import Editor.
Variable config : ViewerConfig.
Implicit Types (c : EditorController) (w : World) (id : string).

Lemma remove_editing_class (cs l : list string) :
  "streamlined-editing" ∈ cs ->
  "streamlined-editing" ∉ classList_remove cs l.
Proof.
  intros Hin. unfold classList_remove. rewrite list_elem_of_filter.
  intros [Hnot _]. by apply Hnot.
Qed.

Lemma add_other_class (x cl : string) (l : list string) :
  x <> cl -> x ∈ classList_add cl l <-> x ∈ l.
Proof.
  intros Hne. unfold classList_add. case_decide; [done|].
  rewrite elem_of_app, list_elem_of_singleton.
  split; [intros [?|?]; [done | congruence] | by left].
Qed.

Lemma add_own_class (cl : string) (l : list string) : cl ∈ classList_add cl l.
Proof.
  unfold classList_add. case_decide; [done|].
  rewrite elem_of_app, list_elem_of_singleton. by right.
Qed.

Lemma edit_marks_pointwise c c' :
  editingElementId c' = editingElementId c ->
  (forall id el',
     JsMap.get id (editableElements c') = Some el' ->
     exists el,
       JsMap.get id (editableElements c) = Some el /\
       contenteditable el' = contenteditable el /\
       ("streamlined-editing" ∈ classList el'
        <-> "streamlined-editing" ∈ classList el)) ->
  edit_marks c -> edit_marks c'.
Proof.
  intros Hid Hpt Hm id el' Hget.
  destruct (Hpt id el' Hget) as (el & Hel & Hce & Hcl).
  destruct (Hm id el Hel) as [Hon Hoff]. rewrite Hid, Hce.
  split; intros He.
  - destruct (Hon He) as [? ?]. split; [done | by apply Hcl].
  - destruct (Hoff He) as [? Hno]. split; [done|].
    intros Hin. by apply Hno, Hcl.
Qed.

Lemma edit_marks_same c c' :
  editableElements c' = editableElements c ->
  editingElementId c' = editingElementId c ->
  edit_marks c -> edit_marks c'.
Proof. intros Hels Hid Hm. unfold edit_marks. by rewrite Hels, Hid. Qed.

Lemma edit_marks_mutate c k (f : HTMLElement -> HTMLElement) :
  (forall e, contenteditable (f e) = contenteditable e /\
             ("streamlined-editing" ∈ classList (f e)
              <-> "streamlined-editing" ∈ classList e)) ->
  edit_marks c ->
  edit_marks (set_editableElements (JsMap.mutate k f (editableElements c)) c).
Proof.
  intros Hf. apply edit_marks_pointwise; [done|].
  intros id el'. simpl. rewrite get_mutate. case_decide.
  - subst k. destruct (JsMap.get id (editableElements c)) as [el|]; [|done].
    intros [= <-]. exists el. destruct (Hf el). by split_and!.
  - intros Hel. exists el'. by split_and!.
Qed.

Lemma edit_marks_mutate_all c (f : HTMLElement -> HTMLElement) :
  (forall e, contenteditable (f e) = contenteditable e /\
             ("streamlined-editing" ∈ classList (f e)
              <-> "streamlined-editing" ∈ classList e)) ->
  edit_marks c ->
  edit_marks (set_editableElements (JsMap.mutate_all f (editableElements c)) c).
Proof.
  intros Hf. apply edit_marks_pointwise; [done|].
  intros id el'. simpl. rewrite get_mutate_all.
  destruct (JsMap.get id (editableElements c)) as [el|]; [|done].
  intros [= <-]. exists el. destruct (Hf el). by split_and!.
Qed.

Lemma edit_marks_none c :
  editingElementId c = None ->
  (forall id el, JsMap.get id (editableElements c) = Some el -> plain_node el) ->
  edit_marks c.
Proof.
  intros Hid Hplain id el Hel. rewrite Hid. split; [done|].
  intros _. by apply (Hplain id).
Qed.

Lemma stopEditing_marks c : edit_marks c -> edit_marks (stopEditing c).
Proof.
  intros Hm. unfold stopEditing.
  destruct (truthy (editingElementId c)); simpl; [|done].
  destruct (editingElementId c) as [id|] eqn:Hid; [|done].
  apply edit_marks_none; [done|]. simpl.
  intros id' el'. rewrite get_mutate. case_decide.
  - subst id'. destruct (JsMap.get id (editableElements c)) as [el|]; [|done].
    intros [= <-]. split; [done|]. simpl.
    apply remove_editing_class, list_elem_of_here.
  - intros Hel. destruct (Hm id' el' Hel) as [_ Hoff].
    apply Hoff. rewrite Hid. congruence.
Qed.

Lemma startEditing_marks id c :
  editingElementId c <> Some "" ->
  edit_marks c -> edit_marks (startEditing id c).
Proof.
  intros Hne Hm. unfold startEditing.
  destruct (JsMap.get id (editableElements c)) as [el0|] eqn:Hel0; [|done].
  intros id' el'. simpl. rewrite get_mutate. case_decide as Hsame.
  - subst id'. intros Hel'. split; [|done]. intros _.
    clear Hel0. destruct (JsMap.get id _) as [e1|]; [|done].
    simpl in Hel'. injection Hel' as <-. simpl.
    split; [done | apply add_own_class].
  - intros Hel'. split; [congruence|]. intros _.
    destruct (editingElementId c) as [prev|] eqn:Hprev.
    + assert (Htruthy : truthy (Some prev) = true).
      { unfold truthy. rewrite bool_decide_eq_false_2; [done | congruence]. }
      rewrite Htruthy in Hel'. rewrite get_mutate in Hel'.
      case_decide as Hp.
      * subst id'.
        destruct (JsMap.get prev (editableElements c)) as [e|]; [|done].
        injection Hel' as <-. split; [done|]. simpl.
        apply remove_editing_class, list_elem_of_here.
      * destruct (Hm id' el' Hel') as [_ Hoff]. apply Hoff.
        rewrite Hprev. congruence.
    + simpl in Hel'. destruct (Hm id' el' Hel') as [_ Hoff]. apply Hoff.
      by rewrite Hprev.
Qed.

Lemma strip_marks c :
  editingElementId c <> Some "" ->
  edit_marks
    (stopEditing
       (set_editableElements
          (JsMap.mutate_all
             (fun e => el_contenteditable None
                         (el_classList
                            (classList_remove
                               ["streamlined-editable"; "streamlined-editing"]) e))
             (editableElements c))
          c)).
Proof.
  intros Hne. apply edit_marks_none.
  - by apply stopEditing_clears.
  - intros id el. unfold stopEditing. simpl.
    assert (Hall : forall id' el',
              JsMap.get id'
                (JsMap.mutate_all
                   (fun e => el_contenteditable None
                               (el_classList
                                  (classList_remove
                                     ["streamlined-editable"; "streamlined-editing"])
                                  e))
                   (editableElements c)) = Some el' ->
              plain_node el').
    { intros id' el'. rewrite get_mutate_all.
      destruct (JsMap.get id' (editableElements c)); [|done].
      intros [= <-]. split; [done|]. simpl.
      apply remove_editing_class. apply list_elem_of_further, list_elem_of_here. }
    destruct (truthy (editingElementId c)); simpl; [|apply Hall].
    destruct (editingElementId c) as [d|]; simpl; [|apply Hall].
    rewrite get_mutate. case_decide; [|apply Hall].
    destruct (JsMap.get d _) as [e|]; [|done].
    intros [= <-]. split; [done|]. simpl.
    apply remove_editing_class, list_elem_of_here.
Qed.

Lemma enableAuthorMode_marks c : edit_marks c -> edit_marks (enableAuthorMode c).
Proof.
  intros Hm. unfold enableAuthorMode.
  eapply edit_marks_same;
    [| |apply (edit_marks_mutate_all c
                 (fun e => el_scmsClickHandler
                             (el_classList (classList_add "streamlined-editable") e)))].
  - unfold showToolbar. by destruct (toolbar _).
  - unfold showToolbar. by destruct (toolbar _).
  - intros e. split; [done|]. simpl. by apply add_other_class.
  - done.
Qed.

Lemma enableViewerMode_marks c :
  editingElementId c <> Some "" -> edit_marks (enableViewerMode c).
Proof.
  intros Hne. unfold enableViewerMode.
  eapply edit_marks_same; [| |apply (strip_marks c Hne)].
  - unfold showToolbar, stopEditing. simpl.
    destruct (truthy (editingElementId c)); simpl;
      [destruct (editingElementId c); simpl|]; by destruct (toolbar _).
  - unfold showToolbar, stopEditing. simpl.
    destruct (truthy (editingElementId c)); simpl;
      [destruct (editingElementId c); simpl|]; by destruct (toolbar _).
Qed.

Lemma setMode_marks mode w :
  editingElementId (ctl w) <> Some "" ->
  edit_marks (ctl w) -> edit_marks (ctl (setMode config mode w)).
Proof.
  intros Hne Hm. unfold setMode. simpl.
  eapply edit_marks_same; [reflexivity | reflexivity |].
  destruct mode.
  - apply enableAuthorMode_marks. by eapply edit_marks_same.
  - by apply enableViewerMode_marks.
Qed.

Lemma signOut_marks w :
  editingElementId (ctl w) <> Some "" -> edit_marks (ctl (signOut w)).
Proof.
  intros Hne. rewrite signOut_ctl.
  eapply edit_marks_same; [| |apply (strip_marks (ctl w) Hne)].
  - unfold removeToolbar, stopEditing. simpl.
    destruct (truthy (editingElementId (ctl w))); simpl; [|done].
    by destruct (editingElementId (ctl w)).
  - unfold removeToolbar, stopEditing. simpl.
    destruct (truthy (editingElementId (ctl w))); simpl; [|done].
    by destruct (editingElementId (ctl w)).
Qed.

Lemma completeSave_marks t w :
  edit_marks (ctl w) -> edit_marks (ctl (completeSave config t w)).
Proof.
  intros Hm. unfold completeSave.
  destruct (0 <? length (collectErrors (results t)))%nat; simpl.
  - by eapply edit_marks_same.
  - eapply edit_marks_same; [| |apply (stopEditing_marks _ Hm)]; done.
Qed.

Lemma step_marks w e :
  editingElementId (ctl w) <> Some "" ->
  edit_marks (ctl w) -> edit_marks (ctl (step config w e)).
Proof.
  intros Hne Hm. destruct e; simpl.
  - unfold handleSave. destruct (_ || _); [done|]. by eapply edit_marks_same.
  - unfold handleReset.
    destruct (truthy (editingElementId (ctl w))); simpl; [|done].
    destruct (editingElementId (ctl w)) as [id|]; [|done].
    destruct (JsMap.get id (editableElements (ctl w))); [|done].
    destruct (originalContent (ctl w) !! id) as [o|]; [|done].
    eapply edit_marks_same;
      [| |apply (edit_marks_mutate (ctl w) id (el_innerHTML o))]; done.
  - by apply setMode_marks.
  - by apply signOut_marks.
  - unfold handleSignIn. destruct (truthy result).
    + apply setMode_marks; destruct result; simpl; try done;
        by eapply edit_marks_same.
    + by destruct result.
  - unfold clickElement.
    destruct (JsMap.get elementId (editableElements (ctl w))); [|done].
    destruct (_ && _); [by apply startEditing_marks | done].
  - destruct (documentClick (ctl w)); [|done]. simpl.
    unfold handleDocumentClick.
    destruct (negb _); [done | by apply stopEditing_marks].
  - unfold input.
    destruct (JsMap.get elementId (editableElements (ctl w))) as [el|]; [|done].
    destruct (scmsInputHandler el);
      (eapply edit_marks_same;
       [| |apply (edit_marks_mutate (ctl w) elementId (el_innerHTML html))];
       done).
  - unfold settle.
    destruct (inflight w) as [t|]; [|done].
    destruct (entries t !! i) as [[id content]|]; [|done].
    destruct (results t !! i) as [[s|]|]; try done.
    assert (Hsave : edit_marks (saveElement id content o (ctl w) (saved t)).1.2).
    { unfold saveElement. destruct o as [r|reason]; [|done].
      destruct (ok r); simpl; [|done].
      destruct (json r); [done | by eapply edit_marks_same]. }
    destruct (saveElement id content o (ctl w) (saved t)) as [[s c] sv].
    simpl in Hsave.
    destruct (forallb _ _); [|done].
    by apply completeSave_marks.
  - done.
Qed.

Lemma scan_get_in (doc : list (string * HTMLElement)) c id el :
  JsMap.get id (editableElements (scanEditableElements doc c)) = Some el ->
  JsMap.get id (editableElements c) = Some el \/ (id, el) ∈ doc.
Proof.
  unfold scanEditableElements. simpl.
  induction doc as [|[k e] doc IH] using rev_ind; [by left|].
  rewrite foldl_app. simpl. unfold truthy.
  case_bool_decide as Hk; simpl.
  - intros Hget. destruct (IH Hget) as [?|?]; [by left|].
    right. rewrite elem_of_app. by left.
  - rewrite get_set. destruct (decide (k = id)) as [->|Hkid].
    + intros [= <-]. right. rewrite elem_of_app. right.
      apply list_elem_of_here.
    + intros Hget. destruct (IH Hget) as [?|?]; [by left|].
      right. rewrite elem_of_app. by left.
Qed.

Lemma initial_marks ls t doc :
  Forall (fun kv => plain_node kv.2) doc ->
  edit_marks (ctl (initial config ls t doc)).
Proof.
  intros Hdoc.
  assert (Hscan : edit_marks (scanEditableElements doc new_controller)).
  { apply edit_marks_none; [done|]. intros id el Hel.
    apply scan_get_in in Hel as [Hel|Hin]; [done|].
    rewrite Forall_forall in Hdoc. by apply (Hdoc (id, el)). }
  unfold initial, init. simpl.
  assert (Hauth : forall w', editingElementId (ctl w') <> Some "" ->
                             edit_marks (ctl w') ->
                             edit_marks (ctl (setupAuthUI config w'))).
  { intros w' Hne Hm. unfold setupAuthUI.
    destruct (Auth.getStoredKey _ _ _) as [storedKey ls'].
    destruct (truthy storedKey).
    - apply setMode_marks; [done | by eapply edit_marks_same].
    - by eapply edit_marks_same. }
  destruct (mockAuth config) as [[[] ?]|].
  - apply setMode_marks; [done | by eapply edit_marks_same].
  - by apply Hauth.
  - by apply Hauth.
Qed.

(** X14.  On a page whose markup does not itself make a node editable,
    the element being edited, and no other registered element, has
    [contenteditable="true"] and the class [streamlined-editing],
    whatever the page has been through since it was loaded. *)
Theorem only_the_selected_element_is_editable ls t doc es :
  Forall (fun kv => plain_node kv.2) doc ->
  edit_marks (ctl (run config (initial config ls t doc) es)).
Proof.
  intros Hdoc.
  pose proof (initial_wf config ls t doc) as Hwf.
  pose proof (initial_marks ls t doc Hdoc) as Hm.
  revert Hwf Hm. generalize (initial config ls t doc).
  induction es as [|e es IH]; intros w Hwf Hm; [done|].
  rewrite erun_cons. apply IH.
  - eapply wf_evolves; [exact Hwf | apply step_evolves].
  - apply step_marks; [by apply wf_editing_nonempty | done].
Qed.

Ltac synced_toolbar Hs :=
  let t := fresh "t" in
  let Ht := fresh "Ht" in
  intros t; simpl;
  match goal with
  | |- context [toolbar ?c] =>
      destruct (toolbar c) as [?|] eqn:Ht; simpl; [|done];
      intros [= <-]; simpl; destruct (Hs _ Ht); by split
  end.

Lemma synced_frame c c' :
  toolbar c' = toolbar c -> currentMode c' = currentMode c ->
  editingElementId c' = editingElementId c ->
  toolbar_synced c -> toolbar_synced c'.
Proof. intros Ht Hmode Hid Hs. unfold toolbar_synced. by rewrite Ht, Hmode, Hid. Qed.

Lemma synced_hasChanges b c :
  toolbar_synced c -> toolbar_synced (on_toolbar (tb_hasChanges b) c).
Proof. intros Hs. unfold on_toolbar. synced_toolbar Hs. Qed.

Lemma synced_saving b c :
  toolbar_synced c -> toolbar_synced (on_toolbar (tb_saving b) c).
Proof. intros Hs. unfold on_toolbar. synced_toolbar Hs. Qed.

Lemma showToolbar_synced c : toolbar_synced (showToolbar c).
Proof.
  unfold showToolbar, toolbar_synced.
  destruct (toolbar c); simpl; by intros ? [= <-].
Qed.

Lemma stopEditing_synced c : toolbar_synced c -> toolbar_synced (stopEditing c).
Proof.
  intros Hs. unfold stopEditing.
  destruct (truthy (editingElementId c)); simpl; [|done].
  destruct (editingElementId c); [|done].
  unfold on_toolbar. synced_toolbar Hs.
Qed.

Lemma startEditing_synced id c :
  toolbar_synced c -> toolbar_synced (startEditing id c).
Proof.
  intros Hs. unfold startEditing.
  destruct (JsMap.get id (editableElements c)); [|done].
  unfold on_toolbar. synced_toolbar Hs.
Qed.

Lemma setMode_synced mode w : toolbar_synced (ctl (setMode config mode w)).
Proof.
  unfold setMode. simpl.
  assert (Hshown : toolbar_synced
                     (match mode with
                      | Auth.author => enableAuthorMode (set_currentMode mode (ctl w))
                      | Auth.viewer => enableViewerMode (set_currentMode mode (ctl w))
                      end) /\
                   currentMode
                     (match mode with
                      | Auth.author => enableAuthorMode (set_currentMode mode (ctl w))
                      | Auth.viewer => enableViewerMode (set_currentMode mode (ctl w))
                      end) = mode).
  { destruct mode.
    - split; [apply showToolbar_synced|].
      unfold enableAuthorMode, showToolbar. by destruct (toolbar _).
    - split; [apply showToolbar_synced|].
      unfold enableViewerMode, showToolbar.
      destruct (toolbar _); simpl;
        by destruct (stopEditing_frame
                       (set_documentClick false
                          (set_editableElements
                             (JsMap.mutate_all
                                (fun e => el_contenteditable None
                                            (el_classList
                                               (classList_remove
                                                  ["streamlined-editable";
                                                   "streamlined-editing"]) e))
                                (editableElements (ctl w)))
                             (set_currentMode Auth.viewer (ctl w)))))
          as (_ & -> & _). }
  destruct Hshown as [Hs Hmode]. revert Hs Hmode.
  generalize (match mode with
              | Auth.author => enableAuthorMode (set_currentMode mode (ctl w))
              | Auth.viewer => enableViewerMode (set_currentMode mode (ctl w))
              end).
  intros c Hs Hmode t. unfold on_toolbar. simpl.
  destruct (toolbar c) as [t0|] eqn:Ht; simpl; [|done].
  intros [= <-]. simpl. destruct (Hs _ Ht). by split.
Qed.

Lemma completeSave_synced t w :
  toolbar_synced (ctl w) -> toolbar_synced (ctl (completeSave config t w)).
Proof.
  intros Hs. unfold completeSave.
  destruct (0 <? length (collectErrors (results t)))%nat; simpl.
  - eapply synced_frame;
      [| | |apply (synced_saving false), (synced_hasChanges
                                            (0 <? JsMap.size (getDirtyElements (ctl w)))%nat),
            Hs]; done.
  - eapply synced_frame;
      [| | |apply (synced_saving false),
            (synced_hasChanges
               (0 <? JsMap.size (getDirtyElements (stopEditing (ctl w))))%nat),
            stopEditing_synced, Hs]; done.
Qed.

Lemma step_synced w e :
  toolbar_synced (ctl w) -> toolbar_synced (ctl (step config w e)).
Proof.
  intros Hs. destruct e; simpl.
  - unfold handleSave. destruct (_ || _); [done|]. simpl.
    eapply synced_frame; [| | |apply (synced_saving true), Hs]; done.
  - unfold handleReset.
    destruct (truthy (editingElementId (ctl w))); simpl; [|done].
    destruct (editingElementId (ctl w)) as [id|] eqn:Hid; [|done].
    destruct (JsMap.get id (editableElements (ctl w))); [|done].
    destruct (originalContent (ctl w) !! id) as [o|]; [|done].
    unfold updateToolbarHasChanges. apply synced_hasChanges.
    eapply synced_frame; [| | |exact Hs]; done.
  - apply setMode_synced.
  - by intros t'.
  - unfold handleSignIn. destruct (truthy result).
    + apply setMode_synced.
    + by destruct result.
  - unfold clickElement.
    destruct (JsMap.get elementId (editableElements (ctl w))); [|done].
    destruct (_ && _); [by apply startEditing_synced | done].
  - destruct (documentClick (ctl w)); [|done]. simpl.
    unfold handleDocumentClick.
    destruct (negb _); [done | by apply stopEditing_synced].
  - unfold input.
    destruct (JsMap.get elementId (editableElements (ctl w))) as [el|]; [|done].
    destruct (scmsInputHandler el).
    + unfold updateToolbarHasChanges. apply synced_hasChanges.
      eapply synced_frame; [| | |exact Hs]; done.
    + eapply synced_frame; [| | |exact Hs]; done.
  - unfold settle.
    destruct (inflight w) as [t|]; [|done].
    destruct (entries t !! i) as [[id content]|]; [|done].
    destruct (results t !! i) as [[s|]|]; try done.
    assert (Hsave : toolbar_synced (saveElement id content o (ctl w) (saved t)).1.2).
    { unfold saveElement. destruct o as [r|reason]; [|done].
      destruct (ok r); simpl; [|done].
      destruct (json r); [done | by eapply synced_frame]. }
    destruct (saveElement id content o (ctl w) (saved t)) as [[s c] sv].
    simpl in Hsave.
    destruct (forallb _ _); [|done].
    by apply completeSave_synced.
  - done.
Qed.

Lemma initial_synced ls t doc : toolbar_synced (ctl (initial config ls t doc)).
Proof.
  unfold initial, init. simpl.
  assert (Hauth : forall w', toolbar_synced (ctl (setupAuthUI config w'))).
  { intros w'. unfold setupAuthUI.
    destruct (Auth.getStoredKey _ _ _) as [storedKey ls'].
    destruct (truthy storedKey); [apply setMode_synced | by intros t'].  }
  destruct (mockAuth config) as [[[] ?]|];
    [apply setMode_synced | apply Hauth | apply Hauth].
Qed.

(** X15.  Whenever the page has a toolbar, the toolbar shows the
    controller's current mode and names the element being edited: the
    two are set together on every path, whatever the page has been
    through since it was loaded. *)
Theorem toolbar_shows_mode_and_selection ls t doc es :
  toolbar_synced (ctl (run config (initial config ls t doc) es)).
Proof.
  pose proof (initial_synced ls t doc) as Hs.
  revert Hs. generalize (initial config ls t doc).
  induction es as [|e es IH]; intros w Hs; [done|].
  rewrite erun_cons. apply IH. by apply step_synced.
Qed.

End PageInvariants.

Lemma only_the_selected_element_is_editable_witness :
  edit_marks (Editor.ctl sample_editing).
Proof.
  apply (only_the_selected_element_is_editable sample_config
           (sample_storage "site-a" 5000000) 1000 sample_doc
           [Editor.ToolbarModeChange Auth.author;
            Editor.ClickElement "hero";
            Editor.Input "hero" "Hello"]).
  do 2 (apply Forall_cons_2; [split; [discriminate | apply not_elem_of_nil]|]).
  apply Forall_nil_2.
Defined.

(** ** Modes and sessions *)

Section Sessions.
Import Editor.
Variable config : ViewerConfig.
Implicit Types (c : EditorController) (w : World) (id : string).

Lemma remove_class (x : string) (cs l : list string) :
  x ∈ cs -> x ∉ classList_remove cs l.
Proof.
  intros Hin. unfold classList_remove. rewrite list_elem_of_filter.
  intros [Hnot _]. by apply Hnot.
Qed.

Lemma remove_keeps_absent (x : string) (cs l : list string) :
  x ∉ l -> x ∉ classList_remove cs l.
Proof.
  intros Hnot. unfold classList_remove. rewrite list_elem_of_filter.
  intros [_ Hin]. by apply Hnot.
Qed.

Lemma mutate_all_inert (els : JsMap.t HTMLElement) id el :
  JsMap.get id
    (JsMap.mutate_all
       (fun e => el_contenteditable None
                   (el_classList
                      (classList_remove
                         ["streamlined-editable"; "streamlined-editing"]) e))
       els) = Some el ->
  inert el.
Proof.
  rewrite get_mutate_all. destruct (JsMap.get id els); [|done].
  intros [= <-]. split_and!; simpl; [done| |].
  - apply remove_class, list_elem_of_further, list_elem_of_here.
  - apply remove_class, list_elem_of_here.
Qed.

Lemma stopEditing_inert c :
  (forall id el, JsMap.get id (editableElements c) = Some el -> inert el) ->
  forall id el,
    JsMap.get id (editableElements (stopEditing c)) = Some el -> inert el.
Proof.
  intros Hall id el. unfold stopEditing.
  destruct (truthy (editingElementId c)); simpl; [|apply Hall].
  destruct (editingElementId c) as [d|]; simpl; [|apply Hall].
  rewrite get_mutate. case_decide; [|apply Hall].
  destruct (JsMap.get d (editableElements c)) as [e|] eqn:He; [|done].
  intros [= <-]. destruct (Hall d e He) as (_ & _ & Hno).
  split_and!; simpl; [done| |].
  - apply remove_class, list_elem_of_here.
  - by apply remove_keeps_absent.
Qed.

Lemma stopEditing_els_frame c c' :
  editableElements c' = editableElements c ->
  editingElementId c' = editingElementId c ->
  editableElements (stopEditing c') = editableElements (stopEditing c).
Proof.
  intros Hels Hid. unfold stopEditing. rewrite Hid.
  destruct (truthy (editingElementId c)); simpl; [|done].
  destruct (editingElementId c); simpl; [|done]. by rewrite Hels.
Qed.

Lemma showToolbar_frame c :
  editableElements (showToolbar c) = editableElements c /\
  editingElementId (showToolbar c) = editingElementId c /\
  currentMode (showToolbar c) = currentMode c /\
  originalContent (showToolbar c) = originalContent c /\
  apiKey (showToolbar c) = apiKey c /\
  documentClick (showToolbar c) = documentClick c /\
  exists t, toolbar (showToolbar c) = Some t /\ toolbar_mode t = currentMode c.
Proof.
  unfold showToolbar. destruct (toolbar c); simpl; split_and!; try done;
    by eexists.
Qed.

Lemma stopEditing_documentClick c :
  documentClick (stopEditing c) = documentClick c.
Proof.
  unfold stopEditing.
  destruct (truthy (editingElementId c)); simpl; [|done].
  by destruct (editingElementId c).
Qed.

Lemma setMode_ctl mode w :
  ctl (setMode config mode w) =
  on_toolbar (tb_mode mode)
    (match mode with
     | Auth.author => enableAuthorMode (set_currentMode mode (ctl w))
     | Auth.viewer => enableViewerMode (set_currentMode mode (ctl w))
     end).
Proof. reflexivity. Qed.

Lemma getStoredMode_storeMode (cfg : Auth.AuthConfig) mode
  (ls : gmap string Auth.Item) :
  Auth.getStoredMode cfg (Auth.storeMode cfg mode ls) = Some mode.
Proof.
  unfold Auth.getStoredMode, Auth.storeMode. rewrite lookup_insert_eq.
  by rewrite bool_decide_eq_false_2 by (by intros []).
Qed.

Lemma setMode_currentMode mode w :
  currentMode (ctl (setMode config mode w)) = mode.
Proof.
  rewrite setMode_ctl. simpl. destruct mode.
    + unfold enableAuthorMode. by destruct (showToolbar_frame
        (set_documentClick true
           (set_editableElements
              (JsMap.mutate_all
                 (fun e => el_scmsClickHandler
                             (el_classList (classList_add "streamlined-editable") e))
                 (editableElements (set_currentMode Auth.author (ctl w))))
              (set_currentMode Auth.author (ctl w))))) as (_ & _ & -> & _).
    + unfold enableViewerMode.
      destruct (showToolbar_frame
        (stopEditing
           (set_documentClick false
              (set_editableElements
                 (JsMap.mutate_all
                    (fun e => el_contenteditable None
                                (el_classList
                                   (classList_remove
                                      ["streamlined-editable"; "streamlined-editing"])
                                   e))
                    (editableElements (set_currentMode Auth.viewer (ctl w))))
                 (set_currentMode Auth.viewer (ctl w)))))) as (_ & _ & -> & _).
      by destruct (stopEditing_frame
        (set_documentClick false
           (set_editableElements
              (JsMap.mutate_all
                 (fun e => el_contenteditable None
                             (el_classList
                                (classList_remove
                                   ["streamlined-editable"; "streamlined-editing"])
                                e))
                 (editableElements (set_currentMode Auth.viewer (ctl w))))
              (set_currentMode Auth.viewer (ctl w))))) as (_ & -> & _).
Qed.

Lemma setMode_toolbar mode w :
  exists t, toolbar (ctl (setMode config mode w)) = Some t /\
             toolbar_mode t = mode.
Proof.
  rewrite setMode_ctl. unfold on_toolbar. simpl. destruct mode.
    + destruct (showToolbar_frame
        (set_documentClick true
           (set_editableElements
              (JsMap.mutate_all
                 (fun e => el_scmsClickHandler
                             (el_classList (classList_add "streamlined-editable") e))
                 (editableElements (set_currentMode Auth.author (ctl w))))
              (set_currentMode Auth.author (ctl w)))))
        as (_ & _ & _ & _ & _ & _ & t & Ht & _).
      unfold enableAuthorMode. rewrite Ht. simpl. by eexists.
    + destruct (showToolbar_frame
        (stopEditing
           (set_documentClick false
              (set_editableElements
                 (JsMap.mutate_all
                    (fun e => el_contenteditable None
                                (el_classList
                                   (classList_remove
                                      ["streamlined-editable"; "streamlined-editing"])
                                   e))
                    (editableElements (set_currentMode Auth.viewer (ctl w))))
                 (set_currentMode Auth.viewer (ctl w))))))
        as (_ & _ & _ & _ & _ & _ & t & Ht & _).
      unfold enableViewerMode. rewrite Ht. simpl. by eexists.
Qed.

Lemma setMode_documentClick mode w :
  documentClick (ctl (setMode config mode w))
    = bool_decide (mode = Auth.author).
Proof.
  rewrite setMode_ctl. simpl. destruct mode.
    + unfold enableAuthorMode, showToolbar. by destruct (toolbar _).
    + unfold enableViewerMode.
      destruct (showToolbar_frame
        (stopEditing
           (set_documentClick false
              (set_editableElements
                 (JsMap.mutate_all
                    (fun e => el_contenteditable None
                                (el_classList
                                   (classList_remove
                                      ["streamlined-editable"; "streamlined-editing"])
                                   e))
                    (editableElements (set_currentMode Auth.viewer (ctl w))))
                 (set_currentMode Auth.viewer (ctl w))))))
        as (_ & _ & _ & _ & _ & -> & _).
      by rewrite stopEditing_documentClick.
Qed.

Lemma setMode_originalContent mode w :
  originalContent (ctl (setMode config mode w)) = originalContent (ctl w).
Proof.
  rewrite setMode_ctl. simpl. destruct mode.
    + unfold enableAuthorMode, showToolbar. by destruct (toolbar _).
    + unfold enableViewerMode.
      destruct (showToolbar_frame
        (stopEditing
           (set_documentClick false
              (set_editableElements
                 (JsMap.mutate_all
                    (fun e => el_contenteditable None
                                (el_classList
                                   (classList_remove
                                      ["streamlined-editable"; "streamlined-editing"])
                                   e))
                    (editableElements (set_currentMode Auth.viewer (ctl w))))
                 (set_currentMode Auth.viewer (ctl w))))))
        as (_ & _ & _ & -> & _).
      by destruct (stopEditing_frame
        (set_documentClick false
           (set_editableElements
              (JsMap.mutate_all
                 (fun e => el_contenteditable None
                             (el_classList
                                (classList_remove
                                   ["streamlined-editable"; "streamlined-editing"])
                                e))
                 (editableElements (set_currentMode Auth.viewer (ctl w))))
              (set_currentMode Auth.viewer (ctl w))))) as (_ & _ & -> & _).
Qed.

Lemma setMode_apiKey mode w :
  apiKey (ctl (setMode config mode w)) = apiKey (ctl w).
Proof.
  rewrite setMode_ctl. simpl. destruct mode.
    + unfold enableAuthorMode, showToolbar. by destruct (toolbar _).
    + unfold enableViewerMode.
      destruct (showToolbar_frame
        (stopEditing
           (set_documentClick false
              (set_editableElements
                 (JsMap.mutate_all
                    (fun e => el_contenteditable None
                                (el_classList
                                   (classList_remove
                                      ["streamlined-editable"; "streamlined-editing"])
                                   e))
                    (editableElements (set_currentMode Auth.viewer (ctl w))))
                 (set_currentMode Auth.viewer (ctl w))))))
        as (_ & _ & _ & _ & -> & _).
      by destruct (stopEditing_frame
        (set_documentClick false
           (set_editableElements
              (JsMap.mutate_all
                 (fun e => el_contenteditable None
                             (el_classList
                                (classList_remove
                                   ["streamlined-editable"; "streamlined-editing"])
                                e))
                 (editableElements (set_currentMode Auth.viewer (ctl w))))
              (set_currentMode Auth.viewer (ctl w))))) as (_ & _ & _ & -> & _).
Qed.

(** X16.  [setMode] makes the mode current, persists it, and puts up a
    toolbar that shows it.  In author mode the click-outside listener is
    on and every registered element has its click listener and the
    class [streamlined-editable]; in viewer mode the listener is off and
    no registered element is [contenteditable] or carries a class of
    author mode.  Neither a snapshot nor the credential is touched. *)
Theorem setMode_applies_and_persists_the_mode mode w :
  currentMode (ctl (setMode config mode w)) = mode /\
  Auth.getStoredMode (authConfig config) (localStorage (setMode config mode w))
    = Some mode /\
  (exists t, toolbar (ctl (setMode config mode w)) = Some t /\
             toolbar_mode t = mode) /\
  documentClick (ctl (setMode config mode w))
    = bool_decide (mode = Auth.author) /\
  (forall id el,
     JsMap.get id (editableElements (ctl (setMode config mode w))) = Some el ->
     match mode with
     | Auth.author =>
         scmsClickHandler el = true /\
         ("streamlined-editable" ∈ classList el)
     | Auth.viewer => inert el
     end) /\
  originalContent (ctl (setMode config mode w)) = originalContent (ctl w) /\
  apiKey (ctl (setMode config mode w)) = apiKey (ctl w) /\
  localStorage (setMode config mode w) !! Auth.STORAGE_KEY
    = localStorage w !! Auth.STORAGE_KEY.
Proof.
  split_and!.
  - apply setMode_currentMode.
  - apply getStoredMode_storeMode.
  - apply setMode_toolbar.
  - apply setMode_documentClick.
  - intros id el. rewrite setMode_ctl. simpl. destruct mode.
    + unfold enableAuthorMode, showToolbar.
      assert (Hget : forall c0 : EditorController,
                editableElements c0 =
                JsMap.mutate_all
                  (fun e => el_scmsClickHandler
                              (el_classList (classList_add "streamlined-editable") e))
                  (editableElements (ctl w)) ->
                JsMap.get id (editableElements c0) = Some el ->
                scmsClickHandler el = true /\
                ("streamlined-editable" ∈ classList el)).
      { intros c0 ->. rewrite get_mutate_all.
        destruct (JsMap.get id (editableElements (ctl w))); [|done].
        intros [= <-]. split; [done|]. simpl. apply add_own_class. }
      destruct (toolbar _); by apply Hget.
    + unfold enableViewerMode.
      destruct (showToolbar_frame
        (stopEditing
           (set_documentClick false
              (set_editableElements
                 (JsMap.mutate_all
                    (fun e => el_contenteditable None
                                (el_classList
                                   (classList_remove
                                      ["streamlined-editable"; "streamlined-editing"])
                                   e))
                    (editableElements (set_currentMode Auth.viewer (ctl w))))
                 (set_currentMode Auth.viewer (ctl w))))))
        as (-> & _).
      apply stopEditing_inert. simpl. intros id' el'. apply mutate_all_inert.
  - apply setMode_originalContent.
  - apply setMode_apiKey.
  - unfold setMode, Auth.storeMode. simpl.
    by rewrite lookup_insert_ne by discriminate.
Qed.

Lemma with_ctl_id w : with_ctl (ctl w) w = w.
Proof. by destruct w. Qed.

Lemma click_inert w e :
  currentMode (ctl w) = Auth.viewer -> documentClick (ctl w) = false ->
  is_click e = true -> step config w e = w.
Proof.
  intros Hmode Hdoc He. destruct e; simpl in *; try done.
  - unfold clickElement.
    destruct (JsMap.get elementId (editableElements (ctl w))) as [el|];
      [|apply with_ctl_id].
    rewrite Hmode. rewrite bool_decide_eq_false_2 by done.
    rewrite andb_false_r. apply with_ctl_id.
  - by rewrite Hdoc.
Qed.

(** X17.  In viewer mode clicks do nothing.  Once [setMode] has put the
    page in viewer mode, no sequence of clicks, on editable elements or
    elsewhere, changes anything: the element listeners check the mode,
    and the click-outside listener is gone. *)
Theorem viewer_mode_ignores_clicks w es :
  Forall (fun e => is_click e = true) es ->
  run config (setMode config Auth.viewer w) es = setMode config Auth.viewer w.
Proof.
  pose proof (setMode_currentMode Auth.viewer w) as Hmode.
  pose proof (setMode_documentClick Auth.viewer w) as Hdoc.
  rewrite bool_decide_eq_false_2 in Hdoc by done.
  revert Hmode Hdoc. generalize (setMode config Auth.viewer w). intros w'.
  induction 3 as [|e es He Hes IH]; [done|].
  rewrite erun_cons. by rewrite click_inert.
Qed.





Lemma signOut_elements w id :
  JsMap.get id (editableElements (ctl (signOut w))) =
  JsMap.get id
    (editableElements
       (stopEditing
          (set_editableElements
             (JsMap.mutate_all
                (fun e => el_contenteditable None
                            (el_classList
                               (classList_remove
                                  ["streamlined-editable"; "streamlined-editing"])
                               e))
                (editableElements (ctl w)))
             (ctl w)))).
Proof.
  rewrite signOut_ctl. simpl. f_equal. by apply stopEditing_els_frame.
Qed.

(** X19.  Signing out ends the session.  Afterwards no read of the
    credential store answers a key, at any time; the controller has no
    key and no toolbar, and no registered element is [contenteditable]
    or carries a class of author mode.  The snapshots and the stored
    mode preference are kept. *)
Theorem signOut_ends_the_session w :
  (forall t,
     (Auth.getStoredKey (authConfig config) t (localStorage (signOut w))).1
     = None) /\
  apiKey (ctl (signOut w)) = None /\
  toolbar (ctl (signOut w)) = None /\
  (forall id el,
     JsMap.get id (editableElements (ctl (signOut w))) = Some el -> inert el) /\
  originalContent (ctl (signOut w)) = originalContent (ctl w) /\
  Auth.getStoredMode (authConfig config) (localStorage (signOut w))
    = Auth.getStoredMode (authConfig config) (localStorage w).
Proof.
  split_and!.
  - intros t. unfold signOut, Auth.clearStoredKey. simpl.
    rewrite getStoredKey_absent_slot; [done|]. apply lookup_delete_eq.
  - rewrite signOut_ctl. simpl.
    by destruct (stopEditing_frame
                   (set_editableElements
                      (JsMap.mutate_all
                         (fun e => el_contenteditable None
                            (el_classList
                               (classList_remove
                                  ["streamlined-editable"; "streamlined-editing"])
                               e))
                         (editableElements (ctl w)))
                      (set_apiKey None (ctl w)))) as (_ & _ & _ & -> & _).
  - by rewrite signOut_ctl.
  - intros id el. rewrite signOut_elements.
    apply stopEditing_inert. simpl. intros id' el'. apply mutate_all_inert.
  - rewrite signOut_ctl. simpl.
    by destruct (stopEditing_frame
                   (set_editableElements
                      (JsMap.mutate_all
                         (fun e => el_contenteditable None
                            (el_classList
                               (classList_remove
                                  ["streamlined-editable"; "streamlined-editing"])
                               e))
                         (editableElements (ctl w)))
                      (set_apiKey None (ctl w)))) as (_ & _ & -> & _).
  - unfold signOut, Auth.clearStoredKey, Auth.getStoredMode. simpl.
    by rewrite lookup_delete_ne by discriminate.
Qed.

(** X20.  What a sign-in leaves behind.  When the login popup closes
    without a credential nothing changes.  When it delivers a non-empty
    key, the controller holds that key and is in author mode with a
    toolbar, the author mode is persisted, and a read of the credential
    store at that moment answers the same key. *)
Theorem sign_in_enters_author_mode w :
  handleSignIn config None w = w /\
  (forall k, k <> "" ->
     apiKey (ctl (handleSignIn config (Some k) w)) = Some k /\
     currentMode (ctl (handleSignIn config (Some k) w)) = Auth.author /\
     is_Some (toolbar (ctl (handleSignIn config (Some k) w))) /\
     Auth.getStoredMode (authConfig config)
       (localStorage (handleSignIn config (Some k) w)) = Some Auth.author /\
     (Auth.getStoredKey (authConfig config) (clock w)
        (localStorage (handleSignIn config (Some k) w))).1 = Some k).
Proof.
  split; [done|]. intros k Hne.
  assert (Hin : handleSignIn config (Some k) w =
                setMode config Auth.author
                  (with_ctl (set_apiKey (Some k) (ctl w))
                     (with_localStorage
                        (Auth.storeKey (authConfig config) (clock w) k
                           (localStorage w)) w))).
  { unfold handleSignIn, truthy. by rewrite bool_decide_eq_false_2 by done. }
  rewrite Hin. split_and!.
  - by rewrite setMode_apiKey.
  - by rewrite setMode_currentMode.
  - destruct (setMode_toolbar Auth.author
                (with_ctl (set_apiKey (Some k) (ctl w))
                   (with_localStorage
                      (Auth.storeKey (authConfig config) (clock w) k
                         (localStorage w)) w))) as (tb & Htb & _).
    by eexists.
  - apply getStoredMode_storeMode.
  - unfold setMode. simpl. unfold Auth.getStoredKey, Auth.storeMode.
    rewrite lookup_insert_ne by discriminate.
    rewrite storeKey_lookup. simpl.
    rewrite bool_decide_eq_false_2 by (by intros []).
    destruct (clock w >? clock w + 3600000)%Z eqn:Hgt; [lia | done].
Qed.

End Sessions.

(** After [setMode("viewer")] on [sample_editing], the element that was
    being edited is registered and bare. *)
Lemma setMode_applies_and_persists_the_mode_witness :
  match JsMap.get "hero"
          (Editor.editableElements
             (Editor.ctl (Editor.setMode sample_config Auth.viewer
                            sample_editing))) with
  | Some el => inert el
  | None => False
  end.
Proof.
  destruct (setMode_applies_and_persists_the_mode sample_config Auth.viewer
              sample_editing) as (_ & _ & _ & _ & Hels & _).
  specialize (Hels "hero").
  destruct (JsMap.get "hero" _) as [el|] eqn:Hget.
  - by apply Hels.
  - vm_compute in Hget. discriminate.
Defined.

Lemma viewer_mode_ignores_clicks_witness :
  Editor.run sample_config
    (Editor.setMode sample_config Auth.viewer sample_editing)
    [Editor.ClickElement "hero"; Editor.ClickOutside]
  = Editor.setMode sample_config Auth.viewer sample_editing.
Proof.
  apply (viewer_mode_ignores_clicks sample_config sample_editing
           [Editor.ClickElement "hero"; Editor.ClickOutside]).
  do 2 (apply Forall_cons_2; [reflexivity|]). apply Forall_nil_2.
Defined.


(** After [signOut] on [sample_editing], the element that was being
    edited is registered and bare. *)
Lemma signOut_ends_the_session_witness :
  match JsMap.get "hero"
          (Editor.editableElements (Editor.ctl (Editor.signOut sample_editing)))
  with
  | Some el => inert el
  | None => False
  end.
Proof.
  destruct (signOut_ends_the_session sample_config sample_editing)
    as (_ & _ & _ & Hels & _).
  specialize (Hels "hero").
  destruct (JsMap.get "hero" _) as [el|] eqn:Hget.
  - by apply Hels.
  - vm_compute in Hget. discriminate.
Defined.

Lemma sign_in_enters_author_mode_witness :
  Editor.apiKey
    (Editor.ctl (Editor.handleSignIn sample_config (Some "k-9") sample_editing))
  = Some "k-9".
Proof.
  destruct (sign_in_enters_author_mode sample_config sample_editing)
    as (_ & Hin).
  destruct (Hin "k-9") as (Hapi & _); [discriminate | exact Hapi].
Defined.

(** ** The requests of a save *)

Section SaveRequests.
Import Editor.
Variable config : ViewerConfig.
Variable net : string -> FetchOutcome.
Implicit Types (c : EditorController) (w : World).

Lemma omap_dirty_keys_sublist (oc : gmap string string)
  (els : JsMap.t HTMLElement) :
  (omap (dirty_entry oc) els).*1 `sublist_of` els.*1.
Proof.
  induction els as [|[k e] els IH]; csimpl; [done|].
  unfold dirty_entry at 1. simpl.
  destruct (oc !! k) as [o|]; [|by apply sublist_cons].
  case_bool_decide; [by apply sublist_skip | by apply sublist_cons].
Qed.

Lemma completeSave_fetched t w : fetched (completeSave config t w) = fetched w.
Proof.
  unfold completeSave.
  by destruct (0 <? length (collectErrors (results t)))%nat.
Qed.

Lemma handleSave_fetched w :
  saving (ctl w) = false -> getDirtyElements (ctl w) <> [] ->
  fetched (handleSave config w) =
  (fetched w ++
   (saveRequest config
      (("Content-Type", "application/json")
         :: (if truthy (apiKey (ctl w)) then
               match apiKey (ctl w) with
               | Some k => [("Authorization", "Bearer " +:+ k)]
               | None => []
               end
             else []))
    <$> getDirtyElements (ctl w)))%list.
Proof.
  intros Hs Hd. unfold handleSave. rewrite Hs. unfold JsMap.size.
  by destruct (getDirtyElements (ctl w)) as [|e E] eqn:HE.
Qed.

(** X21.  What a save puts on the wire.  From the click on Save to the
    last settlement, whatever the outcomes and the order in which they
    arrive, the page sends exactly one request per dirty element and
    nothing else; no request is repeated.  Each is a [PUT] to
    [<apiUrl>/apps/<appId>/content/<id>] whose body carries, as
    [content], the [innerHTML] the element had when Save was clicked;
    the elements written are the registered ones whose snapshot differs
    from that content, in the order of the registry.  Every request has
    the header [Content-Type: application/json], and the header
    [Authorization: Bearer <key>] exactly when the controller holds a
    non-empty key. *)
Theorem save_sends_one_put_per_dirty_element w order :
  NoDup (JsMap.keys (editableElements (ctl w))) ->
  saving (ctl w) = false ->
  getDirtyElements (ctl w) <> [] ->
  order ≡ₚ seq 0 (length (getDirtyElements (ctl w))) ->
  fetched (run config (handleSave config w)
             (settle_events net (getDirtyElements (ctl w)) order))
  = (fetched w ++
     ((fun entry =>
         mkRequest
           (apiUrl config +:+ "/apps/" +:+ appId config +:+ "/content/"
              +:+ entry.1)
           "PUT"
           (("Content-Type", "application/json")
              :: match apiKey (ctl w) with
                 | Some k =>
                     if bool_decide (k = "") then []
                     else [("Authorization", "Bearer " +:+ k)]
                 | None => []
                 end)
           entry.2)
        <$> getDirtyElements (ctl w)))%list /\
  (forall i id content,
     getDirtyElements (ctl w) !! i = Some (id, content) ->
     exists el snapshot,
       JsMap.get id (editableElements (ctl w)) = Some el /\
       content = innerHTML el /\
       originalContent (ctl w) !! id = Some snapshot /\
       innerHTML el <> snapshot) /\
  NoDup (getDirtyElements (ctl w)).*1 /\
  ((getDirtyElements (ctl w)).*1
     `sublist_of` JsMap.keys (editableElements (ctl w))).
Proof.
  intros Hnd Hs HE Hperm.
  destruct (save_run config net w order Hs HE Hperm)
    as (t & wmid & Hst & _ & Hrun & _ & _).
  split_and!.
  - rewrite Hrun, completeSave_fetched, (st_fetched _ _ _ _ _ _ Hst).
    rewrite handleSave_fetched by done. f_equal.
    apply list_fmap_ext. intros i entry _. unfold saveRequest. f_equal.
    f_equal. destruct (apiKey (ctl w)) as [k|]; simpl; [|done].
    by case_bool_decide.
  - intros i id content Hi.
    destruct (get_dirty_Some (ctl w) id content Hnd)
      as (el & snapshot & Hel & Hsnap & Hne & Hcontent).
    { apply (get_of_lookup (getDirtyElements (ctl w)) i); [|done].
      apply dirty_keys_NoDup. }
    by exists el, snapshot.
  - apply dirty_keys_NoDup.
  - rewrite getDirtyElements_omap by done. apply omap_dirty_keys_sublist.
Qed.

End SaveRequests.

(** The two writes of [sample_two_dirty], coming back in the order
    footer, hero. *)
Lemma save_sends_one_put_per_dirty_element_witness :
  Editor.fetched
    (Editor.run sample_config
       (Editor.handleSave sample_config sample_two_dirty)
       (settle_events sample_net_ok
          (Editor.getDirtyElements (Editor.ctl sample_two_dirty)) [1; 0]))
  = [Editor.mkRequest "https://api.example/apps/site-a/content/hero" "PUT"
       [("Content-Type", "application/json");
        ("Authorization", "Bearer k-123")]
       "Hello";
     Editor.mkRequest "https://api.example/apps/site-a/content/footer" "PUT"
       [("Content-Type", "application/json");
        ("Authorization", "Bearer k-123")]
       "Ciao"].
Proof.
  destruct (save_sends_one_put_per_dirty_element sample_config sample_net_ok
              sample_two_dirty [1; 0]) as (Hsent & _).
  - apply (bool_decide_unpack _). vm_compute. exact I.
  - vm_compute. reflexivity.
  - vm_compute. discriminate.
  - apply (bool_decide_unpack _). vm_compute. exact I.
  - rewrite Hsent. vm_compute. reflexivity.
Defined.

(** ** The HTML editor modal *)

Section HtmlEditing.
Import Editor.
Variable normalise : string -> string.
Implicit Types (s : HtmlEditor.State) (id : string).

Lemma handleEditHtml_opens s id el :
  editingElementId (HtmlEditor.controller s) = Some id -> id <> "" ->
  JsMap.get id (editableElements (HtmlEditor.controller s)) = Some el ->
  HtmlEditor.htmlEditorModal s = None ->
  HtmlEditor.handleEditHtml s =
  HtmlEditor.mkState (HtmlEditor.controller s)
    (Some (HtmlEditor.mkModal (Some id) (innerHTML el) id)).
Proof.
  intros Hedit Hne Hel Hclosed. unfold HtmlEditor.handleEditHtml.
  rewrite Hedit, Hclosed, Hel. unfold truthy.
  by rewrite bool_decide_eq_false_2 by done.
Qed.

(** X22.  The HTML editor.  With an element selected and no modal open,
    [handleEditHtml] opens a modal on that element showing its current
    content, and asking again while it is open changes nothing.
    Cancelling leaves everything as it was.  Applying gives the text to
    the [innerHTML] setter of that element, closes the modal and keeps
    the snapshots and the selection; the element then reads back the
    text as the browser parses and serialises it, which need not be the
    text typed, and it is dirty exactly when what it reads back differs
    from its snapshot. *)
Theorem html_editor_edits_the_selected_element s id el :
  NoDup (JsMap.keys (editableElements (HtmlEditor.controller s))) ->
  editingElementId (HtmlEditor.controller s) = Some id -> id <> "" ->
  JsMap.get id (editableElements (HtmlEditor.controller s)) = Some el ->
  HtmlEditor.htmlEditorModal s = None ->
  HtmlEditor.htmlEditorModal (HtmlEditor.handleEditHtml s)
    = Some (HtmlEditor.mkModal (Some id) (innerHTML el) id) /\
  HtmlEditor.controller (HtmlEditor.handleEditHtml s) = HtmlEditor.controller s /\
  HtmlEditor.handleEditHtml (HtmlEditor.handleEditHtml s)
    = HtmlEditor.handleEditHtml s /\
  HtmlEditor.cancel (HtmlEditor.handleEditHtml s) = s /\
  (forall html,
     HtmlEditor.htmlEditorModal
       (HtmlEditor.apply normalise html (HtmlEditor.handleEditHtml s)) = None /\
     JsMap.get id
       (editableElements
          (HtmlEditor.controller
             (HtmlEditor.apply normalise html (HtmlEditor.handleEditHtml s))))
       = Some (mkElement (normalise html) (classList el) (contenteditable el)
                         (scmsClickHandler el) (scmsInputHandler el)) /\
     originalContent
       (HtmlEditor.controller
          (HtmlEditor.apply normalise html (HtmlEditor.handleEditHtml s)))
       = originalContent (HtmlEditor.controller s) /\
     editingElementId
       (HtmlEditor.controller
          (HtmlEditor.apply normalise html (HtmlEditor.handleEditHtml s)))
       = Some id /\
     JsMap.get id
       (getDirtyElements
          (HtmlEditor.controller
             (HtmlEditor.apply normalise html (HtmlEditor.handleEditHtml s))))
       = match originalContent (HtmlEditor.controller s) !! id with
         | Some o =>
             if bool_decide (normalise html ≠ o) then Some (normalise html)
             else None
         | None => None
         end).
Proof.
  intros Hnd Hedit Hne Hel Hclosed.
  rewrite (handleEditHtml_opens s id el) by done.
  split_and!; try done.
  - unfold HtmlEditor.handleEditHtml. simpl. rewrite Hedit. unfold truthy.
    by rewrite bool_decide_eq_false_2 by done.
  - destruct s as [c m]. simpl in *. by subst m.
  - intros html. unfold HtmlEditor.apply. simpl.
    assert (Hget :
              JsMap.get id
                (JsMap.mutate id (el_innerHTML (normalise html))
                   (editableElements (HtmlEditor.controller s)))
              = Some (el_innerHTML (normalise html) el)).
    { rewrite get_mutate. rewrite decide_True by done. by rewrite Hel. }
    split_and!; try done.
    rewrite get_dirty by (simpl; by rewrite keys_mutate). simpl.
    rewrite Hget. simpl.
    by destruct (originalContent (HtmlEditor.controller s) !! id).
Qed.

End HtmlEditing.

(** Markup typed with a self-closing [br] reads back without the
    slash. *)
Lemma html_editor_edits_the_selected_element_witness :
  Editor.innerHTML <$>
    JsMap.get "hero"
      (Editor.editableElements
         (HtmlEditor.controller
            (HtmlEditor.apply sample_normalise "<br/>"
               (HtmlEditor.handleEditHtml
                  (HtmlEditor.mkState (Editor.ctl sample_editing) None)))))
  = Some "<br>".
Proof.
  destruct (html_editor_edits_the_selected_element sample_normalise
              (HtmlEditor.mkState (Editor.ctl sample_editing) None) "hero"
              (Editor.mkElement "Hello"
                 ["streamlined-editable"; "streamlined-editing"]
                 (Some "true") true true)) as (_ & _ & _ & _ & Happly).
  - apply (bool_decide_unpack _). vm_compute. exact I.
  - vm_compute. reflexivity.
  - discriminate.
  - vm_compute. reflexivity.
  - reflexivity.
  - destruct (Happly "<br/>") as (_ & Hread & _). by rewrite Hread.
Defined.

(** ** Configuration from the script tag *)

Section ScriptTag.
Import Config.
Variables SDK_API_URL SDK_APP_URL : string.

Local Abbreviation getConfig := (getConfigFromScriptTag SDK_API_URL SDK_APP_URL).

(** X23.  Only the last matching script tag counts.  There is no
    configuration exactly when no tag matches or the last one has no
    app id, or an empty one, whatever the earlier tags say.  Otherwise
    the configuration carries that tag's app id; its API and app URLs
    are the tag's when given and not empty and the built-in ones
    otherwise; and mock authentication is requested only by the exact
    value ["true"], and then as enabled. *)
Theorem config_is_read_from_the_last_script_tag
  (earlier : list ScriptDataset) (tag : ScriptDataset) :
  getConfig (earlier ++ [tag])%list = getConfig [tag] /\
  (forall ls t doc,
     autoInit SDK_API_URL SDK_APP_URL (earlier ++ [tag])%list ls t doc
     = (fun cfg => Editor.initial cfg ls t doc) <$> getConfig [tag]) /\
  getConfig [] = None /\
  (getConfig [tag] = None <-> appId tag = None \/ appId tag = Some "") /\
  (forall cfg, getConfig [tag] = Some cfg ->
     appId tag = Some (Editor.appId cfg) /\
     Editor.appId cfg <> "" /\
     Editor.apiUrl cfg
       = match apiUrl tag with
         | Some u => if bool_decide (u = "") then SDK_API_URL else u
         | None => SDK_API_URL
         end /\
     Editor.appUrl cfg
       = match appUrl tag with
         | Some u => if bool_decide (u = "") then SDK_APP_URL else u
         | None => SDK_APP_URL
         end /\
     Editor.logLevel cfg = logLevel tag /\
     (mockAuth tag = Some "true" ->
      Editor.mockAuth cfg = Some (true, mockUserId tag)) /\
     (mockAuth tag <> Some "true" -> Editor.mockAuth cfg = None)).
Proof.
  assert (Hor : forall a b,
            or_else a b = match a with
                          | Some u => if bool_decide (u = "") then b else u
                          | None => b
                          end).
  { intros [u|] b; simpl; [|done]. by case_bool_decide. }
  assert (Hlast : getConfig (earlier ++ [tag])%list = getConfig [tag]).
  { unfold getConfigFromScriptTag. by rewrite last_snoc. }
  split_and!.
  - exact Hlast.
  - intros ls t doc. unfold autoInit. rewrite Hlast.
    by destruct (getConfig [tag]).
  - done.
  - unfold getConfigFromScriptTag. simpl.
    destruct (appId tag) as [app|]; [|by split; [left|]].
    unfold truthy. case_bool_decide as Happ; simpl.
    + subst app. by split; [right|].
    + split; [done|]. intros [?|[= ?]]; done.
  - intros cfg. unfold getConfigFromScriptTag. simpl.
    destruct (appId tag) as [app|]; [|done].
    unfold truthy. case_bool_decide as Happ; simpl; [done|].
    intros [= <-]. simpl. rewrite !Hor. split_and!; try done.
    + intros Hmock. by rewrite bool_decide_eq_true_2.
    + intros Hmock. by rewrite bool_decide_eq_false_2.
Qed.

End ScriptTag.

Lemma config_is_read_from_the_last_script_tag_witness :
  Editor.mockAuth
    (Editor.mkViewerConfig "https://api.example" "https://app.example"
       "site-a" None (Some (true, None)))
  = Some (true, None).
Proof.
  destruct (config_is_read_from_the_last_script_tag
              "https://api.example" "https://app.example" []
              (Config.mkDataset (Some "site-a") None None None (Some "true") None))
    as (_ & _ & _ & _ & Hcfg).
  destruct (Hcfg (Editor.mkViewerConfig "https://api.example"
                    "https://app.example" "site-a" None (Some (true, None))))
    as (_ & _ & _ & _ & _ & Hmock & _).
  - vm_compute. reflexivity.
  - apply Hmock. reflexivity.
Defined.

(** ** The height of the toolbar and the room reserved for it *)

Section ToolbarLayout.
Import ToolbarUI.

(** X24.  The room the controller reserves at the bottom of the page is
    the height of the collapsed toolbar at the same window width: 56
    below 640 pixels and 48 from there on.  The drawer, which adds 120,
    can be open only in the mobile layout: a resize to 640 or more
    closes it, and the menu button acts only in the mobile layout. *)
Theorem reserved_room_is_the_collapsed_toolbar_height
  (innerWidth : Z) (l : Layout) (es : list LayoutEvent) :
  getHeight (checkMobile innerWidth l)
    = (paddingHeight innerWidth
       + (if expanded (checkMobile innerWidth l) then 120 else 0))%Z /\
  ((640 <= innerWidth)%Z -> expanded (checkMobile innerWidth l) = false) /\
  ((expanded l = true -> isMobile l = true) ->
   expanded (foldl layoutStep l es) = true ->
   isMobile (foldl layoutStep l es) = true).
Proof.
  split_and!.
  - unfold getHeight, checkMobile, paddingHeight,
      TOOLBAR_HEIGHT_MOBILE, TOOLBAR_HEIGHT_DESKTOP.
    destruct (innerWidth <? 640)%Z; simpl; [|done].
    by destruct (expanded l).
  - intros Hw. unfold checkMobile.
    destruct (innerWidth <? 640)%Z eqn:Hlt; simpl; [lia | done].
  - revert l. induction es as [|e es IH]; intros l Hinv; simpl; [done|].
    apply IH. destruct e as [width|]; simpl.
    + unfold checkMobile. by destruct (width <? 640)%Z.
    + destruct (isMobile l) eqn:Hm; simpl; [done|].
      rewrite Hm. exact Hinv.
Qed.

End ToolbarLayout.

Lemma reserved_room_is_the_collapsed_toolbar_height_witness :
  ToolbarUI.expanded
    (ToolbarUI.checkMobile 1024 (ToolbarUI.mkLayout true true)) = false.
Proof.
  destruct (reserved_room_is_the_collapsed_toolbar_height 1024
              (ToolbarUI.mkLayout true true) []) as (_ & Hclosed & _).
  apply Hclosed. lia.
Defined.

(** ** The sync loader *)

Section LoaderScan.
Import Loader.

Lemma walkParents_truthy (parents : list (option string)) g :
  walkParents parents = Some g -> truthy (Some g) = true.
Proof.
  induction parents as [|p parents IH]; simpl; [done|].
  destruct (truthy p) eqn:Hp; [|done]. by intros ->.
Qed.

Lemma getGroupId_walk n :
  getGroupId n = walkParents (scms_group n :: parent_groups n).
Proof. reflexivity. Qed.

Lemma getGroupId_truthy n g : getGroupId n = Some g -> truthy (Some g) = true.
Proof. rewrite getGroupId_walk. apply walkParents_truthy. Qed.

Lemma scan_snoc (doc : list Node) n :
  scanEditableElements (doc ++ [n])%list =
  match node_key n, node_info n with
  | Some key, Some info => JsMap.set key info (scanEditableElements doc)
  | _, _ => scanEditableElements doc
  end.
Proof.
  unfold scanEditableElements. rewrite foldl_app. simpl.
  unfold node_key, node_info.
  destruct (getEditableInfo n) as [[id ty]|]; [|done].
  destruct (getGroupId n) as [g|] eqn:Hg; [|done].
  by rewrite (getGroupId_truthy n g Hg).
Qed.

Lemma scan_keys_NoDup (doc : list Node) :
  NoDup (JsMap.keys (scanEditableElements doc)).
Proof.
  induction doc as [|n doc IH] using rev_ind; [apply NoDup_nil_2|].
  rewrite scan_snoc. destruct (node_key n); [|done].
  destruct (node_info n); [|done]. by apply NoDup_keys_set.
Qed.

(** X27.  What the loader's scan registers.  A node is filed under its
    id, prefixed by its group and a colon when it has one; the registry
    holds, for each key, the last node of the document filed under it,
    with that node's group and type, and holds nothing else.  Two nodes
    filed under the same key leave one entry. *)
Theorem loader_scan_keeps_the_last_node_per_key (doc : list Node) key :
  JsMap.get key (scanEditableElements doc)
    = last (filter (fun n => node_key n = Some key) doc) ≫= node_info /\
  NoDup (JsMap.keys (scanEditableElements doc)).
Proof.
  split; [|apply scan_keys_NoDup].
  induction doc as [|n doc IH] using rev_ind; [done|].
  rewrite scan_snoc, filter_app.
  assert (Hone : filter (fun n => node_key n = Some key) [n]
                 = if decide (node_key n = Some key) then [n] else []).
  { destruct (decide (node_key n = Some key));
      [rewrite filter_cons_True by done | rewrite filter_cons_False by done];
      by rewrite filter_nil. }
  rewrite Hone. clear Hone.
  assert (Hboth : node_key n = None <-> node_info n = None).
  { unfold node_key, node_info. by destruct (getEditableInfo n) as [[? ?]|]. }
  destruct (node_key n) as [k|] eqn:Hk.
  - destruct (node_info n) as [info|] eqn:Hinfo;
      [|discriminate (proj2 Hboth eq_refl)].
    rewrite get_set. destruct (decide (k = key)) as [->|Hne].
    + rewrite decide_True by done. rewrite last_snoc. simpl. by rewrite Hinfo.
    + rewrite decide_False by congruence. by rewrite app_nil_r.
  - rewrite decide_False by done. rewrite app_nil_r.
    by destruct (node_info n).
Qed.

Lemma walkParents_spec (parents : list (option string)) g :
  walkParents parents = Some g <->
  g <> "" /\
  exists before after,
    parents = (before ++ Some g :: after)%list /\
    Forall (fun x => truthy x = false) before.
Proof.
  induction parents as [|p parents IH]; simpl.
  - split; [done|]. intros (_ & before & after & Heq & _).
    by destruct before.
  - destruct (truthy p) eqn:Hp.
    + split.
      * intros ->. split.
        -- intros ->. done.
        -- exists [], parents. split; [done | apply Forall_nil_2].
      * intros (Hne & before & after & Heq & Hfalsy).
        destruct before as [|b before]; simpl in Heq.
        -- by injection Heq as ->.
        -- injection Heq as -> _. apply Forall_cons in Hfalsy as [Hb _].
           congruence.
    + rewrite IH. split.
      * intros (Hne & before & after & -> & Hfalsy). split; [done|].
        exists (p :: before), after. split; [done|]. by apply Forall_cons_2.
      * intros (Hne & before & after & Heq & Hfalsy). split; [done|].
        destruct before as [|b before]; simpl in Heq.
        -- injection Heq as -> _. unfold truthy in Hp.
           rewrite bool_decide_eq_false_2 in Hp by done. done.
        -- injection Heq as _ ->. apply Forall_cons in Hfalsy as [_ Hrest].
           by exists before, after.
Qed.

Lemma firstType_skip n ty0 (types : list EditableType) id ty :
  truthy (scms n ty0) = false ->
  (firstType n types = Some (id, ty) <->
   scms n ty = Some id /\ id <> "" /\
   exists before after,
     types = (before ++ ty :: after)%list /\
     Forall (fun ty' => truthy (scms n ty') = false) before) ->
  (firstType n types = Some (id, ty) <->
   scms n ty = Some id /\ id <> "" /\
   exists before after,
     ty0 :: types = (before ++ ty :: after)%list /\
     Forall (fun ty' => truthy (scms n ty') = false) before).
Proof.
  intros Hty0 IH. rewrite IH. split.
  - intros (Hid & Hne & before & after & -> & Hfalsy). split_and!; try done.
    exists (ty0 :: before), after. split; [done|]. by apply Forall_cons_2.
  - intros (Hid & Hne & before & after & Heq & Hfalsy).
    split_and!; try done.
    destruct before as [|b before]; simpl in Heq.
    + injection Heq as -> _. rewrite Hid in Hty0. unfold truthy in Hty0.
      rewrite bool_decide_eq_false_2 in Hty0 by done. done.
    + injection Heq as _ ->. apply Forall_cons in Hfalsy as [_ Hrest].
      by exists before, after.
Qed.

Lemma firstType_spec n (types : list EditableType) id ty :
  firstType n types = Some (id, ty) <->
  scms n ty = Some id /\ id <> "" /\
  exists before after,
    types = (before ++ ty :: after)%list /\
    Forall (fun ty' => truthy (scms n ty') = false) before.
Proof.
  induction types as [|ty0 types IH].
  - split; [done|]. intros (_ & _ & before & after & Heq & _).
    by destruct before.
  - cbn [firstType]. destruct (scms n ty0) as [id0|] eqn:Hid0.
    + destruct (truthy (Some id0)) eqn:Hty0.
      * split.
        -- intros [= -> ->]. split_and!; [done| |].
           ++ intros ->. done.
           ++ exists [], types. split; [done | apply Forall_nil_2].
        -- intros (Hid & Hne & before & after & Heq & Hfalsy).
           destruct before as [|b before]; simpl in Heq.
           ++ injection Heq as ->. congruence.
           ++ injection Heq as -> _. apply Forall_cons in Hfalsy as [Hb _].
              rewrite Hid0 in Hb. congruence.
      * apply firstType_skip; [by rewrite Hid0 | exact IH].
    + apply firstType_skip; [by rewrite Hid0 | exact IH].
Qed.

(** X28.  How the loader resolves the group and the type of a node.
    The group is the first non-empty [data-scms-group] found on the node
    itself and then on its ancestors, nearest first, and there is none
    when every one of them is absent or empty.  The id and type come
    from the first of [data-scms-text], [-html], [-image], [-link], in
    that order, whose value is not empty. *)
Theorem loader_resolves_group_and_type n :
  (forall g,
     getGroupId n = Some g <->
     g <> "" /\
     exists before after,
       scms_group n :: parent_groups n = (before ++ Some g :: after)%list /\
       Forall (fun x => truthy x = false) before) /\
  (getGroupId n = None <->
   Forall (fun x => truthy x = false) (scms_group n :: parent_groups n)) /\
  (forall id ty,
     getEditableInfo n = Some (id, ty) <->
     scms n ty = Some id /\ id <> "" /\
     exists before after,
       [text; html; image; link] = (before ++ ty :: after)%list /\
       Forall (fun ty' => truthy (scms n ty') = false) before).
Proof.
  split_and!.
  - intros g. rewrite getGroupId_walk. apply walkParents_spec.
  - rewrite getGroupId_walk.
    induction (scms_group n :: parent_groups n) as [|p ps IH]; simpl.
    + split; [intros _; apply Forall_nil_2 | done].
    + destruct (truthy p) eqn:Hp.
      * split; [intros ->; done|].
        intros Hall. apply Forall_cons in Hall as [Hp' _]. congruence.
      * rewrite IH. split; [by apply Forall_cons_2|].
        intros Hall. by apply Forall_cons in Hall as [_ ?].
  - intros id ty. apply firstType_spec.
Qed.

End LoaderScan.

Section LoaderContent.
Import Loader.
Variable parse : string -> option (string -> option string).

Lemma assign_nil info : assign [] info = info.
Proof.
  destruct info as [[? ? ? ? ? ? ? ws] ? ?]. unfold assign. simpl.
  by rewrite app_nil_r.
Qed.

Lemma assign_assign ws1 ws2 info :
  assign ws2 (assign ws1 info) = assign (ws1 ++ ws2) info.
Proof. unfold assign. simpl. by rewrite app_assoc. Qed.

Lemma fmap_assign_nil (x : option EditableElementInfo) : assign [] <$> x = x.
Proof. destruct x; simpl; [by rewrite assign_nil | done]. Qed.

Lemma fmap_assign_assign ws1 ws2 (x : option EditableElementInfo) :
  assign ws2 <$> (assign ws1 <$> x) = assign (ws1 ++ ws2) <$> x.
Proof. destruct x; simpl; [by rewrite assign_assign | done]. Qed.

Lemma updateElement_spec (r : JsMap.t EditableElementInfo) key content :
  JsMap.keys (updateElement parse r key content) = JsMap.keys r /\
  exists ws, forall k,
    JsMap.get k (updateElement parse r key content)
    = if decide (key = k) then assign ws <$> JsMap.get k r
      else JsMap.get k r.
Proof.
  assert (Hsame : JsMap.keys r = JsMap.keys r /\
                  exists ws, forall k,
                    JsMap.get k r
                    = if decide (key = k) then assign ws <$> JsMap.get k r
                      else JsMap.get k r).
  { split; [done|]. exists []. intros k.
    case_decide; [by rewrite fmap_assign_nil | done]. }
  assert (Hmut : forall ws,
            JsMap.keys (JsMap.mutate key (assign ws) r) = JsMap.keys r /\
            exists ws', forall k,
              JsMap.get k (JsMap.mutate key (assign ws) r)
              = if decide (key = k) then assign ws' <$> JsMap.get k r
                else JsMap.get k r).
  { intros ws. split; [apply keys_mutate|]. exists ws. intros k.
    rewrite get_mutate. case_decide; [by subst | done]. }
  unfold updateElement.
  destruct (JsMap.get key r) as [info|] eqn:Hget; [|exact Hsame].
  assert (Hset : forall ws,
            JsMap.keys (JsMap.set key (assign ws info) r) = JsMap.keys r /\
            exists ws', forall k,
              JsMap.get k (JsMap.set key (assign ws info) r)
              = if decide (key = k) then assign ws' <$> JsMap.get k r
                else JsMap.get k r).
  { intros ws. split.
    - rewrite keys_set. rewrite decide_True; [done|].
      by eapply get_Some_keys.
    - exists ws. intros k. rewrite get_set.
      case_decide; [subst; by rewrite Hget | done]. }
  destruct (parse content) as [data|]; [|exact Hsame].
  repeat case_match; first [exact Hsame | apply Hmut | apply Hset].
Qed.

Lemma update_fold (items : list (string * string))
  (r : JsMap.t EditableElementInfo) :
  JsMap.keys (foldl (fun r' '(key, content) => updateElement parse r' key content)
                    r items) = JsMap.keys r /\
  forall k,
    (exists ws,
       JsMap.get k (foldl (fun r' '(key, content) =>
                             updateElement parse r' key content) r items)
       = assign ws <$> JsMap.get k r) /\
    (k ∉ items.*1 ->
     JsMap.get k (foldl (fun r' '(key, content) =>
                           updateElement parse r' key content) r items)
     = JsMap.get k r).
Proof.
  revert r. induction items as [|[key content] items IH]; intros r; csimpl.
  - split; [done|]. intros k. split; [|done].
    exists []. by rewrite fmap_assign_nil.
  - destruct (updateElement_spec r key content) as (Hkeys & ws & Hget).
    destruct (IH (updateElement parse r key content)) as (Hkeys' & Hrest).
    split; [by rewrite Hkeys'|]. intros k.
    destruct (Hrest k) as ((ws' & Hk) & Hout). split.
    + rewrite Hk, Hget. case_decide.
      * exists (ws ++ ws')%list. by rewrite fmap_assign_assign.
      * by exists ws'.
    + rewrite not_elem_of_cons. intros [Hne Hnot].
      rewrite Hout by done. rewrite Hget. by rewrite decide_False.
Qed.

Lemma populateContent_flat (r : JsMap.t EditableElementInfo)
  (data : ContentResponse) :
  populateContent parse r data =
  foldl (fun r' '(key, content) => updateElement parse r' key content) r
        (elements data ++
         (groups data ≫=
            fun group =>
              (fun entry => (group.1 +:+ ":" +:+ entry.1, entry.2))
                <$> group.2))%list.
Proof.
  unfold populateContent. rewrite foldl_app.
  generalize (foldl (fun r' '(key, content) => updateElement parse r' key content)
                    r (elements data)).
  induction (groups data) as [|[g es] gs IH]; intros r1; csimpl; [done|].
  rewrite foldl_app, <- IH. f_equal.
  clear. revert r1. induction es as [|[e c] es IH]; intros r1; csimpl; [done|].
  by rewrite IH.
Qed.

Lemma content_keys_flat (data : ContentResponse) :
  ((elements data ++
    (groups data ≫=
       fun group =>
         (fun entry => (group.1 +:+ ":" +:+ entry.1, entry.2)) <$> group.2))%list).*1
  = content_keys data.
Proof.
  unfold content_keys. rewrite fmap_app. f_equal.
  induction (groups data) as [|[g es] gs IH]; csimpl; [done|].
  rewrite fmap_app, IH. f_equal.
  rewrite <- list_fmap_compose. by apply list_fmap_ext.
Qed.

(** X29.  Content reaches only the entries it addresses.  Populating
    the registry from a response neither adds nor removes an entry; an
    entry can change only when the response names its key, an ungrouped
    id or a group, a colon and an id, so content for a key that is not
    registered is dropped; and a change only ever appends property
    assignments to a node, leaving its attributes, its group and its
    type as they were. *)
Theorem populate_writes_only_to_the_entries_addressed
  (r : JsMap.t EditableElementInfo) (data : ContentResponse) k :
  JsMap.keys (populateContent parse r data) = JsMap.keys r /\
  (exists ws,
     JsMap.get k (populateContent parse r data) = assign ws <$> JsMap.get k r) /\
  (k ∉ content_keys data ->
   JsMap.get k (populateContent parse r data) = JsMap.get k r).
Proof.
  rewrite populateContent_flat, <- content_keys_flat.
  destruct (update_fold
              (elements data ++
               (groups data ≫=
                  fun group =>
                    (fun entry => (group.1 +:+ ":" +:+ entry.1, entry.2))
                      <$> group.2))%list r) as (Hkeys & Hget).
  destruct (Hget k) as (Hws & Hout). by split_and!.
Qed.

Lemma first_settled_snoc (es : list Event) e :
  first_settled (es ++ [e])%list =
  match first_settled es with
  | Some o => Some o
  | None => match e with Settled o => Some o | DOMContentLoaded => None end
  end.
Proof.
  unfold first_settled. rewrite omap_app.
  destruct (omap _ es) as [|o os]; simpl; [|done]. by destruct e.
Qed.

Lemma dom_ready_snoc loading (es : list Event) e :
  dom_ready loading (es ++ [e])%list =
  dom_ready loading es ||
  match e with DOMContentLoaded => true | Settled _ => false end.
Proof.
  unfold dom_ready. rewrite existsb_app. simpl.
  by rewrite orb_false_r, orb_assoc.
Qed.

Lemma populateEntries_threw key (r : JsMap.t EditableElementInfo)
  (entries : list (string * EntryValue)) :
  (populateEntries parse key r entries).2 = null_entry entries.
Proof.
  revert r. induction entries as [|[id [content|]] entries IH]; intros r;
    simpl; [done | apply IH | done].
Qed.

Lemma populateGroups_threw (r : JsMap.t EditableElementInfo)
  (gs : list (string * GroupValue)) :
  (populateGroups parse r gs).2 =
  existsb (fun g => match g.2 with
                    | group (Some entries') => null_entry entries'
                    | _ => true
                    end) gs.
Proof.
  revert r. induction gs as [|[g [[entries|]|]] gs IH]; intros r; simpl;
    try done.
  pose proof (populateEntries_threw (fun elementId => g +:+ ":" +:+ elementId)
                r entries) as Hthrew.
  destruct (populateEntries parse _ r entries) as [r1 threw]. simpl in Hthrew.
  subst threw. destruct (null_entry entries); simpl; [done | apply IH].
Qed.

Lemma populateUnchecked_threw (r : JsMap.t EditableElementInfo) (data : Body) :
  (populateUnchecked parse r data).2 = misshapen data.
Proof.
  unfold populateUnchecked, misshapen.
  destruct (body_elements data) as [entries|]; [|done].
  pose proof (populateEntries_threw (fun elementId => elementId) r entries)
    as Hthrew.
  destruct (populateEntries parse _ r entries) as [r1 threw]. simpl in Hthrew.
  subst threw. destruct (null_entry entries); simpl; [done|].
  destruct (body_groups data) as [gs|]; [|done]. apply populateGroups_threw.
Qed.

Lemma populateEntries_typed key (r : JsMap.t EditableElementInfo)
  (items : list (string * string)) :
  populateEntries parse key r ((fun e => (e.1, entry (Some e.2))) <$> items)
  = (foldl (fun r' '(elementId, content) =>
              updateElement parse r' (key elementId) content) r items,
     false).
Proof.
  revert r. induction items as [|[id c] items IH]; intros r; csimpl; [done|].
  apply IH.
Qed.

Lemma populateUnchecked_typed (r : JsMap.t EditableElementInfo)
  (data : ContentResponse) :
  populateUnchecked parse r (of_content data)
  = (populateContent parse r data, false).
Proof.
  unfold populateUnchecked, of_content, populateContent. simpl.
  rewrite populateEntries_typed.
  generalize (foldl (fun r' '(elementId, content) =>
                       updateElement parse r' elementId content)
                    r (elements data)).
  induction (groups data) as [|[g es] gs IH]; intros r1; csimpl; [done|].
  rewrite populateEntries_typed. apply IH.
Qed.

Lemma finish_spec (content : option Json) (p : Page) :
  finish parse content p =
  mkPage (if throws_on (registry p) content then Thrown else Finished)
         (contentPromise p)
         (match content with
          | Some (truthy_value data) =>
              if (0 <? JsMap.size (registry p))%nat
              then (populateUnchecked parse (registry p) data).1
              else registry p
          | _ => registry p
          end)
         (if throws_on (registry p) content then hiding p else false)
         (if throws_on (registry p) content then moduleInjected p else true)
         (warnings p).
Proof.
  unfold finish, throws_on.
  destruct content as [[|data]|]; try done.
  destruct (0 <? JsMap.size (registry p))%nat; simpl; [|done].
  pose proof (populateUnchecked_threw (registry p) data) as Hthrew.
  destruct (populateUnchecked parse (registry p) data) as [r1 threw].
  simpl in *. subst threw. by destruct (misshapen data).
Qed.

Lemma run_loaded_page loading (doc : list Node) (es : list Event) :
  run parse doc (start loading doc) es = loaded_page parse loading doc es.
Proof.
  induction es as [|e es IH] using rev_ind.
  - by destruct loading.
  - unfold run in *. rewrite foldl_app. simpl. rewrite IH.
    unfold loaded_page. rewrite first_settled_snoc, dom_ready_snoc.
    destruct (first_settled es) as [o|]; destruct (dom_ready loading es);
      destruct e as [|o']; simpl; try done.
    + by destruct (throws_on _ _).
    + rewrite finish_spec.
      cbn [registry hiding moduleInjected contentPromise warnings].
      unfold populated.
      by destruct (throws_on (scanEditableElements doc) (fetchContent o).1).
    + destruct (fetchContent o') as [content ws].
      cbn [fst snd]. rewrite finish_spec.
      cbn [registry hiding moduleInjected contentPromise warnings].
      unfold populated.
      by destruct (throws_on (scanEditableElements doc) content).
    + by destruct (fetchContent o') as [content ws].
Qed.

Lemma updateElement_typed_text (r : JsMap.t EditableElementInfo) k c d info :
  JsMap.get k r = Some info -> parse c = Some d ->
  (d "type" = Some "text" ->
   JsMap.get k (updateElement parse r k c)
   = Some (assign [TextContent (d "value")] info)) /\
  (d "type" = Some "html" ->
   JsMap.get k (updateElement parse r k c)
   = Some (assign [InnerHTML (d "value")] info)).
Proof.
  intros Hget Hparse. unfold updateElement. rewrite Hget, Hparse. split.
  - intros Hty. rewrite bool_decide_eq_true_2 by done.
    rewrite get_mutate. rewrite decide_True by done. by rewrite Hget.
  - intros Hty. rewrite bool_decide_eq_false_2 by (rewrite Hty; discriminate).
    rewrite bool_decide_eq_true_2 by done.
    rewrite get_mutate. rewrite decide_True by done. by rewrite Hget.
Qed.

(** X30.  When the loader reveals the page.  Until the document is
    parsed and the fetch has come back, the hiding styles stay, the
    module is not injected and nothing has been written; so a fetch
    that never comes back leaves the editable elements hidden.  Once
    both have happened, in whichever order, [initialize] has populated
    the scanned registry with what [fetchContent] returned and has then
    removed the styles and injected the module; later events change
    nothing.  There is one exception.  When the response is ok, its body
    parses to a truthy value, at least one element is registered, and
    the body has no [elements] object, or no [groups] object, or a
    group that is [null] or has no [elements], or an entry that is
    [null], then [populateContent] throws, nothing catches it, and the
    page stays hidden with the module not injected, and with the writes
    made before the throw: none when [elements] is missing, all those
    of the ungrouped entries when only [groups] is.  A body of the declared shape never throws,
    and is applied as [populateContent] applies it: content of type
    [text] addressed to a registered key is written as [textContent],
    content of type [html] as [innerHTML].  [fetchContent] returns a
    value only for an ok response whose body parses, and is silent only
    then and on a 404. *)
Theorem loader_reveals_only_after_populating loading (doc : list Node)
  (es : list Event) :
  (first_settled es = None \/ dom_ready loading es = false ->
   hiding (run parse doc (start loading doc) es) = true /\
   moduleInjected (run parse doc (start loading doc) es) = false /\
   (registry (run parse doc (start loading doc) es) = JsMap.empty \/
    registry (run parse doc (start loading doc) es) = scanEditableElements doc)) /\
  (forall o,
     first_settled es = Some o -> dom_ready loading es = true ->
     throws_on (scanEditableElements doc) (fetchContent o).1 = false ->
     run parse doc (start loading doc) es =
     mkPage Finished (Some (fetchContent o).1)
            (populated parse doc (fetchContent o).1) false true
            (fetchContent o).2) /\
  (forall o,
     first_settled es = Some o -> dom_ready loading es = true ->
     throws_on (scanEditableElements doc) (fetchContent o).1 = true ->
     run parse doc (start loading doc) es =
     mkPage Thrown (Some (fetchContent o).1)
            (populated parse doc (fetchContent o).1) true false
            (fetchContent o).2) /\
  (forall data,
     misshapen (of_content data) = false /\
     populated parse doc (Some (truthy_value (of_content data)))
     = if (0 <? JsMap.size (scanEditableElements doc))%nat
       then populateContent parse (scanEditableElements doc) data
       else scanEditableElements doc) /\
  (forall gs,
     populated parse doc (Some (truthy_value (mkBody None gs)))
     = scanEditableElements doc) /\
  (forall items : list (string * string),
     populated parse doc
       (Some (truthy_value
                (mkBody (Some ((fun e => (e.1, entry (Some e.2))) <$> items))
                        None)))
     = if (0 <? JsMap.size (scanEditableElements doc))%nat
       then foldl (fun r '(elementId, content) =>
                     updateElement parse r elementId content)
                  (scanEditableElements doc) items
       else scanEditableElements doc) /\
  (forall k c d info,
     JsMap.get k (scanEditableElements doc) = Some info ->
     parse c = Some d ->
     (d "type" = Some "text" ->
      JsMap.get k
        (populated parse doc
           (Some (truthy_value (of_content (mkContent [(k, c)] [])))))
      = Some (assign [TextContent (d "value")] info)) /\
     (d "type" = Some "html" ->
      JsMap.get k
        (populated parse doc
           (Some (truthy_value (of_content (mkContent [(k, c)] [])))))
      = Some (assign [InnerHTML (d "value")] info))) /\
  (forall o,
     (fetchContent o).1
     = match o with
       | Responded true _ (Some json) => Some json
       | _ => None
       end) /\
  (forall o,
     (fetchContent o).2 = [] <->
     (exists status json, o = Responded true status (Some json)) \/
     (exists json, o = Responded false 404 json)).
Proof.
  rewrite run_loaded_page. unfold loaded_page.
  assert (Htyped : forall data,
            populated parse doc (Some (truthy_value (of_content data)))
            = if (0 <? JsMap.size (scanEditableElements doc))%nat
              then populateContent parse (scanEditableElements doc) data
              else scanEditableElements doc).
  { intros data. unfold populated.
    destruct (0 <? JsMap.size (scanEditableElements doc))%nat; [|done].
    by rewrite populateUnchecked_typed. }
  assert (Hone : forall k c info,
            JsMap.get k (scanEditableElements doc) = Some info ->
            populated parse doc
              (Some (truthy_value (of_content (mkContent [(k, c)] []))))
            = updateElement parse (scanEditableElements doc) k c).
  { intros k c info Hget. rewrite Htyped.
    destruct (scanEditableElements doc) as [|kv r]; [done|]. done. }
  split_and!.
  - intros [-> | ->].
    + destruct (dom_ready loading es); simpl; split_and!; try done;
        [by right | by left].
    + destruct (first_settled es); simpl; split_and!; try done; by left.
  - intros o -> -> ->. done.
  - intros o -> -> ->. done.
  - intros data. split; [|apply Htyped].
    unfold misshapen, of_content, null_entry. simpl.
    assert (Hnone : forall items : list (string * string),
              existsb (fun e : string * EntryValue =>
                         match e.2 with
                         | entry_null => true
                         | entry _ => false
                         end)
                      ((fun e => (e.1, entry (Some e.2))) <$> items) = false).
    { induction items as [|e items IH]; csimpl; [done | exact IH]. }
    rewrite Hnone. simpl.
    induction (groups data) as [|[g items] gs IH]; csimpl; [done|].
    by rewrite Hnone.
  - intros gs. unfold populated, populateUnchecked. simpl.
    by destruct (0 <? JsMap.size (scanEditableElements doc))%nat.
  - intros items. unfold populated, populateUnchecked. simpl.
    rewrite populateEntries_typed.
    by destruct (0 <? JsMap.size (scanEditableElements doc))%nat.
  - intros k c d info Hget Hparse.
    rewrite (Hone k c info Hget).
    by apply updateElement_typed_text.
  - intros [|[] status [json|]]; simpl; try done;
      by repeat (destruct (_ =? _)%nat).
  - intros [|[] status [json|]]; simpl.
    + split; [done|]. intros [(? & ? & [=]) | (? & [=])].
    + split; [intros _; left; by eexists _, _|done].
    + split; [done|]. intros [(? & ? & [=]) | (? & [=])].
    + destruct (status =? 404)%nat eqn:H404.
      * apply Nat.eqb_eq in H404 as ->.
        split; [intros _; right; by eexists|done].
      * apply Nat.eqb_neq in H404.
        destruct (status =? 403)%nat;
          (split; [done|]; intros [(? & ? & [=]) | (? & [= ?])]; done).
    + destruct (status =? 404)%nat eqn:H404.
      * apply Nat.eqb_eq in H404 as ->.
        split; [intros _; right; by eexists|done].
      * apply Nat.eqb_neq in H404.
        destruct (status =? 403)%nat;
          (split; [done|]; intros [(? & ? & [=]) | (? & [= ?])]; done).
Qed.

End LoaderContent.

Lemma populate_writes_only_to_the_entries_addressed_witness :
  JsMap.get "hero:title"
    (Loader.populateContent sample_parse
       (Loader.scanEditableElements sample_nodes)
       (Loader.mkContent [("body", "Hi")] []))
  = JsMap.get "hero:title" (Loader.scanEditableElements sample_nodes).
Proof.
  destruct (populate_writes_only_to_the_entries_addressed sample_parse
              (Loader.scanEditableElements sample_nodes)
              (Loader.mkContent [("body", "Hi")] []) "hero:title")
    as (_ & _ & Hkept).
  apply Hkept. apply (bool_decide_unpack _). vm_compute. exact I.
Defined.

(** A body that parses but has no [groups]: the ungrouped content is
    written, then [populateContent] throws, and the page stays hidden. *)
Lemma loader_reveals_only_after_populating_witness :
  Loader.hiding
    (Loader.run sample_parse sample_nodes (Loader.start true sample_nodes)
       [Loader.Settled
          (Loader.Responded true 200
             (Some (Loader.truthy_value
                      (Loader.mkBody
                         (Some [("body", Loader.entry (Some "Hi"))]) None))));
        Loader.DOMContentLoaded])
  = true.
Proof.
  destruct (loader_reveals_only_after_populating sample_parse true sample_nodes
              [Loader.Settled
                 (Loader.Responded true 200
                    (Some (Loader.truthy_value
                             (Loader.mkBody
                                (Some [("body", Loader.entry (Some "Hi"))])
                                None))));
               Loader.DOMContentLoaded]) as (_ & _ & Hthrown & _).
  rewrite (Hthrown
             (Loader.Responded true 200
                (Some (Loader.truthy_value
                         (Loader.mkBody
                            (Some [("body", Loader.entry (Some "Hi"))])
                            None)))));
    reflexivity.
Defined.

Lemma loader_resolves_group_and_type_witness :
  Loader.getGroupId
    (Loader.mkNode (Some "title") None None None None [Some "hero"]
                   Loader.OtherElement [])
  = Some "hero".
Proof.
  destruct (loader_resolves_group_and_type
              (Loader.mkNode (Some "title") None None None None [Some "hero"]
                             Loader.OtherElement [])) as (Hgroup & _).
  apply Hgroup. split; [discriminate|].
  exists [None], []. split; [reflexivity|].
  apply Forall_cons_2; [reflexivity | apply Forall_nil_2].
Defined.
